(** * A Nostr client: key codec, event codec, relay multiplexer, publication

    A shallow embedding of the TypeScript client ([nostr.ts], [encode.ts])
    and a verification of its behaviour.

    Conventions of the embedding.
    - A [Uint8Array] is a [list Z] whose elements lie in [0, 256).
    - A JavaScript string is a [string]; the client only ever builds
      strings of ASCII characters (hex digits, bech32 letters, tag markers).
    - [undefined] is [None].
    - A call that may throw returns a [result]; [Throw] carries the error.
    - Mutable arrays that are shared with a caller live in a store and are
      named by a location.  *)

From Stdlib Require Import ZArith List String Ascii Bool Lia Permutation.
From stdpp Require Import base tactics option list strings gmap pretty.

Local Open Scope string_scope.
Local Open Scope list_scope.
Local Open Scope Z_scope.

(** ** Results of calls that may throw *)

Inductive exn : Type :=
| ThreadTooShort      (* throw 'At least 2 posts required' *)
| FirstPostNotFound   (* throw 'First post not found' *)
| LastPostNotFound    (* throw 'Last post not found' *)
| PublicKeyRequired   (* 'You must set a public key for getting your posts.' *)
| NoRelay             (* 'Please add any relay in relayList property.' *)
| SyntaxError         (* JSON.parse on a malformed text *)
| TypeError (what : string)
| DecodeError (what : string)
| CryptoError (what : string).

Inductive result (A : Type) : Type :=
| Ok (a : A)
| Throw (e : exn).
Arguments Ok {A} a.
Arguments Throw {A} e.

Definition bind {A B} (r : result A) (k : A -> result B) : result B :=
  match r with
  | Ok a => k a
  | Throw e => Throw e
  end.

Notation "'let*' x ':=' r 'in' k" := (bind r (fun x => k))
  (at level 10, x pattern, r at level 100, k at level 200).

Definition is_ok {A} (r : result A) : bool :=
  match r with Ok _ => true | Throw _ => false end.

(** ** Bytes, characters and typed arrays *)

Definition is_byte (b : Z) : Prop := 0 <= b < 256.

(** [String.fromCharCode] and [charCodeAt] on code units below 256. *)
Definition fromCharCode (c : Z) : ascii := ascii_of_N (Z.to_N (c mod 65536)).

Definition charCode (c : ascii) : Z := Z.of_N (N_of_ascii c).

(** Reading a typed array (or an array) at an index: [undefined] out of range. *)
Definition at_index {A} (a : list A) (i : Z) : option A :=
  if i <? 0 then None else a !! Z.to_nat i.

(** [ToInt32] of what a typed-array read gave: [undefined] becomes 0. *)
Definition to_int32 (v : option Z) : Z := default 0 v.

(** Storing into a [Uint8Array]: the value is taken modulo 256 ([undefined]
    is stored as 0) and a store outside the array is ignored. *)
Definition u8_store (a : list Z) (i : nat) (v : option Z) : list Z :=
  <[i := (default 0 v) mod 256]> a.

(** [new TextDecoder().decode] and [new TextEncoder().encode] on ASCII text. *)
Definition TextDecoder_decode (bs : list Z) : string :=
  string_of_list_ascii (map fromCharCode bs).

Definition TextEncoder_encode (s : string) : list Z :=
  map charCode (list_ascii_of_string s).

(** ** encode.ts: the table-driven hex encoder *)

Definition hexTable : list Z := TextEncoder_encode "0123456789abcdef".

(** One turn of the loop [for (let i = 0; i < dst.length; i++)]. *)
Definition encode_body (src : list Z) (dst : list Z) (i : nat) : list Z :=
  let v := src !! i in
  let dst := u8_store dst (i * 2) (at_index hexTable (Z.shiftr (to_int32 v) 4)) in
  u8_store dst (i * 2 + 1) (at_index hexTable (Z.land (to_int32 v) 15)).

Definition encode (src : list Z) : list Z :=
  let dst := replicate (length src * 2) 0 in
  foldl (encode_body src) dst (seq 0 (length dst)).

(** ** Nostr.hexChar and Nostr.hexEncode *)

Definition hexChar (val : Z) : option ascii :=
  if val <? 10 then Some (fromCharCode (48 + val))
  else if val <? 16 then Some (fromCharCode (97 + val - 10))
  else None.

(** [str += x]: an [undefined] operand is appended as the text "undefined". *)
Definition append_js (str : string) (x : option ascii) : string :=
  match x with
  | Some c => str +:+ String c ""
  | None => str +:+ "undefined"
  end.

Definition hexEncode_body (str : string) (c : Z) : string :=
  let str := append_js str (hexChar (Z.shiftr c 4)) in
  append_js str (hexChar (Z.land c 15)).

Definition hexEncode (buf : list Z) : string :=
  foldl hexEncode_body "" buf.

(** ** The standard hex rendering, stated independently of the two encoders *)

Definition hex_digit (d : Z) : ascii :=
  match d with
  | 0 => "0" | 1 => "1" | 2 => "2" | 3 => "3" | 4 => "4"
  | 5 => "5" | 6 => "6" | 7 => "7" | 8 => "8" | 9 => "9"
  | 10 => "a" | 11 => "b" | 12 => "c" | 13 => "d" | 14 => "e"
  | _ => "f"
  end%char.

Definition hex_render (bs : list Z) : list ascii :=
  flat_map (fun b => [hex_digit (b / 16); hex_digit (b mod 16)]) bs.

Definition is_lower_hex (c : ascii) : bool :=
  let n := charCode c in
  ((48 <=? n) && (n <=? 57)) || ((97 <=? n) && (n <=? 102)).

(** ** Strings as the client uses them *)

Definition chars (s : string) : list ascii := list_ascii_of_string s.

Definition str (cs : list ascii) : string := string_of_list_ascii cs.

(** A string is truthy when it is not empty. *)
Definition truthy (s : string) : bool :=
  match s with EmptyString => false | String _ _ => true end.

(** An optional string argument ([string | undefined]) is truthy when it is
    given and not empty. *)
Definition truthy_opt (s : option string) : bool :=
  match s with Some s => truthy s | None => false end.

(** [s.substring(0, n)]. *)
Definition substring0 (n : nat) (s : string) : string := str (take n (chars s)).

(** [s.split(sep)] for a one-character separator. *)
Fixpoint split_chars (sep : ascii) (cur : list ascii) (cs : list ascii) : list string :=
  match cs with
  | [] => [str (rev cur)]
  | c :: cs =>
      if Ascii.eqb c sep then str (rev cur) :: split_chars sep [] cs
      else split_chars sep (c :: cur) cs
  end.

Definition split (sep : ascii) (s : string) : list string :=
  split_chars sep [] (chars s).

(** A template-literal hole: [undefined] is rendered as the text "undefined". *)
Definition template (s : option string) : string := default "undefined" s.

Definition lower_char (c : ascii) : ascii :=
  let n := charCode c in
  if (65 <=? n) && (n <=? 90) then fromCharCode (n + 32) else c.

Definition upper_char (c : ascii) : ascii :=
  let n := charCode c in
  if (97 <=? n) && (n <=? 122) then fromCharCode (n - 32) else c.

Definition toLowerCase (s : string) : string := str (map lower_char (chars s)).

Definition toUpperCase (s : string) : string := str (map upper_char (chars s)).

(** [s.lastIndexOf(c)], with [None] for -1. *)
Fixpoint lastIndexOf_chars (c : ascii) (cs : list ascii) (i : nat) (found : option nat)
  : option nat :=
  match cs with
  | [] => found
  | d :: cs =>
      lastIndexOf_chars c cs (S i) (if Ascii.eqb d c then Some i else found)
  end.

Definition lastIndexOf (c : ascii) (s : string) : option nat :=
  lastIndexOf_chars c (chars s) 0%nat None.

(** [s.endsWith(t)]. *)
Definition endsWith (s t : string) : bool :=
  let cs := chars s in
  let ct := chars t in
  (length ct <=? length cs)%nat &&
  bool_decide (drop (length cs - length ct) cs = ct).

(** ** secp.ts: [utils.bytesToHex] and [utils.hexToBytes]

    Modelled from the spec: secp.ts is absent from the sources.  The spec
    has keys hex-encoded in lowercase with two characters per byte, and
    malformed hex rejected with a decode error. *)

Definition bytesToHex (bs : list Z) : string := str (hex_render bs).

Definition hex_value (c : ascii) : option Z :=
  let n := charCode c in
  if (48 <=? n) && (n <=? 57) then Some (n - 48)
  else if (97 <=? n) && (n <=? 102) then Some (n - 87)
  else if (65 <=? n) && (n <=? 70) then Some (n - 55)
  else None.

Fixpoint hexToBytes_chars (cs : list ascii) : result (list Z) :=
  match cs with
  | [] => Ok []
  | [_] => Throw (DecodeError "hexToBytes: received invalid unpadded hex")
  | h :: l :: cs =>
      match hex_value h, hex_value l with
      | Some x, Some y =>
          let* bs := hexToBytes_chars cs in Ok (x * 16 + y :: bs)
      | _, _ => Throw (DecodeError "Invalid byte sequence")
      end
  end.

Definition hexToBytes (hex : string) : result (list Z) := hexToBytes_chars (chars hex).

(** ** The bech32 codec

    Modelled from the spec: the bech32 codec is imported from outside the
    repository and is absent from the sources.  The spec names the format:
    a human-readable prefix, the separator [1], the data regrouped from
    8-bit bytes to 5-bit words, a six-character checksum per the bech32
    rules, and a maximum encoded length that the caller passes. *)

Module Bech32.

Definition ALPHABET : list ascii := chars "qpzry9x8gf2tvdw0s3jn54khce6mua7l".

Definition letter_of (d : Z) : result ascii :=
  match at_index ALPHABET d with
  | Some c => Ok c
  | None => Throw (DecodeError "Digit index outside alphabet")
  end.

Fixpoint index_of (c : ascii) (l : list ascii) (i : Z) : option Z :=
  match l with
  | [] => None
  | d :: l => if Ascii.eqb d c then Some i else index_of c l (i + 1)
  end.

Definition digit_of (c : ascii) : result Z :=
  match index_of c ALPHABET 0 with
  | Some d => Ok d
  | None => Throw (DecodeError "Unknown letter")
  end.

Fixpoint mapM {A B} (f : A -> result B) (l : list A) : result (list B) :=
  match l with
  | [] => Ok []
  | a :: l => let* b := f a in let* bs := mapM f l in Ok (b :: bs)
  end.

Definition alphabet_encode (words : list Z) : result string :=
  let* cs := mapM letter_of words in Ok (str cs).

Definition alphabet_decode (s : string) : result (list Z) :=
  mapM digit_of (chars s).

(** *** Regrouping bits: [convertRadix2] *)

(** The inner loop [for (; pos >= to; pos -= to) res.push(...)]. *)
Fixpoint drain (fuel : nat) (to carry pos : Z) (res : list Z) : Z * list Z :=
  match fuel with
  | O => (pos, res)
  | S fuel =>
      if to <=? pos
      then drain fuel to carry (pos - to)
             (res ++ [Z.land (Z.shiftr carry (pos - to)) (2 ^ to - 1)])
      else (pos, res)
  end.

Record radix_state := { carry : Z; pos : Z; res : list Z }.

(** One turn of [for (const n of data)]. *)
Definition radix_step (from to : Z) (st : radix_state) (n : Z) : result radix_state :=
  if 2 ^ from <=? n then Throw (DecodeError "convertRadix2: invalid data word")
  else
    let carry := Z.lor (Z.shiftl (carry st) from) n in
    if 32 <? pos st + from then Throw (DecodeError "convertRadix2: carry overflow")
    else
      let pos := pos st + from in
      let '(pos, res) := drain (Z.to_nat pos) to carry pos (res st) in
      Ok {| carry := Z.land carry (2 ^ pos - 1); pos := pos; res := res |}.

Fixpoint radix_loop (from to : Z) (st : radix_state) (data : list Z) : result radix_state :=
  match data with
  | [] => Ok st
  | n :: data => let* st := radix_step from to st n in radix_loop from to st data
  end.

Definition radix2carry (from to : Z) : Z := from + (to - Z.gcd from to).

Definition convertRadix2 (data : list Z) (from to : Z) (padding : bool) : result (list Z) :=
  if (from <=? 0) || (32 <? from) then Throw (DecodeError "convertRadix2: wrong from")
  else if (to <=? 0) || (32 <? to) then Throw (DecodeError "convertRadix2: wrong to")
  else if 32 <? radix2carry from to then Throw (DecodeError "convertRadix2: carry overflow")
  else
    let* st := radix_loop from to {| carry := 0; pos := 0; res := [] |} data in
    let carry := Z.land (Z.shiftl (carry st) (to - pos st)) (2 ^ to - 1) in
    if negb padding && (from <=? pos st) then Throw (DecodeError "Excess padding")
    else if negb padding && negb (carry =? 0) then Throw (DecodeError "Non-zero carry")
    else if padding && (0 <? pos st) then Ok (res st ++ [carry])
    else Ok (res st).

(** [toWords]: bytes to 5-bit words, padded.  [fromWords]: the inverse,
    refusing padding of five bits or more and non-zero padding. *)
Definition toWords (bytes : list Z) : result (list Z) := convertRadix2 bytes 8 5 true.

Definition fromWords (words : list Z) : result (list Z) := convertRadix2 words 5 8 false.

(** *** The checksum *)

Definition POLYMOD_GENERATORS : list Z :=
  [0x3b6a57b2; 0x26508e6d; 0x1ea119fa; 0x3d4233dd; 0x2a1462b3].

Definition bech32Polymod (pre : Z) : Z :=
  let b := Z.shiftr pre 25 in
  let chk := Z.shiftl (Z.land pre 0x1ffffff) 5 in
  foldl (fun chk '(i, g) => if Z.land (Z.shiftr b i) 1 =? 1 then Z.lxor chk g else chk)
        chk (zip [0; 1; 2; 3; 4] POLYMOD_GENERATORS).

Fixpoint prefix_high (cs : list ascii) (chk : Z) : result Z :=
  match cs with
  | [] => Ok chk
  | c :: cs =>
      let n := charCode c in
      if (n <? 33) || (126 <? n) then Throw (DecodeError "Invalid prefix")
      else prefix_high cs (Z.lxor (bech32Polymod chk) (Z.shiftr n 5))
  end.

Definition bechChecksum (prefix : string) (words : list Z) (encodingConst : Z)
  : result string :=
  let* chk := prefix_high (chars prefix) 1 in
  let chk := bech32Polymod chk in
  let chk := foldl (fun chk c => Z.lxor (bech32Polymod chk) (Z.land (charCode c) 0x1f))
                   chk (chars prefix) in
  let chk := foldl (fun chk v => Z.lxor (bech32Polymod chk) v) chk words in
  let chk := foldl (fun chk _ => bech32Polymod chk) chk (seq 0 6) in
  let chk := Z.lxor chk encodingConst in
  let* sum := convertRadix2 [Z.rem chk (2 ^ 30)] 30 5 false in
  alphabet_encode sum.

Definition ENCODING_CONST : Z := 1.

(** *** [bech32.encode] and [bech32.decode] *)

Definition encode (prefix : string) (words : list Z) (limit : Z) : result string :=
  let actualLength := Z.of_nat (String.length prefix) + 7 + Z.of_nat (length words) in
  if limit <? actualLength then Throw (TypeError "Length exceeds limit")
  else
    let prefix := toLowerCase prefix in
    let* data := alphabet_encode words in
    let* sum := bechChecksum prefix words ENCODING_CONST in
    Ok (prefix +:+ "1" +:+ data +:+ sum).

Definition decode (s : string) (limit : Z) : result (string * list Z) :=
  let len := Z.of_nat (String.length s) in
  if (len <? 8) || (limit <? len) then Throw (TypeError "Wrong string length")
  else
    let lowered := toLowerCase s in
    if negb (String.eqb s lowered) && negb (String.eqb s (toUpperCase s))
    then Throw (DecodeError "String must be lowercase or uppercase")
    else
      let s := lowered in
      match lastIndexOf "1" s with
      | None | Some O =>
          Throw (DecodeError "Letter 1 must be present between prefix and data only")
      | Some sepIndex =>
          let prefix := str (take sepIndex (chars s)) in
          let _words := str (drop (S sepIndex) (chars s)) in
          if (String.length _words <? 6)%nat
          then Throw (DecodeError "Data must be at least 6 characters long")
          else
            let* all := alphabet_decode _words in
            let words := take (length all - 6) all in
            let* sum := bechChecksum prefix words ENCODING_CONST in
            if endsWith _words sum then Ok (prefix, words)
            else Throw (DecodeError "Invalid checksum")
      end.

End Bech32.

(** ** Events, filters and posts *)

(** [NostrKind], by its numeric value on the wire. *)
Inductive NostrKind : Type :=
| META_DATA | TEXT_NOTE | RECOMMED_SERVER | CONTACTS | DIRECT_MESSAGE.

Definition kind_code (k : NostrKind) : Z :=
  match k with
  | META_DATA => 0 | TEXT_NOTE => 1 | RECOMMED_SERVER => 2
  | CONTACTS => 3 | DIRECT_MESSAGE => 4
  end.

(** A public key held by the client is [any]: [undefined] until it is set. *)
Record NostrFilters := {
  f_ids : option (list string);
  f_authors : option (list (option string));
  f_kinds : option (list NostrKind);
  f_e : option (list string);
  f_p : option (list (option string));
  f_since : option Z;
  f_until : option Z;
  f_limit : option Z
}.

Definition no_filter : NostrFilters :=
  {| f_ids := None; f_authors := None; f_kinds := None; f_e := None;
     f_p := None; f_since := None; f_until := None; f_limit := None |}.

Record NostrEvent := {
  id : string;
  pubkey : option string;
  created_at : Z;
  kind : Z;
  tags : list (list string);
  content : string;
  sig : string
}.

Record NostrPost := {
  post_id : string;
  post_content : string;
  post_author : option string;
  post_createdAt : Z;
  post_reference : option string;
  post_rootReference : option string;
  post_mentionTo : option string
}.

(** ** What the client takes from its platform

    The hash and the signature scheme (secp.ts, absent from the sources) and
    the clock are not code of the client: they are parameters of the
    embedding.  A digest is 32 bytes.  [schnorr_getPublicKey] and
    [schnorr_sign] throw on a key they cannot use.  [schnorr_sign] draws
    fresh randomness on each call; the draw is named by a counter. *)
Class Platform := {
  sha256 : list Z -> list Z;
  sha256_digest : forall m, length (sha256 m) = 32%nat /\ Forall is_byte (sha256 m);
  schnorr_getPublicKey : string -> result (list Z);
  schnorr_sign : nat -> string -> option string -> result (list Z);
  schnorr_verify : string -> string -> option string -> bool;
  Date_now : nat -> Z
}.

(** ** Relays

    Modelled from the spec: relay.ts is absent from the sources.  A relay
    session accepts or rejects a published event, answers a filter with a
    finite batch, and answers a filter with a stream of events that may end. *)
Record Relay := {
  relay_name : string;
  relay_url : string;
  sendEvent_accepts : NostrEvent -> bool;
  subscribePromise : NostrFilters -> list NostrEvent;
  events : NostrFilters -> list NostrEvent
}.

Record RelayList := { rl_name : string; rl_url : string }.

(** ** The client object *)
Record Nostr := {
  relayList : list RelayList;
  relayInstances : list Relay;
  _privateKey : option string;
  _publicKey : option string;
  debugMode : bool
}.

(** [new Nostr()]. *)
Definition new_Nostr : Nostr :=
  {| relayList := []; relayInstances := []; _privateKey := None;
     _publicKey := None; debugMode := false |}.

Definition with_privateKey (n : Nostr) (v : option string) : Nostr :=
  {| relayList := relayList n; relayInstances := relayInstances n;
     _privateKey := v; _publicKey := _publicKey n; debugMode := debugMode n |}.

Definition with_publicKey (n : Nostr) (v : option string) : Nostr :=
  {| relayList := relayList n; relayInstances := relayInstances n;
     _privateKey := _privateKey n; _publicKey := v; debugMode := debugMode n |}.

Definition with_relays (n : Nostr) (rs : list Relay) : Nostr :=
  {| relayList := relayList n; relayInstances := rs;
     _privateKey := _privateKey n; _publicKey := _publicKey n;
     debugMode := debugMode n |}.

(** ** Key codec of the client *)

Definition Bech32MaxSize : Z := 5000.

(** [const [prefix, bytes] = key.split('1')], then
    [bech32.decode(`${prefix}1${bytes}`, 1500)]. *)
Definition getKeyFromNip19 (key : string) : result string :=
  let parts := split "1" key in
  let prefix := parts !! 0%nat in
  let bytes := parts !! 1%nat in
  let* code := Bech32.decode (template prefix +:+ "1" +:+ template bytes) 1500 in
  let* data := Bech32.fromWords (snd code) in
  Ok (bytesToHex data).

Definition getNip19FromKey (key : string) : result string :=
  let* data := hexToBytes key in
  let* words := Bech32.toWords data in
  Bech32.encode "npub" words Bech32MaxSize.

Section Client.
Context `{Platform}.

(** [set privateKey(value)].  The setter returns the client as it is left,
    also when it throws. *)
Definition set_privateKey (value : string) (n : Nostr) : result unit * Nostr :=
  match (if String.eqb (substring0 4 value) "nsec"
         then getKeyFromNip19 value else Ok value) with
  | Throw e => (Throw e, n)
  | Ok value =>
      if truthy value then
        let n := with_privateKey n (Some value) in
        match schnorr_getPublicKey value with
        | Throw e => (Throw e, n)
        | Ok pk => (Ok tt, with_publicKey n (Some (TextDecoder_decode (encode pk))))
        end
      else (Ok tt, n)
  end.

(** [set publicKey(value)]. *)
Definition set_publicKey (value : string) (n : Nostr) : result unit * Nostr :=
  match (if String.eqb (substring0 4 value) "npub"
         then getKeyFromNip19 value else Ok value) with
  | Throw e => (Throw e, n)
  | Ok value => (Ok tt, with_publicKey n (Some value))
  end.

(** The public key that the scheme derives from the stored private key,
    hex-encoded as the setter stores it. *)
Definition derived_publicKey (n : Nostr) : option string :=
  match _privateKey n with
  | None => None
  | Some sk =>
      match schnorr_getPublicKey sk with
      | Ok pk => Some (TextDecoder_decode (encode pk))
      | Throw _ => None
      end
  end.

(** The invariant of the key pair: once a private key is stored, the stored
    public key is the one derived from it. *)
Definition keys_consistent (n : Nostr) : Prop :=
  forall sk, _privateKey n = Some sk ->
    exists pk, schnorr_getPublicKey sk = Ok pk /\
               _publicKey n = Some (TextDecoder_decode (encode pk)).

Definition keys_consistentb (n : Nostr) : bool :=
  match _privateKey n with
  | None => true
  | Some _ =>
      match derived_publicKey n with
      | Some pk => bool_decide (_publicKey n = Some pk)
      | None => false
      end
  end.

(** [isValidEvent]. *)
Definition isValidEvent (event : NostrEvent) : bool :=
  schnorr_verify (sig event) (id event) (pubkey event).

(** ** Event identity *)

Definition quote : ascii := "034"%char.
Definition backslash : ascii := "092"%char.

(** [JSON.stringify] of a string: quotes, backslashes and control
    characters are escaped, everything else is copied. *)
Definition json_escape_char (c : ascii) : list ascii :=
  let n := charCode c in
  if n =? 34 then [backslash; quote]
  else if n =? 92 then [backslash; backslash]
  else if n =? 8 then backslash :: chars "b"
  else if n =? 12 then backslash :: chars "f"
  else if n =? 10 then backslash :: chars "n"
  else if n =? 13 then backslash :: chars "r"
  else if n =? 9 then backslash :: chars "t"
  else if n <? 32 then backslash :: chars "u00" ++ [hex_digit (n / 16); hex_digit (n mod 16)]
  else [c].

Definition json_string (s : string) : string :=
  str (quote :: flat_map json_escape_char (chars s) ++ [quote]).

Definition json_opt_string (s : option string) : string :=
  match s with Some s => json_string s | None => "null" end.

Fixpoint join (sep : string) (l : list string) : string :=
  match l with
  | [] => ""
  | [x] => x
  | x :: l => x +:+ sep +:+ join sep l
  end.

Definition json_array (items : list string) : string :=
  "[" +:+ join "," items +:+ "]".

(** [JSON.stringify([0, pubkey, created_at, kind, tags, content])]. *)
Definition eventCommitment (event : NostrEvent) : string :=
  json_array
    [ "0";
      json_opt_string (pubkey event);
      pretty (created_at event);
      pretty (kind event);
      json_array (map (fun tag => json_array (map json_string tag)) (tags event));
      json_string (content event) ].

Definition utf8Encode (txt : string) : list Z := TextEncoder_encode txt.

Definition calculateId (event : NostrEvent) : string :=
  hexEncode (sha256 (utf8Encode (eventCommitment event))).

(** ** Posts *)

Definition last_is (marker : string) (tag : list string) : bool :=
  bool_decide (last tag = Some marker).

(** [tag.length > 0 && tag[0] === 'e' && tag[tag.length - 1] === marker]. *)
Definition is_e_tag (marker : string) (tag : list string) : bool :=
  (0 <? length tag)%nat && bool_decide (tag !! 0%nat = Some "e") && last_is marker tag.

Definition is_p_tag (tag : list string) : bool :=
  (0 <? length tag)%nat && bool_decide (tag !! 0%nat = Some "p").

(** [const t = tags.find(p); if (t) field = t[1]]. *)
Definition tag_ref (p : list string -> bool) (tags : list (list string)) : option string :=
  match List.find p tags with
  | Some tag => tag !! 1%nat
  | None => None
  end.

Definition eventToPost (event : NostrEvent) : NostrPost :=
  {| post_id := id event;
     post_author := pubkey event;
     post_content := content event;
     post_createdAt := created_at event;
     post_rootReference := tag_ref (is_e_tag "root") (tags event);
     post_reference := tag_ref (is_e_tag "reply") (tags event);
     post_mentionTo := tag_ref is_p_tag (tags event) |}.

(** ** The world outside the client

    [wire] lists the calls of [relay.sendEvent] in order, each with the
    relay's name, the event and whether the relay took it.  [ticks] counts
    the readings of the clock and the draws of randomness.  [arrays] holds
    the arrays that callers share with the client. *)
Record World := {
  ticks : nat;
  wire : list (string * NostrEvent * bool);
  arrays : gmap nat (list string)
}.

Definition tick (w : World) : World :=
  {| ticks := S (ticks w); wire := wire w; arrays := arrays w |}.

Definition transmit (w : World) (relay : Relay) (event : NostrEvent) : World :=
  {| ticks := ticks w;
     wire := wire w ++ [(relay_name relay, event, sendEvent_accepts relay event)];
     arrays := arrays w |}.

Definition set_array (w : World) (l : nat) (a : list string) : World :=
  {| ticks := ticks w; wire := wire w; arrays := <[l := a]> (arrays w) |}.


(** ** Publication *)

Definition signId (n : Nostr) (entropy : nat) (id : string) : result (list Z) :=
  schnorr_sign entropy id (_privateKey n).

Definition sendPost (n : Nostr) (content : string)
    (rootReference reference : option string) (w : World)
  : result NostrPost * World :=
  let now := Date_now (ticks w) in
  let w := tick w in
  let tags := [] in
  let tags :=
    if truthy_opt rootReference
    then tags ++ [["e"; template rootReference; ""; "root"]] else tags in
  let tags :=
    if truthy_opt reference
    then tags ++ [["e"; template reference; ""; "reply"]] else tags in
  let event :=
    {| content := content; created_at := now / 1000; id := "";
       kind := kind_code TEXT_NOTE; pubkey := _publicKey n; sig := "";
       tags := tags |} in
  let id := calculateId event in
  match signId n (ticks w) id with
  | Throw e => (Throw e, w)
  | Ok sigbytes =>
      let w := tick w in
      let event :=
        {| content := content; created_at := created_at event; id := id;
           kind := kind event; pubkey := pubkey event;
           sig := TextDecoder_decode (encode sigbytes); tags := tags |} in
      let w := foldl (fun w relay => transmit w relay event) w (relayInstances n) in
      (Ok (eventToPost event), w)
  end.

Definition sendTextPost (n : Nostr) (content : string) (w : World)
  : result NostrPost * World :=
  sendPost n content None None w.

Definition sendReplyPost (n : Nostr) (content : string) (post : NostrPost) (w : World)
  : result NostrPost * World :=
  sendPost n content (post_rootReference post) (post_reference post) w.

(** The loop [for (let i = 0; i < posts.length; i++)] of [sendThreadPost],
    over the elements that the shift left in the array; nothing writes the
    array between the shift and the end of the loop. *)
Fixpoint thread_loop (n : Nostr) (firstPost : NostrPost) (lastPost : option NostrPost)
    (i : nat) (texts : list string) (w : World) : result unit * World :=
  match texts with
  | [] => (Ok tt, w)
  | text :: texts =>
      if (i =? 0)%nat then
        match sendPost n text (Some (post_id firstPost)) None w with
        | (Throw e, w) => (Throw e, w)
        | (Ok p, w) => thread_loop n firstPost (Some p) (S i) texts w
        end
      else
        match lastPost with
        | None => (Throw LastPostNotFound, w)
        | Some lp =>
            match sendPost n text (Some "") (Some (post_id lp)) w with
            | (Throw e, w) => (Throw e, w)
            | (Ok p, w) => thread_loop n firstPost (Some p) (S i) texts w
            end
        end
  end.

(** [sendThreadPost(posts)]: [posts] names the caller's array. *)
Definition sendThreadPost (n : Nostr) (posts : nat) (w : World) : result unit * World :=
  match arrays w !! posts with
  | None => (Throw (TypeError "posts is not an array"), w)
  | Some arr =>
      if (length arr <? 2)%nat then (Throw ThreadTooShort, w)
      else
        match arr with
        | [] => (Throw ThreadTooShort, w)
        | first :: rest =>
            let w := set_array w posts rest in
            match sendTextPost n first w with
            | (Throw e, w) => (Throw e, w)
            | (Ok firstPost, w) =>
                thread_loop n firstPost None 0 (default [] (arrays w !! posts)) w
            end
        end
  end.

End Client.

(** ** Nostr.filter: merging the relays' streams

    [filter(filters, unique)] takes one async iterator from each relay and
    its [Symbol.asyncIterator] generator merges them.  The generator keeps
    two arrays side by side: [relayIterators], the iterators still active,
    and [indexedPromises], one pending promise for each.

    An iterator is an object: it is named by a number, and [iterators]
    holds, for each name, what that iterator has still to produce;
    [next_calls] counts the calls of [next()] made on it.  A pending
    promise is [indexPromise(it.next(), i)]: it resolves to the next item
    of [it] (or to [done]) paired with the index [i], an index that every
    [.then(r => {r.i--; return r})] chained onto it lowers by one. *)

Record Pending := { p_iter : nat; p_i : Z }.

Record Mux := {
  iterators : list (list NostrEvent);
  next_calls : list nat;
  relayIterators : list nat;
  indexedPromises : list Pending;
  yieldedEventIds : list string
}.

(** The state when the generator enters its loop:
    [nextPromises = relayIterators.map(i => i.next())] and
    [indexedPromises = nextPromises.map((p, i) => indexPromise(p, i))]. *)
Definition mux_start (sources : list (list NostrEvent)) : Mux :=
  {| iterators := sources;
     next_calls := replicate (length sources) 1%nat;
     relayIterators := seq 0 (length sources);
     indexedPromises :=
       imap (fun i it => {| p_iter := it; p_i := Z.of_nat i |}) (seq 0 (length sources));
     yieldedEventIds := [] |}.

(** What one turn of the loop does. *)
Inductive turn : Type :=
| Forwarded (it : nat) (ev : NostrEvent)   (* the item was yielded *)
| Dropped (it : nat) (ev : NostrEvent)     (* the item's id had been yielded before *)
| Exhausted (it : nat).                    (* the iterator reported [done] *)

(** [for (let i = k; i < indexedPromises.length; i++)
       indexedPromises[i] = indexedPromises[i].then(r => {r.i--; return r})]. *)
Definition lower_from (k : nat) (ps : list Pending) : list Pending :=
  take k ps ++
  map (fun p => {| p_iter := p_iter p; p_i := p_i p - 1 |}) (drop k ps).

(** The branch [indexResult.value.done] for the index [i] that the winning
    promise carries.  [splice(i, 1)] on both arrays, then the indices of the
    promises from [i] on are lowered.  A negative index ends in a
    [TypeError] at [indexedPromises[i].then]. *)
Definition mux_done (i : Z) (m : Mux) : result Mux :=
  if i <? 0 then Throw (TypeError "indexedPromises[i] is undefined")
  else
    let k := Z.to_nat i in
    Ok {| iterators := iterators m;
          next_calls := next_calls m;
          relayIterators := delete k (relayIterators m);
          indexedPromises := lower_from k (delete k (indexedPromises m));
          yieldedEventIds := yieldedEventIds m |}.

(** [!unique || yieldedEventIds.indexOf(id) === -1]. *)
Definition to_yield (unique : bool) (m : Mux) (ev : NostrEvent) : bool :=
  negb unique || negb (bool_decide (id ev ∈ yieldedEventIds m)).

(** The other branch, after the item [ev] arrived from the iterator [it]:
    the id is recorded when the item is yielded under [unique], and
    [indexedPromises[i] = indexPromise(relayIterators[i].next(), i)]
    re-arms the slot [i].  The two arrays have one length, so the slot
    written is inside [indexedPromises] whenever [relayIterators[i]] is
    there to be read; otherwise the read ends in a [TypeError]. *)
Definition mux_item (unique : bool) (i : Z) (ev : NostrEvent) (m : Mux) : result Mux :=
  let ids :=
    if to_yield unique m ev && unique
    then yieldedEventIds m ++ [id ev] else yieldedEventIds m in
  match at_index (relayIterators m) i with
  | None => Throw (TypeError "relayIterators[i] is undefined")
  | Some it' =>
      Ok {| iterators := iterators m;
            next_calls := alter S it' (next_calls m);
            relayIterators := relayIterators m;
            indexedPromises :=
              <[Z.to_nat i := {| p_iter := it'; p_i := i |}]> (indexedPromises m);
            yieldedEventIds := ids |}
  end.

(** One turn of [while (relayIterators.length > 0)], when the promise in
    slot [j] wins [Promise.race(indexedPromises)].  [None]: there is no such
    slot.  The turn ends in [Throw] when it raised a [TypeError]. *)
Definition mux_turn (unique : bool) (j : nat) (m : Mux) : option (turn * result Mux) :=
  match indexedPromises m !! j with
  | None => None
  | Some p =>
      match iterators m !! p_iter p with
      | None => None
      | Some [] => Some (Exhausted (p_iter p), mux_done (p_i p) m)
      | Some (ev :: rest) =>
          let m' :=
            {| iterators := <[p_iter p := rest]> (iterators m);
               next_calls := next_calls m;
               relayIterators := relayIterators m;
               indexedPromises := indexedPromises m;
               yieldedEventIds := yieldedEventIds m |} in
          Some (if to_yield unique m ev
                then Forwarded (p_iter p) ev else Dropped (p_iter p) ev,
                mux_item unique (p_i p) ev m')
      end
  end.

(** The runs of the loop: the turns taken from one state to another, under
    any order in which the pending promises settle. *)
Inductive mux_run (unique : bool) : Mux -> list turn -> Mux -> Prop :=
| run_stop m : mux_run unique m [] m
| run_turn m j t m1 ts m2 :
    relayIterators m <> [] ->
    mux_turn unique j m = Some (t, Ok m1) ->
    mux_run unique m1 ts m2 ->
    mux_run unique m (t :: ts) m2.

(** A run is complete when the loop has ended. *)
Definition complete (unique : bool) (m : Mux) (ts : list turn) (m' : Mux) : Prop :=
  mux_run unique m ts m' /\ relayIterators m' = [].

(** The merged sequence: the items yielded, in order. *)
Definition forwarded (ts : list turn) : list NostrEvent :=
  omap (fun t => match t with Forwarded _ ev => Some ev | _ => None end) ts.

(** The items in their order of arrival, yielded or not. *)
Definition arrivals (ts : list turn) : list NostrEvent :=
  omap (fun t =>
          match t with
          | Forwarded _ ev | Dropped _ ev => Some ev
          | Exhausted _ => None
          end) ts.

(** The items that arrived from the iterator [it], in their order of
    arrival. *)
Definition arrivals_of (it : nat) (ts : list turn) : list NostrEvent :=
  omap (fun t =>
          match t with
          | Forwarded it' ev | Dropped it' ev =>
              if decide (it' = it) then Some ev else None
          | Exhausted _ => None
          end) ts.

(** The first item of each id, in order. *)
Fixpoint first_by_id (seen : list string) (evs : list NostrEvent) : list NostrEvent :=
  match evs with
  | [] => []
  | ev :: evs =>
      if bool_decide (id ev ∈ seen) then first_by_id seen evs
      else ev :: first_by_id (seen ++ [id ev]) evs
  end.

(** The work left: one turn for each item of an active iterator and one
    for its exhaustion. *)
Definition work_left (m : Mux) : nat :=
  sum_list (map (fun it => S (length (default [] (iterators m !! it)))) (relayIterators m)).

(** The loop driven by an oracle: [sched k] names the promise that wins
    the [k]-th race, among the slots there are.  The result is the turns
    taken and whether the loop ended by its condition ([Ok]) or by an
    error. *)
Fixpoint mux_exec (unique : bool) (sched : nat -> nat) (fuel k : nat) (m : Mux)
  : list turn * result Mux :=
  match fuel with
  | O => ([], Ok m)
  | S fuel =>
      match relayIterators m with
      | [] => ([], Ok m)
      | _ :: _ =>
          match mux_turn unique (sched k mod length (indexedPromises m))%nat m with
          | None => ([], Throw (TypeError "no pending promise"))
          | Some (t, Throw e) => ([t], Throw e)
          | Some (t, Ok m1) =>
              let '(ts, r) := mux_exec unique sched fuel (S k) m1 in (t :: ts, r)
          end
      end
  end.

(** [filter(filters, unique).collect()], over the streams that the relays
    give for the filter. *)
Definition collect (unique : bool) (sched : nat -> nat) (sources : list (list NostrEvent))
  : result (list NostrEvent) :=
  let m := mux_start sources in
  match mux_exec unique sched (work_left m) 0 m with
  | (ts, Ok _) => Ok (forwarded ts)
  | (_, Throw e) => Throw e
  end.

Definition filter_sources (n : Nostr) (filters : NostrFilters) : list (list NostrEvent) :=
  map (fun r => events r filters) (relayInstances n).

(** The iterator that a turn concerns. *)
Definition turn_iter (t : turn) : nat :=
  match t with Forwarded it _ | Dropped it _ | Exhausted it => it end.

(** Two relays whose streams overlap: ids 1, 2, 3 and ids 2, 3, 4. *)
Definition event_with_id (i : string) : NostrEvent :=
  {| id := i; pubkey := None; created_at := 0; kind := kind_code TEXT_NOTE;
     tags := []; content := ""; sig := "" |}.

Definition overlapping_sources : list (list NostrEvent) :=
  [ map event_with_id ["1"; "2"; "3"]; map event_with_id ["2"; "3"; "4"] ].

(** ** JSON.parse

    A model of the built-in [JSON.parse], after the JSON grammar.  A
    number is kept as the text that writes it; a string is kept as its
    bytes, a [\u] escape being written as the UTF-8 bytes of its code unit.
    Each of the three parsers is called on less fuel than its caller and
    consumes a character before it calls another, so fuel of twice the
    length of the text and two is never used up; running out of it is kept
    apart from a syntax error all the same. *)

#[local] Set Warnings "-register-all".

Inductive json : Type :=
| JNull
| JBool (b : bool)
| JNumber (lexeme : string)
| JString (s : string)
| JArray (items : list json)
| JObject (members : list (string * json)).

Inductive parse_error : Type := Syntax | OutOfFuel.

Definition is_ws (c : ascii) : bool :=
  let n := charCode c in (n =? 32) || (n =? 9) || (n =? 10) || (n =? 13).

Fixpoint skip_ws (cs : list ascii) : list ascii :=
  match cs with
  | c :: cs' => if is_ws c then skip_ws cs' else cs
  | [] => []
  end.

Definition is_digit (c : ascii) : bool :=
  let n := charCode c in (48 <=? n) && (n <=? 57).

Fixpoint span_digits (cs : list ascii) : list ascii * list ascii :=
  match cs with
  | c :: cs' =>
      if is_digit c then let '(ds, rest) := span_digits cs' in (c :: ds, rest)
      else ([], cs)
  | [] => ([], [])
  end.

(** The UTF-8 bytes of a code unit. *)
Definition utf8_of_unit (u : Z) : list ascii :=
  if u <? 128 then [fromCharCode u]
  else if u <? 2048 then
    [fromCharCode (192 + u / 64); fromCharCode (128 + u mod 64)]
  else
    [fromCharCode (224 + u / 4096); fromCharCode (128 + (u / 64) mod 64);
     fromCharCode (128 + u mod 64)].

(** The characters of a string literal after its opening quote. *)
Fixpoint parse_string_body (cs : list ascii) (acc : list ascii)
  : option (string * list ascii) :=
  match cs with
  | [] => None
  | c :: cs' =>
      let n := charCode c in
      if n =? 34 then Some (str (rev acc), cs')
      else if n <? 32 then None
      else if n =? 92 then
        match cs' with
        | e :: cs'' =>
            let k := charCode e in
            if k =? 34 then parse_string_body cs'' (quote :: acc)
            else if k =? 92 then parse_string_body cs'' (backslash :: acc)
            else if k =? 47 then parse_string_body cs'' (e :: acc)
            else if k =? 98 then parse_string_body cs'' (fromCharCode 8 :: acc)
            else if k =? 102 then parse_string_body cs'' (fromCharCode 12 :: acc)
            else if k =? 110 then parse_string_body cs'' (fromCharCode 10 :: acc)
            else if k =? 114 then parse_string_body cs'' (fromCharCode 13 :: acc)
            else if k =? 116 then parse_string_body cs'' (fromCharCode 9 :: acc)
            else if k =? 117 then
              match cs'' with
              | a :: b :: c' :: d :: cs3 =>
                  match hex_value a, hex_value b, hex_value c', hex_value d with
                  | Some x, Some y, Some z, Some w =>
                      parse_string_body cs3
                        (rev (utf8_of_unit (((x * 16 + y) * 16 + z) * 16 + w)) ++ acc)
                  | _, _, _, _ => None
                  end
              | _ => None
              end
            else None
        | [] => None
        end
      else parse_string_body cs' (c :: acc)
  end.

(** A number: an optional minus sign; a zero, or a digit from 1 to 9 and
    any digits; optionally a point and digits; optionally an exponent
    mark, a sign and digits. *)
Definition parse_number (cs : list ascii) : option (string * list ascii) :=
  let '(sign, cs) :=
    match cs with
    | c :: cs' => if charCode c =? 45 then ([c], cs') else ([], cs)
    | [] => ([], [])
    end in
  let '(int, cs) := span_digits cs in
  match int with
  | [] => None
  | d :: ds =>
      if (charCode d =? 48) && negb (bool_decide (ds = [])) then None
      else
        let frac :=
          match cs with
          | c :: cs' =>
              if charCode c =? 46 then
                let '(fs, rest) := span_digits cs' in
                match fs with [] => None | _ => Some (c :: fs, rest) end
              else Some ([], cs)
          | [] => Some ([], [])
          end in
        match frac with
        | None => None
        | Some (fr, cs) =>
            let expo :=
              match cs with
              | c :: cs' =>
                  if (charCode c =? 101) || (charCode c =? 69) then
                    let '(sg, cs'') :=
                      match cs' with
                      | s :: t =>
                          if (charCode s =? 43) || (charCode s =? 45)
                          then ([s], t) else ([], cs')
                      | [] => ([], [])
                      end in
                    let '(es, rest) := span_digits cs'' in
                    match es with [] => None | _ => Some (c :: sg ++ es, rest) end
                  else Some ([], cs)
              | [] => Some ([], [])
              end in
            match expo with
            | None => None
            | Some (ex, cs) => Some (str (sign ++ int ++ fr ++ ex), cs)
            end
        end
  end.

(** [cs] starts with the characters of [word]. *)
Fixpoint strip_prefix (word cs : list ascii) : option (list ascii) :=
  match word, cs with
  | [], _ => Some cs
  | w :: word, c :: cs => if Ascii.eqb w c then strip_prefix word cs else None
  | _ :: _, [] => None
  end.

(** Setting a member of an object under construction: a repeated key
    keeps its place and takes the later value. *)
Fixpoint set_member (k : string) (v : json) (ms : list (string * json))
  : list (string * json) :=
  match ms with
  | [] => [(k, v)]
  | (k', v') :: ms =>
      if String.eqb k k' then (k, v) :: ms else (k', v') :: set_member k v ms
  end.

Fixpoint parse_value (fuel : nat) (cs : list ascii)
  : parse_error + (json * list ascii) :=
  match fuel with
  | O => inl OutOfFuel
  | S fuel =>
      match skip_ws cs with
      | [] => inl Syntax
      | c :: rest =>
          let n := charCode c in
          if n =? 123 then
            match skip_ws rest with
            | d :: rest' =>
                if charCode d =? 125 then inr (JObject [], rest')
                else parse_members fuel (d :: rest') []
            | [] => inl Syntax
            end
          else if n =? 91 then
            match skip_ws rest with
            | d :: rest' =>
                if charCode d =? 93 then inr (JArray [], rest')
                else parse_elements fuel (d :: rest') []
            | [] => inl Syntax
            end
          else if n =? 34 then
            match parse_string_body rest [] with
            | Some (s, rest') => inr (JString s, rest')
            | None => inl Syntax
            end
          else if n =? 116 then
            match strip_prefix (chars "true") (c :: rest) with
            | Some rest' => inr (JBool true, rest')
            | None => inl Syntax
            end
          else if n =? 102 then
            match strip_prefix (chars "false") (c :: rest) with
            | Some rest' => inr (JBool false, rest')
            | None => inl Syntax
            end
          else if n =? 110 then
            match strip_prefix (chars "null") (c :: rest) with
            | Some rest' => inr (JNull, rest')
            | None => inl Syntax
            end
          else
            match parse_number (c :: rest) with
            | Some (lexeme, rest') => inr (JNumber lexeme, rest')
            | None => inl Syntax
            end
      end
  end
with parse_elements (fuel : nat) (cs : list ascii) (acc : list json)
  : parse_error + (json * list ascii) :=
  match fuel with
  | O => inl OutOfFuel
  | S fuel =>
      match parse_value fuel cs with
      | inl e => inl e
      | inr (v, rest) =>
          match skip_ws rest with
          | c :: rest' =>
              if charCode c =? 44 then parse_elements fuel rest' (acc ++ [v])
              else if charCode c =? 93 then inr (JArray (acc ++ [v]), rest')
              else inl Syntax
          | [] => inl Syntax
          end
      end
  end
with parse_members (fuel : nat) (cs : list ascii) (acc : list (string * json))
  : parse_error + (json * list ascii) :=
  match fuel with
  | O => inl OutOfFuel
  | S fuel =>
      match skip_ws cs with
      | q :: rest =>
          if charCode q =? 34 then
            match parse_string_body rest [] with
            | None => inl Syntax
            | Some (k, rest) =>
                match skip_ws rest with
                | c :: rest =>
                    if charCode c =? 58 then
                      match parse_value fuel rest with
                      | inl e => inl e
                      | inr (v, rest) =>
                          match skip_ws rest with
                          | d :: rest' =>
                              if charCode d =? 44
                              then parse_members fuel rest' (set_member k v acc)
                              else if charCode d =? 125
                              then inr (JObject (set_member k v acc), rest')
                              else inl Syntax
                          | [] => inl Syntax
                          end
                      end
                    else inl Syntax
                | [] => inl Syntax
                end
            end
          else inl Syntax
      | [] => inl Syntax
      end
  end.

Definition JSON_parse (text : string) : result json :=
  let cs := chars text in
  match parse_value (2 * length cs + 2) cs with
  | inl Syntax => Throw SyntaxError
  | inl OutOfFuel => Throw (TypeError "JSON.parse: out of fuel")
  | inr (v, rest) =>
      match skip_ws rest with
      | [] => Ok v
      | _ :: _ => Throw SyntaxError
      end
  end.

(** Reading the property [key] of a parsed value: a [TypeError] on [null],
    the member of an object, [undefined] on everything else (the keys read
    by the client are no properties of strings, numbers or arrays). *)
Definition get_prop (v : json) (key : string) : result (option json) :=
  match v with
  | JNull => Throw (TypeError "Cannot read properties of null")
  | JObject ms => Ok (snd <$> List.find (fun kv => String.eqb (fst kv) key) ms)
  | _ => Ok None
  end.

(** [for (const key in v)] with [v[key]]: the members of an object in the
    order of the text (keys that write array indices, which are enumerated
    first, do not occur among relay addresses), the items of an array by
    index, the characters of a string by index, and nothing for anything
    else. *)
Definition enumerate (v : json) : list (string * json) :=
  match v with
  | JObject ms => ms
  | JArray items => imap (fun i x => (pretty i, x)) items
  | JString s => imap (fun i c => (pretty i, JString (String c ""))) (chars s)
  | _ => []
  end.

(** ** Queries *)

Record RelayPreference := {
  pref_url : string;
  pref_read : option json;
  pref_write : option json
}.

Record Contact := { contact_name : string; contact_publicKey : option string }.

Record ProfileInfo := {
  profile_name : option json;
  profile_picture : option json;
  profile_about : option json;
  profile_relays : option (list RelayPreference);
  profile_following : option (list Contact);
  profile_follower : option (list Contact)
}.

Definition empty_profile : ProfileInfo :=
  {| profile_name := None; profile_picture := None; profile_about := None;
     profile_relays := None; profile_following := None; profile_follower := None |}.

Section Queries.
Context `{Platform}.

(** [getProfileEvents]: from each relay, the first event of its batch when
    there is one and it verifies. *)
Definition getProfileEvents (n : Nostr) (filters : NostrFilters) : list NostrEvent :=
  foldl (fun events relay =>
           match subscribePromise relay filters with
           | ev :: _ => if isValidEvent ev then events ++ [ev] else events
           | [] => events
           end)
        [] (relayInstances n).

Definition globalFeed (n : Nostr) (sched : nat -> nat)
    (limit since : option Z) (authors : option (list (option string)))
  : result (list NostrPost) :=
  let filters :=
    {| f_ids := None; f_authors := authors; f_kinds := Some [TEXT_NOTE];
       f_e := None; f_p := None; f_since := since; f_until := None;
       f_limit := limit |} in
  let* events := collect true sched (filter_sources n filters) in
  Ok (map eventToPost events).

Definition getPosts (n : Nostr) (sched : nat -> nat) : result (list NostrPost) :=
  if negb (truthy_opt (_publicKey n)) then Throw PublicKeyRequired
  else
    let filters :=
      {| f_ids := None; f_authors := Some [_publicKey n]; f_kinds := Some [TEXT_NOTE];
         f_e := None; f_p := None; f_since := None; f_until := None;
         f_limit := None |} in
    let* events := collect true sched (filter_sources n filters) in
    Ok (map eventToPost events).

Definition getFollowerInfo (n : Nostr) (sched : nat -> nat) (publicKey : option string)
  : result (list (option string)) :=
  let filters :=
    {| f_ids := None; f_authors := None; f_kinds := Some [CONTACTS];
       f_e := None; f_p := Some [publicKey]; f_since := None; f_until := None;
       f_limit := None |} in
  let* events := collect true sched (filter_sources n filters) in
  Ok (map pubkey events).

(** The event with the greatest [created_at] above 0, the earliest of them
    in the order of arrival. *)
Definition newest (events : list NostrEvent) : option NostrEvent :=
  snd (foldl (fun '(createdAt, event) _event =>
                if createdAt <? created_at _event
                then (created_at _event, Some _event) else (createdAt, event))
             (0, None) events).

Definition getFollowingInfo (n : Nostr) (sched : nat -> nat) (publicKey : option string)
  : result (option NostrEvent) :=
  let filters :=
    {| f_ids := None; f_authors := Some [publicKey]; f_kinds := Some [CONTACTS];
       f_e := None; f_p := None; f_since := None; f_until := None;
       f_limit := None |} in
  let* events := collect true sched (filter_sources n filters) in
  Ok (newest events).

(** The loop of [getProfile] over the metadata events: an event newer than
    all before it is parsed, and its name, about and picture are taken. *)
Fixpoint profile_metadata (events : list NostrEvent) (createdAt : Z) (info : ProfileInfo)
  : result ProfileInfo :=
  match events with
  | [] => Ok info
  | event :: events =>
      if createdAt <? created_at event then
        let* data := JSON_parse (content event) in
        let* name := get_prop data "name" in
        let* about := get_prop data "about" in
        let* picture := get_prop data "picture" in
        profile_metadata events (created_at event)
          {| profile_name := name; profile_picture := picture; profile_about := about;
             profile_relays := profile_relays info;
             profile_following := profile_following info;
             profile_follower := profile_follower info |}
      else profile_metadata events createdAt info
  end.

Fixpoint relay_preferences (members : list (string * json)) : result (list RelayPreference) :=
  match members with
  | [] => Ok []
  | (key, v) :: members =>
      let* read := get_prop v "read" in
      let* write := get_prop v "write" in
      let* rest := relay_preferences members in
      Ok ({| pref_url := key; pref_read := read; pref_write := write |} :: rest)
  end.

Definition contacts_of_tags (tags : list (list string)) : list Contact :=
  omap (fun tag =>
          if is_p_tag tag
          then Some {| contact_name := ""; contact_publicKey := tag !! 1%nat |}
          else None) tags.

(** [getProfile(publicKey)].  The two merged queries each take the oracle
    of their races. *)
Definition getProfile (n : Nostr) (sched_following sched_follower : nat -> nat)
    (publicKey : option string) : result ProfileInfo :=
  let filters :=
    {| f_ids := None; f_authors := Some [publicKey]; f_kinds := Some [META_DATA];
       f_e := None; f_p := None; f_since := None; f_until := None;
       f_limit := Some 1 |} in
  let events := getProfileEvents n filters in
  let* profileInfo := profile_metadata events 0 empty_profile in
  let* followingInfo := getFollowingInfo n sched_following publicKey in
  let* profileInfo :=
    match followingInfo with
    | Some followingInfo =>
        let* relayData := JSON_parse (content followingInfo) in
        let* relays := relay_preferences (enumerate relayData) in
        Ok {| profile_name := profile_name profileInfo;
              profile_picture := profile_picture profileInfo;
              profile_about := profile_about profileInfo;
              profile_relays := Some relays;
              profile_following := Some (contacts_of_tags (tags followingInfo));
              profile_follower := profile_follower profileInfo |}
    | None => Ok profileInfo
    end in
  let* followerInfo := getFollowerInfo n sched_follower publicKey in
  Ok {| profile_name := profile_name profileInfo;
        profile_picture := profile_picture profileInfo;
        profile_about := profile_about profileInfo;
        profile_relays := profile_relays profileInfo;
        profile_following := profile_following profileInfo;
        profile_follower :=
          Some (map (fun follower =>
                       {| contact_name := ""; contact_publicKey := follower |})
                    followerInfo) |}.

Definition getMyProfile (n : Nostr) (s1 s2 : nat -> nat) : result ProfileInfo :=
  getProfile n s1 s2 (_publicKey n).


End Queries.

(** ** A stand-in platform for closed examples

    A small deterministic platform on which examples can be evaluated: a
    32-byte digest that mixes the bytes of the message, a public key that is
    a digest of the private key, and a signature over an id that is a digest
    of the id and the public key, repeated.  It stands for the real
    primitives only in examples; every general statement below holds for
    all platforms. *)
Module StandIn.

Definition mix (m : list Z) (k : nat) : Z :=
  foldl (fun acc b => acc * 33 + b) (5381 + 7 * Z.of_nat k) m mod 256.

Definition digest (m : list Z) : list Z := map (mix m) (seq 0 32).

Lemma digest_ok (m : list Z) : length (digest m) = 32%nat /\ Forall is_byte (digest m).
Proof.
  split; [reflexivity |].
  unfold digest. apply Forall_forall. intros b Hb.
  apply list_elem_of_In, in_map_iff in Hb. destruct Hb as (k & <- & _).
  unfold mix, is_byte. apply Z.mod_pos_bound. lia.
Qed.

Definition getPublicKey (sk : string) : result (list Z) :=
  match hexToBytes sk with
  | Ok bs =>
      if (length bs =? 32)%nat then Ok (digest bs)
      else Throw (CryptoError "Expected 32 bytes of private key")
  | Throw e => Throw e
  end.

Definition signature (id : string) (pk : string) : list Z :=
  let d := digest (TextEncoder_encode (id +:+ pk)) in d ++ d.

Definition sign (entropy : nat) (id : string) (sk : option string) : result (list Z) :=
  match sk with
  | None => Throw (CryptoError "Expected private key")
  | Some sk =>
      let* pk := getPublicKey sk in
      Ok (signature id (TextDecoder_decode (encode pk)))
  end.

Definition verify (sig id : string) (pk : option string) : bool :=
  match pk with
  | None => false
  | Some pk => String.eqb sig (TextDecoder_decode (encode (signature id pk)))
  end.

#[local] Instance platform : Platform :=
  {| sha256 := digest;
     sha256_digest := digest_ok;
     schnorr_getPublicKey := getPublicKey;
     schnorr_sign := sign;
     schnorr_verify := verify;
     Date_now := fun k => 1700000000000 + Z.of_nat k |}.

Definition key3 : string :=
  "0000000000000000000000000000000000000000000000000000000000000003".

Definition relay_a : Relay :=
  {| relay_name := "a"; relay_url := "wss://a.example";
     sendEvent_accepts := fun _ => true;
     subscribePromise := fun _ => [];
     events := fun _ => [] |}.

(** A client with one relay and the private key [key3]. *)
Definition client : Nostr :=
  with_relays (snd (set_privateKey key3 new_Nostr)) [relay_a].

(** A world in which the caller holds one array, at location 0. *)
Definition world_with (a : list string) : World :=
  {| ticks := 0; wire := []; arrays := {[ 0%nat := a ]} |}.

End StandIn.

(** ** Vocabulary of the statements

    Notions used to state and prove the properties below: what a client
    hands to its relays, the number written by a list of digits, the
    invariant of the merging loop and the turn it takes, told without the
    index bookkeeping. *)

(** What [n] hands to its relays when it publishes [evs] in order. *)
Definition deliveries (n : Nostr) (evs : list NostrEvent)
  : list (string * NostrEvent * bool) :=
  flat_map (fun ev =>
              map (fun r => (relay_name r, ev, sendEvent_accepts r ev))
                  (relayInstances n)) evs.

Definition reference_tags (rootReference reference : option string) : list (list string) :=
  (if truthy_opt rootReference then [["e"; template rootReference; ""; "root"]] else []) ++
  (if truthy_opt reference then [["e"; template reference; ""; "reply"]] else []).


(** The number that a list of [w]-bit digits writes, most significant
    digit first. *)
Definition val (w : Z) (l : list Z) : Z := foldl (fun acc d => acc * 2 ^ w + d) 0 l.

Definition digits (w : Z) (l : list Z) : Prop := Forall (fun d => 0 <= d < 2 ^ w) l.

(** The number held by a conversion in progress: the digits written so far,
    then the [pos] bits still in [carry]. *)
Definition held (to : Z) (st : Bech32.radix_state) : Z :=
  val to (Bech32.res st) * 2 ^ Bech32.pos st + Bech32.carry st.

Definition bits_held (to : Z) (st : Bech32.radix_state) : Z :=
  to * Z.of_nat (length (Bech32.res st)) + Bech32.pos st.

Definition radix_inv (to : Z) (st : Bech32.radix_state) : Prop :=
  0 <= Bech32.pos st < to /\
  0 <= Bech32.carry st < 2 ^ Bech32.pos st /\
  digits to (Bech32.res st).

Definition letter_fine (d : Z) : bool :=
  match Bech32.letter_of d with
  | Ok c =>
      match Bech32.digit_of c with
      | Ok d' => (d' =? d) && Ascii.eqb (lower_char c) c && negb (Ascii.eqb c "1")
      | Throw _ => false
      end
  | Throw _ => false
  end.

Definition plain_letter (c : ascii) : Prop :=
  lower_char c = c /\ Ascii.eqb c "1" = false.

(** A hex digit, in either case, as [hexToBytes] reads it. *)
Definition is_hex_digit (c : ascii) : bool :=
  match hex_value c with Some _ => true | None => false end.

Definition decoded_length_and_outcome (k : string) : result (nat * bool * bool) :=
  let* s := getNip19FromKey k in
  Ok (String.length s,
      is_ok (Bech32.decode s Bech32MaxSize),
      is_ok (getKeyFromNip19 s)).

(** The pending promises that go with the active iterators [its]: slot [k]
    polls the [k]-th iterator and carries the index [k]. *)
Definition slots_from (o : nat) (its : list nat) : list Pending :=
  imap (fun k it => {| p_iter := it; p_i := Z.of_nat (o + k) |}) its.

Definition slots (its : list nat) : list Pending := slots_from 0 its.

(** The invariant of the loop. *)
Record mux_wf (m : Mux) : Prop := {
  wf_slots : indexedPromises m = slots (relayIterators m);
  wf_nodup : NoDup (relayIterators m);
  wf_bound : Forall (fun it => (it < length (iterators m))%nat) (relayIterators m);
  wf_idle : forall it items,
      iterators m !! it = Some items -> it ∉ relayIterators m -> items = []
}.

(** What a turn does, told without the index bookkeeping: an active
    iterator [it], at some position [j], either is exhausted and leaves the
    active iterators, or gives its next item and is polled again. *)
Inductive turn_spec (unique : bool) (m : Mux) : turn -> Mux -> Prop :=
| spec_done j it :
    relayIterators m !! j = Some it ->
    iterators m !! it = Some [] ->
    turn_spec unique m (Exhausted it)
      {| iterators := iterators m;
         next_calls := next_calls m;
         relayIterators := delete j (relayIterators m);
         indexedPromises := slots (delete j (relayIterators m));
         yieldedEventIds := yieldedEventIds m |}
| spec_item j it ev rest :
    relayIterators m !! j = Some it ->
    iterators m !! it = Some (ev :: rest) ->
    turn_spec unique m
      (if to_yield unique m ev then Forwarded it ev else Dropped it ev)
      {| iterators := <[it := rest]> (iterators m);
         next_calls := alter S it (next_calls m);
         relayIterators := relayIterators m;
         indexedPromises := slots (relayIterators m);
         yieldedEventIds :=
           if to_yield unique m ev && unique
           then yieldedEventIds m ++ [id ev] else yieldedEventIds m |}.

(** A parser's result on [cs] is sound in fuel when it is not the
    out-of-fuel error and what it leaves unread is shorter than [cs]. *)
Definition fuel_ok (r : parse_error + (json * list ascii)) (cs : list ascii) : Prop :=
  match r with
  | inl OutOfFuel => False
  | inl Syntax => True
  | inr (_, rest) => (length rest < length cs)%nat
  end.

Definition cost (its : list (list NostrEvent)) (it : nat) : nat :=
  S (length (default [] (its !! it))).

Definition metadata_filters (publicKey : option string) : NostrFilters :=
  {| f_ids := None; f_authors := Some [publicKey]; f_kinds := Some [META_DATA];
     f_e := None; f_p := None; f_since := None; f_until := None;
     f_limit := Some 1 |}.

(** ** Closed examples

    Inputs on which the properties are evaluated, over the stand-in
    platform. *)

(** A thread of three items, sent by the stand-in client. *)
Definition thread_abc : result unit * World :=
  @sendThreadPost StandIn.platform StandIn.client 0 (StandIn.world_with ["a"; "b"; "c"]).

Definition other_key : string :=
  "00000000000000000000000000000000000000000000000000000000000000ff".

(** A client whose private key was set and whose public key was then set
    to another key through the public-key setter. *)
Definition client_after_publicKey : Nostr :=
  snd (set_publicKey other_key
         (snd (@set_privateKey StandIn.platform StandIn.key3 new_Nostr))).

Definition nip19_example_key : string :=
  "3bf0c63fcb93463407af97a5e5ee64fa883d107ef9e558472c4eb9aaaefa459d".

(** The same key written in uppercase. *)
Definition nip19_example_upper : string :=
  "3BF0C63FCB93463407AF97A5E5EE64FA883D107EF9E558472C4EB9AAAEFA459D".

(** A key of 931 zero bytes: its bech32 form is 1501 characters long. *)
Definition long_key : string := bytesToHex (replicate 931 0).

(** A key of 64 bytes: its bech32 form is 114 characters long, above the
    default limit of 90. *)
Definition key64 : string := bytesToHex (replicate 64 171).

Definition round_robin : nat -> nat := fun k => k.

Definition key3_public : string :=
  Eval vm_compute in
    match StandIn.getPublicKey StandIn.key3 with
    | Ok pk => TextDecoder_decode (encode pk)
    | Throw _ => ""
    end.

(** An event signed for [key3_public] under the stand-in scheme. *)
Definition signed_event (i text : string) (created : Z) (k : NostrKind) : NostrEvent :=
  {| id := i; pubkey := Some key3_public; created_at := created;
     kind := kind_code k; tags := []; content := text;
     sig := TextDecoder_decode (encode (StandIn.signature i key3_public)) |}.




(** An event with an empty signature. *)
Definition forged : NostrEvent :=
  {| id := "aa"; pubkey := Some key3_public; created_at := 1700000000;
     kind := kind_code TEXT_NOTE; tags := []; content := "forged"; sig := "" |}.

Definition relay_forging : Relay :=
  {| relay_name := "f"; relay_url := "wss://f.example";
     sendEvent_accepts := fun _ => true;
     subscribePromise := fun _ => [forged];
     events := fun _ => [forged] |}.

Definition client_forging : Nostr := with_relays StandIn.client [relay_forging].

(** ** Vocabulary of the further statements *)



(** What an optional argument of [sendPost] leaves in the post: the
    argument when it is truthy, nothing otherwise. *)
Definition kept (s : option string) : option string :=
  if truthy_opt s then s else None.

(** ** Further closed examples *)

(** A client with one relay and no private key. *)
Definition client_without_key : Nostr := with_relays new_Nostr [StandIn.relay_a].




Definition empty_world : World := {| ticks := 0; wire := []; arrays := ∅ |}.

(** A post with both references, sent by the stand-in client, and a reply
    to the post that it returns. *)
Definition post_hello : result NostrPost * World :=
  @sendPost StandIn.platform StandIn.client "hello" (Some "aa") (Some "bb") empty_world.

Definition the_post (r : result NostrPost * World) : NostrPost :=
  match fst r with
  | Ok p => p
  | Throw _ => eventToPost (event_with_id "")
  end.

Definition reply_hello : result NostrPost * World :=
  @sendReplyPost StandIn.platform StandIn.client "re" (the_post post_hello) (snd post_hello).

(** ** Vocabulary for the queries *)

(** One turn of the loop that keeps the newest event, in [getFollowingInfo]
    and in [getProfile]. *)
Definition newer (st : Z * option NostrEvent) (_event : NostrEvent)
  : Z * option NostrEvent :=
  let '(createdAt, event) := st in
  if createdAt <? created_at _event
  then (created_at _event, Some _event) else (createdAt, event).

(** The name, the about and the picture that [getProfile] reads from the
    content of a metadata event. *)
Definition metadata_of (ev : NostrEvent)
  : result (option json * option json * option json) :=
  let* data := JSON_parse (content ev) in
  let* name := get_prop data "name" in
  let* about := get_prop data "about" in
  let* picture := get_prop data "picture" in
  Ok (name, about, picture).

Definition profile_fields (info : ProfileInfo) : option json * option json * option json :=
  (profile_name info, profile_about info, profile_picture info).

Section QueryVocabulary.
Context `{Platform}.

(** What one relay contributes to [getProfileEvents]: the first event of
    its batch, when the batch is not empty and that event verifies. *)
Definition first_valid (filters : NostrFilters) (relay : Relay) : option NostrEvent :=
  match subscribePromise relay filters with
  | ev :: _ => if isValidEvent ev then Some ev else None
  | [] => None
  end.

End QueryVocabulary.

(** The filter of [globalFeed]. *)
Definition feed_filters (limit since : option Z) (authors : option (list (option string)))
  : NostrFilters :=
  {| f_ids := None; f_authors := authors; f_kinds := Some [TEXT_NOTE];
     f_e := None; f_p := None; f_since := since; f_until := None;
     f_limit := limit |}.

(** The filter of [getPosts]. *)
Definition posts_filters (publicKey : option string) : NostrFilters :=
  {| f_ids := None; f_authors := Some [publicKey]; f_kinds := Some [TEXT_NOTE];
     f_e := None; f_p := None; f_since := None; f_until := None;
     f_limit := None |}.

(** The filter of [getFollowerInfo]. *)
Definition followers_filters (publicKey : option string) : NostrFilters :=
  {| f_ids := None; f_authors := None; f_kinds := Some [CONTACTS];
     f_e := None; f_p := Some [publicKey]; f_since := None; f_until := None;
     f_limit := None |}.

(** The ids that the relays of [n] stream for a filter. *)
Definition streamed_ids (n : Nostr) (filters : NostrFilters) : list string :=
  map id (concat (filter_sources n filters)).

(** *** Relays that answer the metadata query *)

(** The text of an object with the one member [name]. *)
Definition metadata_text (name : string) : string :=
  "{" +:+ json_string "name" +:+ ":" +:+ json_string name +:+ "}".

Definition relay_metadata (name : string) (i text : string) (created : Z) : Relay :=
  {| relay_name := name; relay_url := "wss://" +:+ name +:+ ".example";
     sendEvent_accepts := fun _ => true;
     subscribePromise := fun _ => [signed_event i (metadata_text text) created META_DATA];
     events := fun _ => [] |}.

(** A client of three relays: the second answers with the newest event. *)
Definition client_profiles : Nostr :=
  with_relays StandIn.client
    [ relay_metadata "x" "01" "old" 1600000000;
      relay_metadata "y" "02" "new" 1700000000;
      relay_metadata "z" "03" "older" 1500000000 ].

Definition profile_new : ProfileInfo :=
  {| profile_name := Some (JString "new"); profile_picture := None;
     profile_about := None; profile_relays := None; profile_following := None;
     profile_follower := Some [] |}.

(** ** Vocabulary for the key codec *)

(** A string that does not hold the separator [1]. *)
Definition no_separator (s : string) : bool :=
  forallb (fun c => negb (Ascii.eqb c "1")) (chars s).

(** A character of a lowercase bech32 prefix. *)
Definition prefix_letter (c : ascii) : bool :=
  let n := charCode c in
  (33 <=? n) && (n <=? 126) && Ascii.eqb (lower_char c) c && negb (Ascii.eqb c "1").

Definition prefix_fine (p : string) : bool :=
  truthy p && forallb prefix_letter (chars p).

(** The bech32 form of a hex key under a prefix, as [getNip19FromKey]
    builds it for the prefix [npub]. *)
Definition nip19_of_key (prefix key : string) : result string :=
  let* data := hexToBytes key in
  let* words := Bech32.toWords data in
  Bech32.encode prefix words Bech32MaxSize.

(** A 32-byte key written as 64 lowercase hex digits. *)
Definition is_key (k : string) : bool :=
  (String.length k =? 64)%nat && forallb is_lower_hex (chars k).

Definition nip19_example_secret : string :=
  "67dea2ed018072d675f5415ecfaed7d2597555e202d85b3d65ea4e58d2d92ffa".

(** ** Vocabulary for the commitment *)

(** Reading back one character of a string as [JSON.stringify] writes it. *)
Definition json_unescape (cs : list ascii) : option (ascii * list ascii) :=
  match cs with
  | [] => None
  | c :: rest =>
      if Ascii.eqb c backslash then
        match rest with
        | x :: rest =>
            if Ascii.eqb x "u" then
              match rest with
              | _ :: _ :: h :: l :: rest =>
                  match hex_value h, hex_value l with
                  | Some a, Some b => Some (fromCharCode (16 * a + b), rest)
                  | _, _ => None
                  end
              | _ => None
              end
            else if Ascii.eqb x "b" then Some (fromCharCode 8, rest)
            else if Ascii.eqb x "f" then Some (fromCharCode 12, rest)
            else if Ascii.eqb x "n" then Some (fromCharCode 10, rest)
            else if Ascii.eqb x "r" then Some (fromCharCode 13, rest)
            else if Ascii.eqb x "t" then Some (fromCharCode 9, rest)
            else Some (x, rest)
        | [] => None
        end
      else Some (c, rest)
  end.

(** The characters of an array after its opening bracket, and after an
    item. *)
Fixpoint array_rest (items : list string) : list ascii :=
  match items with
  | [] => chars "]"
  | x :: items => chars "," ++ chars x ++ array_rest items
  end.

Definition array_tail (items : list string) : list ascii :=
  match items with
  | [] => chars "]"
  | x :: items => chars x ++ array_rest items
  end.

(** The fields of an event that enter its commitment. *)
Definition committed (ev : NostrEvent)
  : option string * Z * Z * list (list string) * string :=
  (pubkey ev, created_at ev, kind ev, tags ev, content ev).

(** ** Nostr.connect

    [new Relay(this)] and [relay.connect()] are code of relay.ts, which is
    absent from the sources: what they give for an endpoint, a session or
    an error, is the parameter [dial].  [connect] writes the name and the
    url of the endpoint into the session and appends the session to
    [relayInstances]; an error is caught and emitted as [relayError].
    The result of [connect] lists the errors emitted, in order. *)
Definition named (relayItem : RelayList) (relay : Relay) : Relay :=
  {| relay_name := rl_name relayItem; relay_url := rl_url relayItem;
     sendEvent_accepts := sendEvent_accepts relay;
     subscribePromise := subscribePromise relay;
     events := events relay |}.

(** One turn of [for (const relayItem of this.relayList)]. *)
Definition connect_body (dial : RelayList -> result Relay)
    (st : list exn * list Relay) (relayItem : RelayList) : list exn * list Relay :=
  match dial relayItem with
  | Ok relay => (fst st, snd st ++ [named relayItem relay])
  | Throw err => (fst st ++ [err], snd st)
  end.

Definition connect (dial : RelayList -> result Relay) (n : Nostr)
  : result (list exn) * Nostr :=
  if (length (relayList n) =? 0)%nat then (Throw NoRelay, n)
  else
    let st := foldl (connect_body dial) ([], relayInstances n) (relayList n) in
    (Ok (fst st), with_relays n (snd st)).

(** The session that an endpoint gives, and the error that it gives. *)
Definition session (dial : RelayList -> result Relay) (relayItem : RelayList)
  : option Relay :=
  match dial relayItem with
  | Ok relay => Some (named relayItem relay)
  | Throw _ => None
  end.

Definition failure (dial : RelayList -> result Relay) (relayItem : RelayList)
  : option exn :=
  match dial relayItem with
  | Ok _ => None
  | Throw err => Some err
  end.

(** [nostr.relayList.push(...)], as main.ts fills the list. *)
Definition with_relayList (n : Nostr) (l : list RelayList) : Nostr :=
  {| relayList := l; relayInstances := relayInstances n;
     _privateKey := _privateKey n; _publicKey := _publicKey n;
     debugMode := debugMode n |}.

(** Endpoints of which the second refuses the connection. *)
Definition dial_example (relayItem : RelayList) : result Relay :=
  if String.eqb (rl_url relayItem) "wss://down.example"
  then Throw (TypeError "connection refused")
  else Ok StandIn.relay_a.

Definition three_endpoints : list RelayList :=
  [ {| rl_name := "one"; rl_url := "wss://one.example" |};
    {| rl_name := "down"; rl_url := "wss://down.example" |};
    {| rl_name := "two"; rl_url := "wss://two.example" |} ].

Definition client_endpoints : Nostr := with_relayList StandIn.client three_endpoints.


(** ** main.ts: the last swaps of a mint

    [Swap], as Swap.ts declares it. *)
Inductive SwapState : Type := SwapOK | SwapUNKNOWN | SwapERROR.

Record Swap := {
  swap_id : Z;
  swap_from_id : Z;
  swap_to_id : Z;
  swap_from_url : string;
  swap_to_url : string;
  swap_amount : Z;
  swap_fee : Z;
  swap_created_at : string;
  swap_time_taken : Z;
  swap_state : SwapState;
  swap_error : option string
}.

(** [Array.prototype.sort(compare)]: the sort is stable, and places [a]
    before [b] when [compare(a, b)] is negative; a comparison that gives
    [NaN] counts as 0.  Insertion from the right is such a sort whenever
    the comparison is consistent, which is when the result of the built-in
    is determined at all. *)
Fixpoint sort_insert {A} (compare : A -> A -> Z) (x : A) (l : list A) : list A :=
  match l with
  | [] => [x]
  | y :: l' => if compare x y <=? 0 then x :: l else y :: sort_insert compare x l'
  end.

Definition Array_sort {A} (compare : A -> A -> Z) (l : list A) : list A :=
  foldr (sort_insert compare) [] l.

Section Swaps.
(** [new Date(text).getTime()]: the reading of a date is the platform's;
    [None] stands for [NaN], the time of a text that is not a date. *)
Variable Date_getTime : string -> option Z.

(** [(a, b) => new Date(b.created_at).getTime() - new Date(a.created_at).getTime()]. *)
Definition newest_first (a b : Swap) : Z :=
  match Date_getTime (swap_created_at b), Date_getTime (swap_created_at a) with
  | Some tb, Some ta => tb - ta
  | _, _ => 0
  end.

(** [swap.from_id === mintId || swap.to_id === mintId]. *)
Definition involves (mintId : Z) (swap : Swap) : bool :=
  (swap_from_id swap =? mintId) || (swap_to_id swap =? mintId).

(** [getLast10Swaps(mintId)].  [sort] sorts [allSwaps] in place: the result
    is paired with the array as the call leaves it. *)
Definition getLast10Swaps (allSwaps : list Swap) (mintId : Z) : list Swap * list Swap :=
  let allSwaps := Array_sort newest_first allSwaps in
  (take 10 (List.filter (involves mintId) allSwaps), allSwaps).

Definition swap_time (swap : Swap) : Z := default 0 (Date_getTime (swap_created_at swap)).

(** Newest first. *)
Fixpoint descending (l : list Swap) : Prop :=
  match l with
  | [] => True
  | x :: l => Forall (fun y => swap_time y <= swap_time x) l /\ descending l
  end.

End Swaps.

(** Dates read as the number of their digits: enough to order examples. *)
Definition example_time (text : string) : option Z :=
  if forallb is_digit (chars text) && truthy text
  then Some (foldl (fun acc c => acc * 10 + (charCode c - 48)) 0 (chars text))
  else None.

Definition example_swap (i from to : Z) (at_time : string) : Swap :=
  {| swap_id := i; swap_from_id := from; swap_to_id := to;
     swap_from_url := ""; swap_to_url := ""; swap_amount := 1; swap_fee := 0;
     swap_created_at := at_time; swap_time_taken := 0; swap_state := SwapOK;
     swap_error := None |}.

Definition example_swaps : list Swap :=
  [ example_swap 1 7 8 "100"; example_swap 2 8 9 "300"; example_swap 3 9 7 "200";
    example_swap 4 7 9 "400" ].

(** * Properties *)

(** ** Hex encoders *)

Lemma nibbles_of_byte (c : Z) :
  is_byte c ->
  Z.shiftr c 4 = c / 16 /\ Z.land c 15 = c mod 16 /\
  0 <= c / 16 < 16 /\ 0 <= c mod 16 < 16.
Proof.
  intros [Hlo Hhi]. repeat split.
  - rewrite Z.shiftr_div_pow2 by lia. reflexivity.
  - change 15 with (Z.ones 4). rewrite Z.land_ones by lia. reflexivity.
  - apply Z.div_pos; lia.
  - apply Z.div_lt_upper_bound; lia.
  - apply Z.mod_pos_bound; lia.
  - apply Z.mod_pos_bound; lia.
Qed.

Ltac nibble_cases d :=
  let H := fresh in
  assert (H : d = 0 \/ d = 1 \/ d = 2 \/ d = 3 \/ d = 4 \/ d = 5 \/ d = 6 \/ d = 7 \/
              d = 8 \/ d = 9 \/ d = 10 \/ d = 11 \/ d = 12 \/ d = 13 \/ d = 14 \/ d = 15)
    by lia;
  repeat (destruct H as [H | H]; [rewrite H; try reflexivity |]);
  rewrite H; try reflexivity.

Lemma hexChar_digit (d : Z) : 0 <= d < 16 -> hexChar d = Some (hex_digit d).
Proof. intros Hd. nibble_cases d. Qed.

Lemma hexTable_digit (d : Z) :
  0 <= d < 16 -> at_index hexTable d = Some (charCode (hex_digit d)).
Proof. intros Hd. nibble_cases d. Qed.

Lemma hex_digit_lower (d : Z) : 0 <= d < 16 -> is_lower_hex (hex_digit d) = true.
Proof. intros Hd. nibble_cases d. Qed.

Lemma charCode_byte (c : ascii) : charCode c mod 256 = charCode c.
Proof.
  apply Z.mod_small. unfold charCode.
  pose proof (N_ascii_bounded c). lia.
Qed.

Lemma fromCharCode_charCode (c : ascii) : fromCharCode (charCode c) = c.
Proof.
  unfold fromCharCode.
  rewrite Z.mod_small.
  - unfold charCode. rewrite N2Z.id. apply ascii_N_embedding.
  - unfold charCode. pose proof (N_ascii_bounded c). lia.
Qed.

Lemma hex_render_length (bs : list Z) :
  length (hex_render bs) = (length bs * 2)%nat.
Proof. induction bs as [| b bs IH]; simpl; [reflexivity | rewrite IH; lia]. Qed.

Lemma hex_render_snoc (bs : list Z) (b : Z) :
  hex_render (bs ++ [b]) = hex_render bs ++ [hex_digit (b / 16); hex_digit (b mod 16)].
Proof. unfold hex_render. rewrite flat_map_app. simpl. reflexivity. Qed.

Lemma hex_render_lower (bs : list Z) :
  Forall is_byte bs -> forallb is_lower_hex (hex_render bs) = true.
Proof.
  induction 1 as [| b bs Hb _ IH]; simpl; [reflexivity |].
  destruct (nibbles_of_byte b Hb) as (_ & _ & Hhi & Hlo).
  rewrite !hex_digit_lower by assumption. exact IH.
Qed.

Lemma string_app_nil_r (s : string) : s +:+ "" = s.
Proof.
  induction s as [| a s IH]; [reflexivity |].
  change (String a (s +:+ "") = String a s). now rewrite IH.
Qed.

Lemma string_app_cons (a : ascii) (s t : string) :
  String a s +:+ t = String a (s +:+ t).
Proof. reflexivity. Qed.

Lemma string_app_assoc (s t u : string) : (s +:+ t) +:+ u = s +:+ (t +:+ u).
Proof.
  induction s as [| a s IH]; [reflexivity |].
  rewrite !string_app_cons. now rewrite IH.
Qed.

(** The string loop of [hexEncode], from any accumulator. *)
Lemma hexEncode_from (buf : list Z) (acc : string) :
  Forall is_byte buf ->
  foldl hexEncode_body acc buf = acc +:+ string_of_list_ascii (hex_render buf).
Proof.
  intros Hbuf. revert acc.
  induction Hbuf as [| b bs Hb _ IH]; intros acc; simpl.
  - symmetry. apply string_app_nil_r.
  - rewrite IH. unfold hexEncode_body.
    destruct (nibbles_of_byte b Hb) as (-> & -> & Hhi & Hlo).
    rewrite !hexChar_digit by assumption. simpl.
    rewrite !string_app_assoc. reflexivity.
Qed.

(** The array loop of [encode]: after [k] turns the first [k] source bytes
    are rendered and the rest of [dst] is still zero; turns past the end of
    [src] read [undefined] and store outside [dst], changing nothing. *)
Lemma encode_turns (src : list Z) (k : nat) :
  Forall is_byte src ->
  foldl (encode_body src) (replicate (length src * 2) 0) (seq 0 k) =
  map charCode (hex_render (take k src)) ++
  replicate ((length src - k) * 2) 0.
Proof.
  intros Hsrc. induction k as [| k IH].
  - simpl. now rewrite Nat.sub_0_r.
  - rewrite seq_S, foldl_app, IH. simpl. clear IH.
    unfold encode_body.
    destruct (src !! k) as [b |] eqn:Hk.
    + assert (Hb : is_byte b).
      { rewrite Forall_forall in Hsrc. apply Hsrc.
        eapply list_elem_of_lookup_2; eassumption. }
      pose proof (lookup_lt_Some _ _ _ Hk) as Hlt.
      rewrite (take_S_r _ _ _ Hk), hex_render_snoc, map_app. simpl.
      destruct (nibbles_of_byte b Hb) as (-> & -> & Hhi & Hlo).
      rewrite !hexTable_digit by assumption.
      unfold u8_store. simpl. rewrite !charCode_byte.
      set (done := map charCode (hex_render (take k src))).
      assert (Hlen : length done = (k * 2)%nat).
      { unfold done. rewrite length_map, hex_render_length, length_take. lia. }
      replace ((length src - k) * 2)%nat with (S (S ((length src - S k) * 2))) by lia.
      simpl replicate.
      replace (k * 2 + 1)%nat with (length done + 1)%nat by lia.
      replace (k * 2)%nat with (length done + 0)%nat by lia.
      rewrite !insert_app_r. simpl. rewrite <- app_assoc. reflexivity.
    + pose proof (lookup_ge_None_1 _ _ Hk) as Hge.
      rewrite !take_ge by lia.
      replace ((length src - k) * 2)%nat with 0%nat by lia.
      replace ((length src - S k) * 2)%nat with 0%nat by lia.
      simpl. rewrite app_nil_r.
      unfold u8_store.
      rewrite !list_insert_ge; [reflexivity | |];
        rewrite ?length_insert, length_map, hex_render_length; lia.
Qed.

Lemma encode_render (src : list Z) :
  Forall is_byte src -> encode src = map charCode (hex_render src).
Proof.
  intros Hsrc. unfold encode.
  rewrite length_replicate, encode_turns by assumption.
  rewrite take_ge by lia.
  replace ((length src - length src * 2) * 2)%nat with 0%nat by lia.
  simpl. apply app_nil_r.
Qed.

Lemma string_length_of_list (l : list ascii) :
  String.length (string_of_list_ascii l) = length l.
Proof. induction l; simpl; congruence. Qed.

(** C7. For every byte array, both table-driven hex encoders ([encode] of
    encode.ts and [hexEncode] of the client) return exactly two characters
    per input byte, each a lowercase hex digit, and the output is the
    standard rendering of the bytes, high nibble first. *)
Theorem hex_encoders_exact (src : list Z) :
  Forall is_byte src ->
  (encode src = map charCode (hex_render src) /\
   length (encode src) = (2 * length src)%nat /\
   forallb is_lower_hex (map fromCharCode (encode src)) = true) /\
  (hexEncode src = string_of_list_ascii (hex_render src) /\
   String.length (hexEncode src) = (2 * length src)%nat /\
   forallb is_lower_hex (list_ascii_of_string (hexEncode src)) = true).
Proof.
  intros Hsrc.
  pose proof (encode_render src Hsrc) as He.
  assert (Hh : hexEncode src = string_of_list_ascii (hex_render src)).
  { unfold hexEncode. rewrite hexEncode_from by assumption. reflexivity. }
  split; split; try assumption.
  - rewrite He, length_map, hex_render_length. split; [lia |].
    rewrite map_map.
    rewrite (map_ext _ (fun c => c)) by (intros c; apply fromCharCode_charCode).
    rewrite map_id. now apply hex_render_lower.
  - rewrite Hh, string_length_of_list, hex_render_length. split; [lia |].
    rewrite list_ascii_of_string_of_list_ascii. now apply hex_render_lower.
Qed.

Lemma hex_encoders_exact_witness :
  Forall is_byte [0; 171; 255] /\
  encode [0; 171; 255] = map charCode (list_ascii_of_string "00abff") /\
  hexEncode [0; 171; 255] = "00abff".
Proof.
  assert (H : Forall is_byte [0; 171; 255]) by (repeat constructor; unfold is_byte; lia).
  split; [exact H |].
  destruct (hex_encoders_exact [0; 171; 255] H) as [[He _] [Hh _]].
  split; [exact He | exact Hh].
Defined.

(** ** Publication *)

Section Publication.
Context `{Platform}.

Lemma transmit_all (rs : list Relay) (ev : NostrEvent) (w : World) :
  let w' := foldl (fun w relay => transmit w relay ev) w rs in
  wire w' = wire w ++ map (fun r => (relay_name r, ev, sendEvent_accepts r ev)) rs /\
  arrays w' = arrays w /\ ticks w' = ticks w.
Proof.
  revert w. induction rs as [| r rs IH]; intros w; simpl.
  - now rewrite app_nil_r.
  - destruct (IH (transmit w r ev)) as (Hw & Ha & Ht).
    rewrite Hw, Ha, Ht. simpl. rewrite <- app_assoc. easy.
Qed.


Lemma reference_tags_eq (rootReference reference : option string) :
  (let tags := [] in
   let tags :=
     if truthy_opt rootReference
     then tags ++ [["e"; template rootReference; ""; "root"]] else tags in
   if truthy_opt reference
   then tags ++ [["e"; template reference; ""; "reply"]] else tags)
  = reference_tags rootReference reference.
Proof.
  unfold reference_tags.
  destruct (truthy_opt rootReference), (truthy_opt reference); reflexivity.
Qed.


Lemma sendPost_arrays (n : Nostr) (text : string) (rootReference reference : option string)
    (w : World) :
  arrays (snd (sendPost n text rootReference reference w)) = arrays w.
Proof.
  unfold sendPost, signId.
  match goal with |- context [schnorr_sign ?e ?i ?k] =>
    destruct (schnorr_sign e i k) as [sigbytes | err] end; [| reflexivity].
  simpl.
  match goal with |- context [foldl (fun w relay => transmit w relay ?ev) ?w0 ?rs] =>
    pose proof (transmit_all rs ev w0) as Ht end.
  cbv zeta in Ht. destruct Ht as (_ & Ha & _).
  etransitivity; [exact Ha |]. reflexivity.
Qed.

Lemma thread_loop_arrays (n : Nostr) (firstPost : NostrPost) (texts : list string) :
  forall (lastPost : option NostrPost) (i : nat) (w : World),
    arrays (snd (thread_loop n firstPost lastPost i texts w)) = arrays w.
Proof.
  induction texts as [| text texts IH]; intros lastPost i w; simpl; [reflexivity |].
  destruct (i =? 0)%nat.
  - pose proof (sendPost_arrays n text (Some (post_id firstPost)) None w) as Ha.
    destruct (sendPost n text (Some (post_id firstPost)) None w) as [[p | e] w1];
      simpl in Ha; [rewrite IH |]; exact Ha.
  - destruct lastPost as [lp |]; [| reflexivity].
    pose proof (sendPost_arrays n text (Some "") (Some (post_id lp)) w) as Ha.
    destruct (sendPost n text (Some "") (Some (post_id lp)) w) as [[p | e] w1];
      simpl in Ha; [rewrite IH |]; exact Ha.
Qed.


(** C10. [sendThreadPost] takes the first element out of the caller's
    array: with at least two elements the array is left one shorter,
    holding the elements after the first, whatever the outcome of the call;
    with fewer than two the call throws and the world, the array with it,
    is left as it was. *)
Theorem sendThreadPost_shifts_argument (n : Nostr) (posts : nat) (arr : list string)
    (w : World) :
  arrays w !! posts = Some arr ->
  ((2 <= length arr)%nat ->
     arrays (snd (sendThreadPost n posts w)) = <[posts := tail arr]> (arrays w) /\
     arrays (snd (sendThreadPost n posts w)) !! posts = Some (tail arr) /\
     length (tail arr) = (length arr - 1)%nat) /\
  ((length arr < 2)%nat ->
     sendThreadPost n posts w = (Throw ThreadTooShort, w) /\
     arrays (snd (sendThreadPost n posts w)) !! posts = Some arr).
Proof.
  intros Harr. split.
  - intros Hlen.
    assert (Hshift : arrays (snd (sendThreadPost n posts w)) = <[posts := tail arr]> (arrays w)).
    { unfold sendThreadPost, sendTextPost. rewrite Harr.
      destruct (length arr <? 2)%nat eqn:Hlt; [apply Nat.ltb_lt in Hlt; lia |].
      destruct arr as [| first rest]; [simpl in Hlen; lia |].
      pose proof (sendPost_arrays n first None None (set_array w posts rest)) as Ha.
      destruct (sendPost n first None None (set_array w posts rest)) as [[fp | e] w1];
        simpl in Ha; [| exact Ha].
      rewrite thread_loop_arrays. exact Ha. }
    split; [exact Hshift |]. split.
    + rewrite Hshift. apply lookup_insert_eq.
    + destruct arr; simpl in *; lia.
  - intros Hshort.
    assert (Hthrow : sendThreadPost n posts w = (Throw ThreadTooShort, w)).
    { unfold sendThreadPost. rewrite Harr.
      apply Nat.ltb_lt in Hshort. now rewrite Hshort. }
    split; [exact Hthrow |]. rewrite Hthrow. exact Harr.
Qed.

End Publication.



Lemma sendThreadPost_shifts_argument_witness :
  arrays (snd thread_abc) !! 0%nat = Some ["b"; "c"] /\
  @sendThreadPost StandIn.platform StandIn.client 0 (StandIn.world_with ["only one"])
  = (Throw ThreadTooShort, StandIn.world_with ["only one"]).
Proof.
  split.
  - refine (proj1 (proj2 (proj1 (@sendThreadPost_shifts_argument StandIn.platform StandIn.client 0
                     ["a"; "b"; "c"] (StandIn.world_with ["a"; "b"; "c"]) _) _))).
    + reflexivity.
    + simpl. lia.
  - refine (proj1 (proj2 (@sendThreadPost_shifts_argument StandIn.platform StandIn.client 0
                     ["only one"] (StandIn.world_with ["only one"]) _) _)).
    + reflexivity.
    + simpl. lia.
Defined.

(** ** The key pair *)

Section Keys.
Context `{Platform}.

Lemma keys_consistentb_spec (n : Nostr) : keys_consistentb n = true <-> keys_consistent n.
Proof.
  unfold keys_consistentb, keys_consistent, derived_publicKey.
  destruct (_privateKey n) as [sk |]; [| split; [intros _ sk' Hsk; discriminate | reflexivity]].
  destruct (schnorr_getPublicKey sk) as [pk | e] eqn:Hpk; split.
  - intros Hb sk' [= <-]. exists pk. split; [exact Hpk |].
    now apply bool_decide_eq_true in Hb.
  - intros Hc. destruct (Hc sk eq_refl) as (pk' & Hpk' & Hpub).
    rewrite Hpk in Hpk'. injection Hpk' as <-. now apply bool_decide_eq_true.
  - discriminate.
  - intros Hc. destruct (Hc sk eq_refl) as (pk' & Hpk' & _).
    rewrite Hpk in Hpk'. discriminate.
Qed.

(** C9 (as amended). The private-key setter takes as key its argument,
    decoded when the argument starts with [nsec].  It returns normally in
    two cases only: the key is empty, and then the client is left as it
    was; or the key is not empty and the scheme derives a public key from
    it, and then the client holds that key as private key and the derived
    key as public key, so that the key pair is consistent.  The
    public-key setter takes as key its argument, decoded when the argument
    starts with [npub]; it returns normally whenever there is such a key,
    stores it as public key and leaves the private key alone: after it the
    key pair is consistent exactly when that key is the derived public
    key. *)
Theorem key_setters_effect (value : string) (n n' : Nostr) :
  (set_privateKey value n = (Ok tt, n') <->
     exists v,
       (if String.eqb (substring0 4 value) "nsec"
        then getKeyFromNip19 value = Ok v else v = value) /\
       ((truthy v = false /\ n' = n) \/
        (truthy v = true /\
         exists pk,
           schnorr_getPublicKey v = Ok pk /\
           n' = with_publicKey (with_privateKey n (Some v))
                  (Some (TextDecoder_decode (encode pk)))))) /\
  (set_privateKey value n = (Ok tt, n') ->
     (keys_consistent n -> keys_consistent n') /\
     (n' <> n ->
      exists sk pk,
        schnorr_getPublicKey sk = Ok pk /\
        _privateKey n' = Some sk /\
        _publicKey n' = Some (TextDecoder_decode (encode pk)) /\
        keys_consistent n')) /\
  (set_publicKey value n = (Ok tt, n') <->
     exists v,
       (if String.eqb (substring0 4 value) "npub"
        then getKeyFromNip19 value = Ok v else v = value) /\
       n' = with_publicKey n (Some v)) /\
  (set_publicKey value n = (Ok tt, n') ->
     _privateKey n' = _privateKey n /\
     exists v,
       _publicKey n' = Some v /\
       (keys_consistent n' <->
        forall sk, _privateKey n = Some sk -> derived_publicKey n = Some v)).
Proof.
  assert (Hpriv : set_privateKey value n = (Ok tt, n') <->
     exists v,
       (if String.eqb (substring0 4 value) "nsec"
        then getKeyFromNip19 value = Ok v else v = value) /\
       ((truthy v = false /\ n' = n) \/
        (truthy v = true /\
         exists pk,
           schnorr_getPublicKey v = Ok pk /\
           n' = with_publicKey (with_privateKey n (Some v))
                  (Some (TextDecoder_decode (encode pk)))))).
  { unfold set_privateKey. split.
    - intros Hset.
      destruct (String.eqb (substring0 4 value) "nsec").
      + destruct (getKeyFromNip19 value) as [v | e]; [| discriminate].
        exists v. split; [reflexivity |].
        destruct (truthy v); [right | left].
        * destruct (schnorr_getPublicKey v) as [pk | e]; [| discriminate].
          injection Hset as <-. split; [reflexivity |]. exists pk. now split.
        * injection Hset as <-. now split.
      + exists value. split; [reflexivity |].
        destruct (truthy value); [right | left].
        * destruct (schnorr_getPublicKey value) as [pk | e]; [| discriminate].
          injection Hset as <-. split; [reflexivity |]. exists pk. now split.
        * injection Hset as <-. now split.
    - intros (v & Hv & Hcase).
      assert (Hnorm : (if String.eqb (substring0 4 value) "nsec"
                       then getKeyFromNip19 value else Ok value) = Ok v).
      { destruct (String.eqb (substring0 4 value) "nsec"); [exact Hv | now subst]. }
      rewrite Hnorm.
      destruct Hcase as [[-> ->] | (-> & pk & -> & ->)]; reflexivity. }
  assert (Hpub : set_publicKey value n = (Ok tt, n') <->
     exists v,
       (if String.eqb (substring0 4 value) "npub"
        then getKeyFromNip19 value = Ok v else v = value) /\
       n' = with_publicKey n (Some v)).
  { unfold set_publicKey. split.
    - intros Hset.
      destruct (String.eqb (substring0 4 value) "npub").
      + destruct (getKeyFromNip19 value) as [v | e]; [| discriminate].
        injection Hset as <-. exists v. now split.
      + injection Hset as <-. exists value. now split.
    - intros (v & Hv & ->).
      assert (Hnorm : (if String.eqb (substring0 4 value) "npub"
                       then getKeyFromNip19 value else Ok value) = Ok v).
      { destruct (String.eqb (substring0 4 value) "npub"); [exact Hv | now subst]. }
      now rewrite Hnorm. }
  split; [exact Hpriv |]. split; [| split; [exact Hpub |]].
  - intros Hset. apply Hpriv in Hset.
    destruct Hset as (v & _ & [[_ ->] | (_ & pk & Hpk & ->)]).
    + split; [tauto | intros Hne; now destruct Hne].
    + assert (Hc : keys_consistent
                     (with_publicKey (with_privateKey n (Some v))
                        (Some (TextDecoder_decode (encode pk))))).
      { intros sk [= <-]. exists pk. split; [exact Hpk | reflexivity]. }
      split; [intros _; exact Hc |]. intros _. exists v, pk. repeat split; assumption.
  - intros Hset. apply Hpub in Hset. destruct Hset as (v & _ & ->).
    split; [reflexivity |]. exists v. split; [reflexivity |].
    unfold keys_consistent, derived_publicKey. simpl.
    split.
    + intros Hc sk Hsk. rewrite Hsk. destruct (Hc sk Hsk) as (pk & -> & [= ->]).
      reflexivity.
    + intros Hd sk Hsk. specialize (Hd sk Hsk). rewrite Hsk in Hd.
      destruct (schnorr_getPublicKey sk) as [pk | e]; [| discriminate].
      exists pk. split; [reflexivity |]. now injection Hd as ->.
Qed.

End Keys.

(** After the private key [key3] is set the key pair is consistent; the
    public-key setter then stores another key, and the stored public key is
    no longer the one derived from the stored private key. *)
Lemma publicKey_setter_breaks_key_pair :
  @keys_consistentb StandIn.platform
    (snd (@set_privateKey StandIn.platform StandIn.key3 new_Nostr)) = true /\
  fst (set_publicKey other_key
         (snd (@set_privateKey StandIn.platform StandIn.key3 new_Nostr))) = Ok tt /\
  _privateKey client_after_publicKey = Some StandIn.key3 /\
  _publicKey client_after_publicKey = Some other_key /\
  @keys_consistentb StandIn.platform client_after_publicKey = false.
Proof. vm_compute. repeat split. Qed.

Lemma key_setters_effect_witness :
  (exists pk,
     StandIn.getPublicKey StandIn.key3 = Ok pk /\
     snd (@set_privateKey StandIn.platform StandIn.key3 new_Nostr)
     = with_publicKey (with_privateKey new_Nostr (Some StandIn.key3))
         (Some (TextDecoder_decode (encode pk)))) /\
  @keys_consistent StandIn.platform
    (snd (@set_privateKey StandIn.platform StandIn.key3 new_Nostr)) /\
  @set_privateKey StandIn.platform "" StandIn.client = (Ok tt, StandIn.client) /\
  client_after_publicKey
  = with_publicKey (snd (@set_privateKey StandIn.platform StandIn.key3 new_Nostr))
      (Some other_key) /\
  _privateKey client_after_publicKey = Some StandIn.key3.
Proof.
  pose proof (@key_setters_effect StandIn.platform StandIn.key3 new_Nostr
                (snd (@set_privateKey StandIn.platform StandIn.key3 new_Nostr)))
    as (Hpriv & Hcons & _).
  pose proof (@key_setters_effect StandIn.platform "" StandIn.client StandIn.client)
    as (Hempty & _).
  pose proof (@key_setters_effect StandIn.platform other_key
                (snd (@set_privateKey StandIn.platform StandIn.key3 new_Nostr))
                client_after_publicKey) as (_ & _ & Hpub & Hkeep).
  split; [| split; [| split; [| split]]].
  - destruct (proj1 Hpriv eq_refl) as (v & Hv & [[Hfalse _] | (_ & pk & Hpk & Hn')]).
    + simpl in Hv. subst v. discriminate Hfalse.
    + simpl in Hv. subst v. exists pk. split; [exact Hpk | exact Hn'].
  - apply Hcons; [reflexivity |]. intros sk Hsk. discriminate.
  - apply (proj2 Hempty). exists "". split; [reflexivity |]. left. split; reflexivity.
  - destruct (proj1 Hpub eq_refl) as (v & Hv & Hn'). simpl in Hv. subst v. exact Hn'.
  - apply Hkeep. reflexivity.
Defined.

(** ** Regrouping bits *)

Lemma pow2_pos (k : Z) : 0 <= k -> 0 < 2 ^ k.
Proof. intros Hk. apply Z.pow_pos_nonneg; lia. Qed.

Lemma foldl_val (w : Z) (l : list Z) (a : Z) :
  0 <= w ->
  foldl (fun acc d => acc * 2 ^ w + d) a l = a * 2 ^ (w * Z.of_nat (length l)) + val w l.
Proof.
  intros Hw. unfold val. revert a.
  induction l as [| d l IH] using rev_ind; intros a.
  - simpl. rewrite Z.mul_0_r. simpl. lia.
  - rewrite !foldl_app. simpl. rewrite IH.
    rewrite length_app. simpl length.
    replace (w * Z.of_nat (length l + 1)) with (w * Z.of_nat (length l) + w) by lia.
    rewrite Z.pow_add_r by lia. lia.
Qed.

Lemma val_snoc (w : Z) (l : list Z) (d : Z) : val w (l ++ [d]) = val w l * 2 ^ w + d.
Proof. unfold val. rewrite foldl_app. reflexivity. Qed.

Lemma val_cons (w : Z) (l : list Z) (d : Z) :
  0 <= w -> val w (d :: l) = d * 2 ^ (w * Z.of_nat (length l)) + val w l.
Proof.
  intros Hw. unfold val at 1. simpl. rewrite foldl_val by assumption. reflexivity.
Qed.

Lemma val_nonneg (w : Z) (l : list Z) : 0 <= w -> digits w l -> 0 <= val w l.
Proof.
  intros Hw. induction l as [| d l IH] using rev_ind; intros Hd.
  - reflexivity.
  - apply Forall_app in Hd as [Hl Hd]. rewrite Forall_singleton in Hd.
    rewrite val_snoc. specialize (IH Hl). pose proof (pow2_pos w Hw). nia.
Qed.

(** Two digit lists of one length that write the same number are equal. *)
Lemma val_inj (w : Z) (l1 : list Z) :
  0 <= w ->
  forall l2, length l1 = length l2 -> digits w l1 -> digits w l2 ->
             val w l1 = val w l2 -> l1 = l2.
Proof.
  intros Hw. pose proof (pow2_pos w Hw) as Hpow.
  induction l1 as [| d1 l1 IH] using rev_ind; intros l2 Hlen H1 H2 Hval.
  - destruct l2; [reflexivity | discriminate].
  - destruct l2 as [| d2 l2 _] using rev_ind.
    { rewrite length_app in Hlen. simpl in Hlen. lia. }
    rewrite !length_app in Hlen. simpl in Hlen.
    apply Forall_app in H1 as [H1 Hd1]. rewrite Forall_singleton in Hd1.
    apply Forall_app in H2 as [H2 Hd2]. rewrite Forall_singleton in Hd2.
    rewrite !val_snoc in Hval.
    assert (Hd : d1 = d2).
    { transitivity ((val w l1 * 2 ^ w + d1) mod 2 ^ w).
      - rewrite Z.add_comm, Z.mod_add by lia. symmetry. now apply Z.mod_small.
      - rewrite Hval, Z.add_comm, Z.mod_add by lia. now apply Z.mod_small. }
    subst d2. f_equal. apply IH; [lia | assumption | assumption | nia].
Qed.

Lemma land_mask (a k : Z) : 0 <= k -> Z.land a (2 ^ k - 1) = a mod 2 ^ k.
Proof.
  intros Hk. replace (2 ^ k - 1) with (Z.ones k) by (rewrite Z.ones_equiv; lia).
  now apply Z.land_ones.
Qed.

(** The digit that the inner loop cuts from [carry]. *)
Lemma slice_digit (to carry pos : Z) :
  0 < to -> to <= pos ->
  let d := Z.land (Z.shiftr carry (pos - to)) (2 ^ to - 1) in
  0 <= d < 2 ^ to /\
  d * 2 ^ (pos - to) + carry mod 2 ^ (pos - to) = carry mod 2 ^ pos.
Proof.
  intros Hto Hpos d. subst d.
  rewrite land_mask by lia. rewrite Z.shiftr_div_pow2 by lia.
  pose proof (pow2_pos to ltac:(lia)) as Hpt.
  pose proof (pow2_pos (pos - to) ltac:(lia)) as Hpp.
  split; [apply Z.mod_pos_bound; lia |].
  replace (2 ^ pos) with (2 ^ (pos - to) * 2 ^ to)
    by (rewrite <- Z.pow_add_r by lia; f_equal; lia).
  rewrite Z.rem_mul_r by lia. lia.
Qed.

Lemma drain_spec (fuel : nat) :
  forall (to carry pos : Z) (res : list Z),
    0 < to -> 0 <= pos -> (Z.to_nat pos <= fuel)%nat -> digits to res ->
    exists pos' res',
      Bech32.drain fuel to carry pos res = (pos', res') /\
      0 <= pos' < to /\ digits to res' /\
      to * Z.of_nat (length res') + pos' = to * Z.of_nat (length res) + pos /\
      val to res' * 2 ^ pos' + carry mod 2 ^ pos'
      = val to res * 2 ^ pos + carry mod 2 ^ pos.
Proof.
  induction fuel as [| fuel IH]; intros to carry pos res Hto Hpos Hfuel Hres.
  - exists pos, res. simpl. repeat split; try assumption; lia.
  - simpl. destruct (to <=? pos) eqn:Hle.
    + apply Z.leb_le in Hle.
      destruct (slice_digit to carry pos Hto Hle) as [Hd Hsplit].
      set (d := Z.land (Z.shiftr carry (pos - to)) (2 ^ to - 1)) in *.
      destruct (IH to carry (pos - to) (res ++ [d])) as (pos' & res' & Hrun & Hp & Hdig & Hbits & Hval);
        [lia | lia | lia | apply Forall_app; split; [assumption | now apply Forall_singleton] |].
      exists pos', res'. split; [exact Hrun |]. split; [exact Hp |]. split; [exact Hdig |].
      split.
      * rewrite Hbits, length_app. simpl length. lia.
      * rewrite Hval, val_snoc, <- Hsplit.
        replace (2 ^ pos) with (2 ^ to * 2 ^ (pos - to))
          by (rewrite <- Z.pow_add_r by lia; f_equal; lia).
        ring.
    + apply Z.leb_gt in Hle. exists pos, res. repeat split; try assumption; lia.
Qed.

Lemma lor_shiftl_add (a k n : Z) :
  0 <= k -> 0 <= n < 2 ^ k -> Z.lor (Z.shiftl a k) n = a * 2 ^ k + n.
Proof.
  intros Hk Hn. rewrite Z.shiftl_mul_pow2 by lia.
  rewrite <- Z.lxor_lor, <- Z.add_nocarry_lxor; try reflexivity.
  - apply Z.bits_inj'. intros i Hi. rewrite Z.land_spec, Z.bits_0.
    destruct (Z.lt_ge_cases i k) as [Hlt | Hge].
    + rewrite Z.mul_pow2_bits_low by lia. reflexivity.
    + replace (Z.testbit n i) with false; [apply andb_false_r |].
      symmetry. destruct (Z.eq_dec n 0) as [-> | Hn0]; [apply Z.bits_0 |].
      apply Z.bits_above_log2; [lia |].
      apply Z.log2_lt_pow2; [lia |].
      apply Z.lt_le_trans with (2 ^ k); [lia | apply Z.pow_le_mono_r; lia].
  - apply Z.bits_inj'. intros i Hi. rewrite Z.land_spec, Z.bits_0.
    destruct (Z.lt_ge_cases i k) as [Hlt | Hge].
    + rewrite Z.mul_pow2_bits_low by lia. reflexivity.
    + replace (Z.testbit n i) with false; [apply andb_false_r |].
      symmetry. destruct (Z.eq_dec n 0) as [-> | Hn0]; [apply Z.bits_0 |].
      apply Z.bits_above_log2; [lia |].
      apply Z.log2_lt_pow2; [lia |].
      apply Z.lt_le_trans with (2 ^ k); [lia | apply Z.pow_le_mono_r; lia].
Qed.

Lemma radix_step_spec (from to : Z) (st : Bech32.radix_state) (n : Z) :
  0 < from -> 0 < to -> Bech32.pos st + from <= 32 ->
  radix_inv to st -> 0 <= n < 2 ^ from ->
  exists st',
    Bech32.radix_step from to st n = Ok st' /\
    radix_inv to st' /\
    bits_held to st' = bits_held to st + from /\
    held to st' = held to st * 2 ^ from + n.
Proof.
  intros Hfrom Hto Hfit (Hpos & Hcarry & Hres) Hn.
  unfold Bech32.radix_step.
  destruct (2 ^ from <=? n) eqn:Hbig; [apply Z.leb_le in Hbig; lia |].
  destruct (32 <? Bech32.pos st + from) eqn:Hover; [apply Z.ltb_lt in Hover; lia |].
  rewrite lor_shiftl_add by lia.
  set (c := Bech32.carry st * 2 ^ from + n).
  set (p := Bech32.pos st + from).
  pose proof (pow2_pos from ltac:(lia)) as Hpf.
  pose proof (pow2_pos (Bech32.pos st) ltac:(lia)) as Hpp.
  assert (Hc : 0 <= c < 2 ^ p).
  { unfold c, p. rewrite Z.pow_add_r by lia. nia. }
  destruct (drain_spec (Z.to_nat p) to c p (Bech32.res st))
    as (pos' & res' & -> & Hp' & Hdig & Hbits & Hval); [lia | lia | lia | assumption |].
  eexists. split; [reflexivity |].
  pose proof (pow2_pos pos' ltac:(lia)) as Hpp'.
  unfold radix_inv, bits_held, held. simpl.
  rewrite land_mask by lia.
  split; [split; [assumption | split; [apply Z.mod_pos_bound; lia | assumption]] |].
  split; [unfold p in Hbits; lia |].
  rewrite Hval. rewrite (Z.mod_small c (2 ^ p)) by assumption.
  unfold c, p. rewrite Z.pow_add_r by lia. lia.
Qed.

Lemma radix_loop_spec (from to : Z) (data : list Z) :
  0 < from -> 0 < to -> to + from <= 33 -> digits from data ->
  forall st, radix_inv to st ->
    exists st',
      Bech32.radix_loop from to st data = Ok st' /\
      radix_inv to st' /\
      bits_held to st' = bits_held to st + from * Z.of_nat (length data) /\
      held to st' = held to st * 2 ^ (from * Z.of_nat (length data)) + val from data.
Proof.
  intros Hfrom Hto Hfit Hdata.
  induction Hdata as [| n data Hn _ IH]; intros st Hinv.
  - exists st. simpl. split; [reflexivity |]. split; [assumption |].
    rewrite Z.mul_0_r. simpl. unfold val. simpl. lia.
  - simpl.
    destruct (radix_step_spec from to st n) as (st1 & -> & Hinv1 & Hbits1 & Hheld1);
      [lia | lia | destruct Hinv as [? _]; lia | assumption | assumption |].
    simpl. destruct (IH st1 Hinv1) as (st' & -> & Hinv' & Hbits' & Hheld').
    exists st'. split; [reflexivity |]. split; [assumption |].
    split; [lia |].
    rewrite Hheld', Hheld1, val_cons by lia.
    replace (from * Z.of_nat (S (length data)))
      with (from + from * Z.of_nat (length data)) by lia.
    rewrite Z.pow_add_r by lia. lia.
Qed.

Lemma convertRadix2_run (data : list Z) (from to : Z) (padding : bool) :
  0 < from <= 32 -> 0 < to <= 32 -> Bech32.radix2carry from to <= 32 ->
  Bech32.convertRadix2 data from to padding =
  let* st := Bech32.radix_loop from to
               {| Bech32.carry := 0; Bech32.pos := 0; Bech32.res := [] |} data in
  let carry := Z.land (Z.shiftl (Bech32.carry st) (to - Bech32.pos st)) (2 ^ to - 1) in
  if negb padding && (from <=? Bech32.pos st) then Throw (DecodeError "Excess padding")
  else if negb padding && negb (carry =? 0) then Throw (DecodeError "Non-zero carry")
  else if padding && (0 <? Bech32.pos st) then Ok (Bech32.res st ++ [carry])
  else Ok (Bech32.res st).
Proof.
  intros Hfrom Hto Hcarry. unfold Bech32.convertRadix2.
  destruct (from <=? 0) eqn:H1; [apply Z.leb_le in H1; lia |].
  destruct (32 <? from) eqn:H2; [apply Z.ltb_lt in H2; lia |].
  destruct (to <=? 0) eqn:H3; [apply Z.leb_le in H3; lia |].
  destruct (32 <? to) eqn:H4; [apply Z.ltb_lt in H4; lia |].
  destruct (32 <? Bech32.radix2carry from to) eqn:H5; [apply Z.ltb_lt in H5; lia |].
  reflexivity.
Qed.

Lemma radix_inv_start (to : Z) :
  0 < to -> radix_inv to {| Bech32.carry := 0; Bech32.pos := 0; Bech32.res := [] |}.
Proof. intros Hto. unfold radix_inv. simpl. repeat split; try lia. constructor. Qed.

Lemma radix_loop_start (from to : Z) (data : list Z) :
  0 < from -> 0 < to -> to + from <= 33 -> digits from data ->
  exists st,
    Bech32.radix_loop from to
      {| Bech32.carry := 0; Bech32.pos := 0; Bech32.res := [] |} data = Ok st /\
    radix_inv to st /\
    to * Z.of_nat (length (Bech32.res st)) + Bech32.pos st
    = from * Z.of_nat (length data) /\
    val to (Bech32.res st) * 2 ^ Bech32.pos st + Bech32.carry st = val from data.
Proof.
  intros Hfrom Hto Hfit Hdata.
  destruct (radix_loop_spec from to data Hfrom Hto Hfit Hdata _ (radix_inv_start to Hto))
    as (st & Hrun & Hinv & Hbits & Hheld).
  exists st. split; [exact Hrun |]. split; [exact Hinv |].
  unfold bits_held, held in Hbits, Hheld. cbn [Bech32.carry Bech32.pos Bech32.res] in *.
  change (val to []) with 0 in Hheld. change (length (@nil Z)) with 0%nat in Hbits.
  split; lia.
Qed.

Lemma bytes_digits (l : list Z) : Forall is_byte l <-> digits 8 l.
Proof. unfold digits, is_byte. change (2 ^ 8) with 256. reflexivity. Qed.

(** [toWords] writes the bytes, followed by fewer than five zero bits, as
    5-bit words. *)
Lemma toWords_spec (data : list Z) :
  Forall is_byte data ->
  exists ws pad,
    Bech32.toWords data = Ok ws /\ digits 5 ws /\ 0 <= pad < 5 /\
    5 * Z.of_nat (length ws) = 8 * Z.of_nat (length data) + pad /\
    val 5 ws = val 8 data * 2 ^ pad.
Proof.
  intros Hdata. apply (proj1 (bytes_digits _)) in Hdata.
  unfold Bech32.toWords.
  rewrite convertRadix2_run by (try lia; vm_compute; discriminate).
  destruct (radix_loop_start 8 5 data ltac:(lia) ltac:(lia) ltac:(lia) Hdata)
    as (st & -> & (Hpos & Hcarry & Hres) & Hbits & Hheld).
  cbn [bind].
  cbv zeta. rewrite land_mask by lia. rewrite Z.shiftl_mul_pow2 by lia.
  change (negb true) with false. simpl andb.
  pose proof (pow2_pos (Bech32.pos st) ltac:(lia)) as Hpp.
  pose proof (pow2_pos (5 - Bech32.pos st) ltac:(lia)) as Hpq.
  assert (Hsplit : 2 ^ Bech32.pos st * 2 ^ (5 - Bech32.pos st) = 2 ^ 5).
  { rewrite <- Z.pow_add_r by lia. f_equal. lia. }
  destruct (0 <? Bech32.pos st) eqn:Hp.
  - apply Z.ltb_lt in Hp.
    assert (Hsmall : 0 <= Bech32.carry st * 2 ^ (5 - Bech32.pos st) < 2 ^ 5) by nia.
    rewrite Z.mod_small by assumption.
    exists (Bech32.res st ++ [Bech32.carry st * 2 ^ (5 - Bech32.pos st)]), (5 - Bech32.pos st).
    split; [reflexivity |]. split.
    { apply Forall_app. split; [assumption | now apply Forall_singleton]. }
    split; [lia |]. split.
    { rewrite length_app. simpl length. lia. }
    rewrite val_snoc. rewrite <- Hheld. rewrite <- Hsplit. ring.
  - apply Z.ltb_ge in Hp. assert (Hp0 : Bech32.pos st = 0) by lia.
    rewrite Hp0 in *. change (2 ^ 0) with 1 in *.
    exists (Bech32.res st), 0. split; [reflexivity |]. split; [assumption |].
    split; [lia |]. split; [lia |]. change (2 ^ 0) with 1. lia.
Qed.

(** [fromWords] gives back the bytes that [toWords] regrouped. *)
Lemma fromWords_toWords (data ws : list Z) :
  Forall is_byte data -> Bech32.toWords data = Ok ws -> Bech32.fromWords ws = Ok data.
Proof.
  intros Hdata Hws.
  destruct (toWords_spec data Hdata) as (ws' & pad & Hws' & Hdig & Hpad & Hlen & Hval).
  rewrite Hws in Hws'. injection Hws' as <-.
  apply (proj1 (bytes_digits _)) in Hdata.
  unfold Bech32.fromWords.
  rewrite convertRadix2_run by (try lia; vm_compute; discriminate).
  destruct (radix_loop_start 5 8 ws ltac:(lia) ltac:(lia) ltac:(lia) Hdig)
    as (st & -> & (Hpos & Hcarry & Hres) & Hbits & Hheld).
  cbn [bind]. cbv zeta.
  assert (Hp : Bech32.pos st = pad) by lia.
  assert (Hn : length (Bech32.res st) = length data) by lia.
  rewrite Hp in *.
  pose proof (pow2_pos pad ltac:(lia)) as Hpp.
  assert (Hc0 : Bech32.carry st = 0).
  { set (k := val 8 data - val 8 (Bech32.res st)).
    assert (Hdiv : Bech32.carry st = k * 2 ^ pad) by (unfold k; lia).
    assert (Hk : k = 0).
    { destruct (Z_lt_le_dec k 1); [destruct (Z_lt_le_dec k 0) |]; nia. }
    rewrite Hdiv, Hk. reflexivity. }
  assert (Hv : val 8 (Bech32.res st) = val 8 data) by nia.
  rewrite Hc0. rewrite Z.shiftl_0_l. simpl Z.land.
  destruct (5 <=? pad) eqn:H5; [apply Z.leb_le in H5; lia |].
  simpl. f_equal. apply (val_inj 8); [lia | assumption | assumption | assumption | assumption].
Qed.

(** ** Strings *)

Lemma chars_str (l : list ascii) : chars (str l) = l.
Proof. apply list_ascii_of_string_of_list_ascii. Qed.

Lemma str_chars (s : string) : str (chars s) = s.
Proof. apply string_of_list_ascii_of_string. Qed.

Lemma chars_app (s t : string) : chars (s +:+ t) = chars s ++ chars t.
Proof.
  induction s as [| a s IH]; [reflexivity |].
  rewrite string_app_cons. simpl. now rewrite <- IH.
Qed.

Lemma str_app (l m : list ascii) : str (l ++ m) = str l +:+ str m.
Proof.
  rewrite <- (str_chars (str l +:+ str m)), chars_app, !chars_str. reflexivity.
Qed.

Lemma length_chars (s : string) : length (chars s) = String.length s.
Proof. induction s as [| a s IH]; simpl; congruence. Qed.

Lemma lastIndexOf_absent (c : ascii) (cs : list ascii) :
  Forall (fun d => Ascii.eqb d c = false) cs ->
  forall i found, lastIndexOf_chars c cs i found = found.
Proof.
  induction 1 as [| d cs Hd _ IH]; intros i found; simpl; [reflexivity |].
  rewrite Hd. apply IH.
Qed.

Lemma lastIndexOf_last (c : ascii) (pre post : list ascii) :
  Forall (fun d => Ascii.eqb d c = false) post ->
  forall i found,
    lastIndexOf_chars c (pre ++ c :: post) i found = Some (i + length pre)%nat.
Proof.
  intros Hpost. induction pre as [| d pre IH]; intros i found; simpl.
  - rewrite Ascii.eqb_refl, lastIndexOf_absent by assumption. f_equal. lia.
  - rewrite IH. f_equal. lia.
Qed.

Lemma split_chars_absent (sep : ascii) (cs : list ascii) :
  Forall (fun d => Ascii.eqb d sep = false) cs ->
  forall cur, split_chars sep cur cs = [str (rev cur ++ cs)].
Proof.
  induction 1 as [| d cs Hd _ IH]; intros cur; simpl.
  - now rewrite app_nil_r.
  - rewrite Hd, IH. simpl. now rewrite <- app_assoc.
Qed.

Lemma split_once (sep : ascii) (pre post : list ascii) :
  Forall (fun d => Ascii.eqb d sep = false) pre ->
  Forall (fun d => Ascii.eqb d sep = false) post ->
  split sep (str (pre ++ sep :: post)) = [str pre; str post].
Proof.
  intros Hpre Hpost. unfold split. rewrite chars_str.
  assert (Hgen : forall cur,
             split_chars sep cur (pre ++ sep :: post) = [str (rev cur ++ pre); str post]).
  { induction Hpre as [| d pre Hd _ IH]; intros cur; simpl.
    - rewrite Ascii.eqb_refl, app_nil_r.
      now rewrite (split_chars_absent sep post Hpost []).
    - rewrite Hd, IH. simpl. now rewrite <- app_assoc. }
  apply (Hgen []).
Qed.

Lemma toLowerCase_fixed (l : list ascii) :
  Forall (fun c => lower_char c = c) l -> toLowerCase (str l) = str l.
Proof.
  intros Hl. unfold toLowerCase. rewrite chars_str. f_equal.
  induction Hl as [| c l Hc _ IH]; simpl; congruence.
Qed.

Lemma endsWith_suffix (l m : list ascii) : endsWith (str (l ++ m)) (str m) = true.
Proof.
  unfold endsWith. rewrite !chars_str, length_app.
  apply andb_true_intro. split.
  - apply Nat.leb_le. lia.
  - apply bool_decide_eq_true.
    replace (length l + length m - length m)%nat with (length l) by lia.
    apply drop_app_length.
Qed.

(** ** The bech32 alphabet *)

Lemma letters_fine : forallb letter_fine (map Z.of_nat (seq 0 32)) = true.
Proof. vm_compute. reflexivity. Qed.

Lemma letter_of_digit (d : Z) :
  0 <= d < 2 ^ 5 ->
  exists c,
    Bech32.letter_of d = Ok c /\ Bech32.digit_of c = Ok d /\
    lower_char c = c /\ Ascii.eqb c "1" = false.
Proof.
  change (2 ^ 5) with 32. intros Hd.
  pose proof letters_fine as Hall. rewrite forallb_forall in Hall.
  specialize (Hall d). unfold letter_fine in Hall.
  destruct (Bech32.letter_of d) as [c | e].
  - exists c. split; [reflexivity |].
    destruct (Bech32.digit_of c) as [d' | e].
    + assert (Hin : In d (map Z.of_nat (seq 0 32))).
      { apply in_map_iff. exists (Z.to_nat d). split; [lia |]. apply in_seq. lia. }
      apply Hall in Hin. apply andb_prop in Hin as [Hin H1]. apply andb_prop in Hin as [Hd' Hlow].
      apply Z.eqb_eq in Hd'. apply Ascii.eqb_eq in Hlow.
      apply negb_true_iff in H1. subst d'. repeat split; assumption.
    + exfalso. assert (Hf : false = true); [| discriminate].
      apply Hall, in_map_iff. exists (Z.to_nat d). split; [lia |]. apply in_seq. lia.
  - exfalso. assert (Hf : false = true); [| discriminate].
    apply Hall, in_map_iff. exists (Z.to_nat d). split; [lia |]. apply in_seq. lia.
Qed.

(** The letters of a list of 5-bit words: lowercase, none of them the
    separator, and decoding back to the words. *)
Lemma letters_of_words (ws : list Z) :
  digits 5 ws ->
  exists cs,
    Bech32.mapM Bech32.letter_of ws = Ok cs /\
    Bech32.mapM Bech32.digit_of cs = Ok ws /\
    length cs = length ws /\ Forall plain_letter cs.
Proof.
  induction 1 as [| d ws Hd _ IH].
  - exists []. repeat split. constructor.
  - destruct (letter_of_digit d Hd) as (c & Hc & Hdc & Hlow & Hsep).
    destruct IH as (cs & Hcs & Hback & Hlen & Hplain).
    exists (c :: cs). simpl. rewrite Hc, Hdc. simpl. rewrite Hcs, Hback. simpl.
    repeat split; [congruence |]. constructor; [split |]; assumption.
Qed.

Lemma mapM_app {A B} (f : A -> result B) (l m : list A) (l' m' : list B) :
  Bech32.mapM f l = Ok l' -> Bech32.mapM f m = Ok m' ->
  Bech32.mapM f (l ++ m) = Ok (l' ++ m').
Proof.
  revert l'. induction l as [| a l IH]; intros l' Hl Hm; simpl in *.
  - injection Hl as <-. exact Hm.
  - destruct (f a) as [b | e]; [| discriminate]. simpl in *.
    destruct (Bech32.mapM f l) as [bs | e]; [| discriminate]. simpl in *.
    injection Hl as <-. rewrite (IH bs eq_refl Hm). reflexivity.
Qed.

(** ** The bech32 checksum *)

Lemma polymod_nonneg (pre : Z) : 0 <= pre -> 0 <= Bech32.bech32Polymod pre.
Proof.
  intros Hpre. unfold Bech32.bech32Polymod.
  assert (Hstart : 0 <= Z.shiftl (Z.land pre 33554431) 5).
  { apply Z.shiftl_nonneg, Z.land_nonneg. now left. }
  revert Hstart. generalize (Z.shiftl (Z.land pre 33554431) 5).
  generalize (Z.shiftr pre 25). intros b.
  assert (Hgens : Forall (fun ig : Z * Z => 0 <= snd ig)
                    (zip [0; 1; 2; 3; 4] Bech32.POLYMOD_GENERATORS)).
  { repeat constructor; simpl; lia. }
  induction Hgens as [| [i g] l Hg _ IH]; intros chk Hchk; simpl; [assumption |].
  apply IH. destruct (Z.land (Z.shiftr b i) 1 =? 1); [| assumption].
  apply Z.lxor_nonneg. simpl in Hg. tauto.
Qed.

Lemma fold_polymod_nonneg {A} (g : A -> Z) (l : list A) (chk : Z) :
  Forall (fun a => 0 <= g a) l -> 0 <= chk ->
  0 <= foldl (fun chk a => Z.lxor (Bech32.bech32Polymod chk) (g a)) chk l.
Proof.
  intros Hl. revert chk. induction Hl as [| a l Ha _ IH]; intros chk Hchk; simpl.
  - assumption.
  - apply IH. apply Z.lxor_nonneg. pose proof (polymod_nonneg chk Hchk). tauto.
Qed.

(** Six 5-bit words out of a 30-bit number. *)
Lemma six_words (n : Z) :
  0 <= n < 2 ^ 30 ->
  exists sw, Bech32.convertRadix2 [n] 30 5 false = Ok sw /\
             length sw = 6%nat /\ digits 5 sw.
Proof.
  intros Hn. rewrite convertRadix2_run by (try lia; vm_compute; discriminate).
  simpl Bech32.radix_loop.
  destruct (radix_step_spec 30 5
              {| Bech32.carry := 0; Bech32.pos := 0; Bech32.res := [] |} n)
    as (st & -> & (Hpos & Hcarry & Hres) & Hbits & _);
    [lia | lia | simpl; lia | apply radix_inv_start; lia | assumption |].
  unfold bits_held in Hbits. simpl in Hbits. cbn [bind]. cbv zeta.
  assert (Hp : Bech32.pos st = 0) by lia.
  assert (Hlen : length (Bech32.res st) = 6%nat) by lia.
  rewrite Hp in *. change (2 ^ 0) with 1 in Hcarry.
  assert (Hc : Bech32.carry st = 0) by lia. rewrite Hc.
  exists (Bech32.res st). simpl. repeat split; assumption.
Qed.

(** The checksum of the prefix [npub] and any 5-bit words is six letters. *)
Lemma checksum_npub (ws : list Z) :
  digits 5 ws ->
  exists sw cs,
    Bech32.bechChecksum "npub" ws Bech32.ENCODING_CONST = Ok (str cs) /\
    Bech32.mapM Bech32.letter_of sw = Ok cs /\
    length sw = 6%nat /\ digits 5 sw.
Proof.
  intros Hws. unfold Bech32.bechChecksum.
  let c := eval vm_compute in (Bech32.prefix_high (chars "npub") 1) in
  change (Bech32.prefix_high (chars "npub") 1) with c.
  cbn [bind].
  match goal with |- context [Z.rem ?c (2 ^ 30)] => set (chk := c) end.
  assert (Hchk : 0 <= chk).
  { unfold chk. apply Z.lxor_nonneg. split; [intros _; unfold Bech32.ENCODING_CONST; lia |].
    intros _.
    assert (Hsix : forall (l : list nat) c, 0 <= c ->
               0 <= foldl (fun chk _ => Bech32.bech32Polymod chk) c l).
    { induction l as [| x l IH]; intros c Hc; simpl; [assumption |].
      apply IH, polymod_nonneg, Hc. }
    apply Hsix.
    apply (fold_polymod_nonneg (fun v => v)).
    { eapply Forall_impl; [exact Hws |]. simpl. intros d Hd. lia. }
    apply (fold_polymod_nonneg (fun c => Z.land (charCode c) 31)).
    { apply Forall_forall. intros c _. apply Z.land_nonneg. right. lia. }
    apply polymod_nonneg. vm_compute. discriminate. }
  rewrite Z.rem_mod_nonneg by lia.
  destruct (six_words (chk mod 2 ^ 30)) as (sw & -> & Hlen & Hdig).
  { apply Z.mod_pos_bound. lia. }
  cbn [bind]. unfold Bech32.alphabet_encode.
  destruct (letters_of_words sw Hdig) as (cs & Hcs & _ & _ & _).
  exists sw, cs. rewrite Hcs. simpl. repeat split; assumption.
Qed.

(** ** bech32 strings with the prefix [npub] *)

(** What [bech32.encode('npub', ws, limit)] returns: the prefix, the
    separator, the letters of the words and the six letters of the
    checksum. *)
Lemma encode_npub (ws : list Z) (limit : Z) :
  digits 5 ws -> 11 + Z.of_nat (length ws) <= limit ->
  exists cs sw scs,
    Bech32.encode "npub" ws limit = Ok (str (chars "npub" ++ "1"%char :: cs ++ scs)) /\
    (Bech32.mapM Bech32.digit_of cs = Ok ws /\ length cs = length ws /\
     Forall plain_letter cs) /\
    Bech32.bechChecksum "npub" ws Bech32.ENCODING_CONST = Ok (str scs) /\
    (Bech32.mapM Bech32.digit_of scs = Ok sw /\ length scs = 6%nat /\
     Forall plain_letter scs).
Proof.
  intros Hws Hlimit.
  destruct (letters_of_words ws Hws) as (cs & Hcs & Hback & Hlen & Hplain).
  destruct (checksum_npub ws Hws) as (sw & scs & Hsum & Hscs & Hlen6 & Hsw).
  destruct (letters_of_words sw Hsw) as (scs' & Hscs' & Hback' & Hlen' & Hplain').
  rewrite Hscs in Hscs'. injection Hscs' as <-.
  exists cs, sw, scs. split.
  - unfold Bech32.encode. change (String.length "npub") with 4%nat.
    destruct (limit <? Z.of_nat 4 + 7 + Z.of_nat (length ws)) eqn:Hover;
      [apply Z.ltb_lt in Hover; lia |].
    change (toLowerCase "npub") with "npub".
    unfold Bech32.alphabet_encode. rewrite Hcs. cbn [bind]. rewrite Hsum. cbn [bind].
    f_equal. rewrite <- (str_chars ("npub" +:+ "1" +:+ str cs +:+ str scs)).
    rewrite !chars_app, !chars_str. reflexivity.
  - repeat split; try assumption. congruence.
Qed.

Lemma plain_letters_lower (cs : list ascii) :
  Forall plain_letter cs -> Forall (fun c => lower_char c = c) cs.
Proof. intros H. eapply Forall_impl; [exact H |]. intros c [Hlow _]. exact Hlow. Qed.

Lemma plain_letters_no_sep (cs : list ascii) :
  Forall plain_letter cs -> Forall (fun c => Ascii.eqb c "1" = false) cs.
Proof. intros H. eapply Forall_impl; [exact H |]. intros c [_ Hsep]. exact Hsep. Qed.

(** [bech32.decode] takes such a string back to the prefix and the words,
    when the string is no longer than the limit. *)
Lemma decode_npub (ws sw : list Z) (cs scs : list ascii) (limit : Z) :
  11 + Z.of_nat (length ws) <= limit ->
  Bech32.mapM Bech32.digit_of cs = Ok ws -> length cs = length ws ->
  Forall plain_letter cs ->
  Bech32.bechChecksum "npub" ws Bech32.ENCODING_CONST = Ok (str scs) ->
  Bech32.mapM Bech32.digit_of scs = Ok sw -> length scs = 6%nat ->
  Forall plain_letter scs ->
  Bech32.decode (str (chars "npub" ++ "1"%char :: cs ++ scs)) limit = Ok ("npub", ws).
Proof.
  intros Hlimit Hcs Hlen Hplain Hsum Hscs Hlen6 Hplain6.
  set (body := cs ++ scs).
  assert (Hbody : Forall plain_letter body) by (apply Forall_app; split; assumption).
  assert (Hlenb : length body = (length ws + 6)%nat).
  { unfold body. rewrite length_app. lia. }
  set (s := str (chars "npub" ++ "1"%char :: body)).
  assert (Hchars : chars s = chars "npub" ++ "1"%char :: body) by apply chars_str.
  assert (Hslen : String.length s = (length ws + 11)%nat).
  { rewrite <- length_chars, Hchars, length_app. simpl. lia. }
  assert (Hlow : toLowerCase s = s).
  { apply toLowerCase_fixed. apply Forall_app. split; [repeat constructor |].
    constructor; [reflexivity | now apply plain_letters_lower]. }
  unfold Bech32.decode. rewrite Hslen.
  destruct (Z.of_nat (length ws + 11) <? 8) eqn:H8; [apply Z.ltb_lt in H8; lia |].
  destruct (limit <? Z.of_nat (length ws + 11)) eqn:Hl; [apply Z.ltb_lt in Hl; lia |].
  simpl orb. cbv iota. rewrite Hlow.
  rewrite String.eqb_refl. simpl andb. cbv iota.
  unfold lastIndexOf. rewrite Hchars.
  rewrite lastIndexOf_last by now apply plain_letters_no_sep.
  simpl length. simpl Nat.add. cbv iota beta.
  change (take 4 (chars "npub" ++ "1"%char :: body)) with (chars "npub").
  change (drop 5 (chars "npub" ++ "1"%char :: body)) with body.
  rewrite <- length_chars, chars_str, Hlenb.
  destruct (length ws + 6 <? 6)%nat eqn:H6; [apply Nat.ltb_lt in H6; lia |].
  unfold Bech32.alphabet_decode. rewrite chars_str.
  unfold body. rewrite (mapM_app _ _ _ _ _ Hcs Hscs). cbn [bind].
  assert (Hsw : length sw = 6%nat).
  { clear - Hscs Hlen6. revert sw Hscs Hlen6.
    generalize 6%nat. induction scs as [| c scs IH]; intros k sw Hscs Hk; simpl in *.
    - injection Hscs as <-. exact Hk.
    - destruct (Bech32.digit_of c); [| discriminate]. simpl in Hscs.
      destruct (Bech32.mapM Bech32.digit_of scs) as [l |] eqn:Hl; [| discriminate].
      injection Hscs as <-. simpl. destruct k; [discriminate |].
      f_equal. apply (IH k l eq_refl). lia. }
  rewrite length_app, Hsw.
  replace (length ws + 6 - 6)%nat with (length ws) by lia.
  rewrite take_app_length. change (str (chars "npub")) with "npub".
  rewrite Hsum. cbn [bind]. rewrite endsWith_suffix. reflexivity.
Qed.

(** ** Hex strings *)

Lemma hex_value_digit (d : Z) : 0 <= d < 16 -> hex_value (hex_digit d) = Some d.
Proof. intros Hd. nibble_cases d. Qed.

Lemma hexToBytes_render (data : list Z) :
  Forall is_byte data -> hexToBytes (bytesToHex data) = Ok data.
Proof.
  intros Hdata. unfold hexToBytes, bytesToHex. rewrite chars_str.
  induction Hdata as [| b data Hb _ IH]; [reflexivity |].
  simpl. destruct (nibbles_of_byte b Hb) as (_ & _ & Hhi & Hlo).
  rewrite !hex_value_digit by assumption. rewrite IH. simpl.
  f_equal. f_equal. pose proof (Z.div_mod b 16). lia.
Qed.

Lemma lower_hex_digit (c : ascii) :
  is_lower_hex c = true -> exists d, 0 <= d < 16 /\ c = hex_digit d.
Proof.
  intros Hc. exists (match hex_value c with Some d => d | None => 0 end).
  unfold is_lower_hex in Hc. rewrite <- (fromCharCode_charCode c).
  unfold hex_value.
  assert (Hn : 0 <= charCode c < 256).
  { unfold charCode. pose proof (N_ascii_bounded c). lia. }
  revert Hc. generalize (charCode c) as n. intros n Hc.
  assert (Hcases : n = 48 \/ n = 49 \/ n = 50 \/ n = 51 \/ n = 52 \/ n = 53 \/ n = 54 \/
                   n = 55 \/ n = 56 \/ n = 57 \/ n = 97 \/ n = 98 \/ n = 99 \/ n = 100 \/
                   n = 101 \/ n = 102) by lia.
  repeat (destruct Hcases as [-> | Hcases]; [vm_compute; repeat split; congruence |]).
  subst n. vm_compute. repeat split; congruence.
Qed.

(** A string of lowercase hex digits of even length is the rendering of
    its bytes. *)
Lemma lower_hex_bytes (n : nat) :
  forall cs : list ascii,
    length cs = (2 * n)%nat -> forallb is_lower_hex cs = true ->
    exists data, Forall is_byte data /\ length data = n /\ hex_render data = cs.
Proof.
  induction n as [| n IH]; intros cs Hlen Hhex.
  - destruct cs; [| discriminate]. exists []. repeat split. constructor.
  - destruct cs as [| h [| l cs]]; try (simpl in Hlen; lia).
    simpl in Hhex. apply andb_prop in Hhex as [Hh Hhex]. apply andb_prop in Hhex as [Hl Hhex].
    destruct (IH cs) as (data & Hbytes & Hn & Hrender); [simpl in Hlen; lia | assumption |].
    destruct (lower_hex_digit h Hh) as (x & Hx & ->).
    destruct (lower_hex_digit l Hl) as (y & Hy & ->).
    exists (x * 16 + y :: data). split; [| split].
    + constructor; [unfold is_byte; lia | assumption].
    + simpl. congruence.
    + simpl. rewrite Hrender.
      replace ((x * 16 + y) / 16) with x by (apply Z.div_unique with y; lia).
      replace ((x * 16 + y) mod 16) with y by (apply Z.mod_unique with x; lia).
      reflexivity.
Qed.

(** ** The key codec of the client *)

(** Encoding then decoding a key of [data] bytes, for as many bytes as the
    decoder's length limit lets through. *)
Lemma nip19_roundtrip_bytes (data : list Z) :
  Forall is_byte data -> 8 * Z.of_nat (length data) <= 7440 ->
  exists s,
    getNip19FromKey (bytesToHex data) = Ok s /\
    getKeyFromNip19 s = Ok (bytesToHex data).
Proof.
  intros Hdata Hshort.
  destruct (toWords_spec data Hdata) as (ws & pad & Hws & Hdig & Hpad & Hlen & _).
  destruct (encode_npub ws Bech32MaxSize Hdig)
    as (cs & sw & scs & Henc & (Hcs & Hlcs & Hplain) & Hsum & (Hscs & Hl6 & Hplain6)).
  { unfold Bech32MaxSize. lia. }
  exists (str (chars "npub" ++ "1"%char :: cs ++ scs)). split.
  - unfold getNip19FromKey. rewrite hexToBytes_render by assumption. cbn [bind].
    rewrite Hws. cbn [bind]. exact Henc.
  - unfold getKeyFromNip19.
    rewrite (split_once "1" (chars "npub") (cs ++ scs)).
    + simpl lookup. unfold template. simpl default.
      replace ("npub" +:+ "1" +:+ str (cs ++ scs))
        with (str (chars "npub" ++ "1"%char :: cs ++ scs)) by reflexivity.
      rewrite (decode_npub ws sw cs scs 1500) by (assumption || lia).
      cbn [bind snd]. rewrite (fromWords_toWords data ws Hdata Hws). reflexivity.
    + repeat constructor.
    + apply plain_letters_no_sep, Forall_app. split; assumption.
Qed.

Lemma hex_value_lower (c : ascii) (d : Z) :
  hex_value c = Some d -> 0 <= d < 16 /\ hex_digit d = lower_char c.
Proof.
  destruct c as [[] [] [] [] [] [] [] []]; intros Hc; vm_compute in Hc;
    try discriminate; injection Hc as <-; (split; [lia | reflexivity]).
Qed.

Lemma lower_hex_fixed (c : ascii) : is_lower_hex c = true -> lower_char c = c.
Proof.
  destruct c as [[] [] [] [] [] [] [] []]; intros Hc; try reflexivity;
    vm_compute in Hc; discriminate.
Qed.

(** A string of hex digits of even length, in either case, is read as
    bytes whose rendering is the string in lowercase. *)
Lemma hex_bytes (n : nat) :
  forall cs : list ascii,
    length cs = (2 * n)%nat -> forallb is_hex_digit cs = true ->
    exists data,
      Forall is_byte data /\ length data = n /\
      hexToBytes_chars cs = Ok data /\ hex_render data = map lower_char cs.
Proof.
  induction n as [| n IH]; intros cs Hlen Hhex.
  - destruct cs; [| discriminate]. exists []. repeat split. constructor.
  - destruct cs as [| h [| l cs]]; try (simpl in Hlen; lia).
    simpl in Hhex. apply andb_prop in Hhex as [Hh Hhex]. apply andb_prop in Hhex as [Hl Hhex].
    destruct (IH cs) as (data & Hbytes & Hn & Hread & Hrender);
      [simpl in Hlen; lia | assumption |].
    unfold is_hex_digit in Hh, Hl.
    destruct (hex_value h) as [x |] eqn:Hx; [| discriminate].
    destruct (hex_value l) as [y |] eqn:Hy; [| discriminate].
    destruct (hex_value_lower h x Hx) as [Hxr Hxl].
    destruct (hex_value_lower l y Hy) as [Hyr Hyl].
    exists (x * 16 + y :: data). split; [| split; [| split]].
    + constructor; [unfold is_byte; lia | assumption].
    + simpl. congruence.
    + cbn [hexToBytes_chars]. rewrite Hx, Hy, Hread. reflexivity.
    + simpl. rewrite Hrender, <- Hxl, <- Hyl.
      replace ((x * 16 + y) / 16) with x by (apply Z.div_unique with y; lia).
      replace ((x * 16 + y) mod 16) with y by (apply Z.mod_unique with x; lia).
      reflexivity.
Qed.

(** C8 (as amended). For every key of 32 bytes written as 64 hex digits,
    in either case, the bech32 encoding of the key decodes to the key
    written in lowercase: to the key itself exactly when the key is
    written in lowercase, as every key of 64 lowercase hex digits is. *)
Theorem nip19_roundtrip (k : string) :
  String.length k = 64%nat ->
  forallb is_hex_digit (chars k) = true ->
  exists s,
    getNip19FromKey k = Ok s /\
    getKeyFromNip19 s = Ok (toLowerCase k) /\
    (getKeyFromNip19 s = Ok k <-> toLowerCase k = k) /\
    (forallb is_lower_hex (chars k) = true -> getKeyFromNip19 s = Ok k).
Proof.
  intros Hlen Hhex.
  destruct (hex_bytes 32 (chars k)) as (data & Hbytes & Hn & Hread & Hrender);
    [rewrite length_chars; exact Hlen | exact Hhex |].
  assert (Hlow : bytesToHex data = toLowerCase k).
  { unfold bytesToHex, toLowerCase. now rewrite Hrender. }
  destruct (nip19_roundtrip_bytes data Hbytes) as (s & Henc & Hdec); [lia |].
  assert (Hk : getNip19FromKey k = Ok s).
  { unfold getNip19FromKey in *. rewrite hexToBytes_render in Henc by assumption.
    unfold hexToBytes. rewrite Hread. exact Henc. }
  rewrite Hlow in Hdec.
  exists s. split; [exact Hk |]. split; [exact Hdec |]. split.
  - rewrite Hdec. split; [now intros [= ->] | now intros ->].
  - intros Hlower. rewrite Hdec. f_equal.
    rewrite <- (str_chars k) at 1. rewrite toLowerCase_fixed; [apply str_chars |].
    apply Forall_forall. intros c Hc. apply lower_hex_fixed.
    rewrite forallb_forall in Hlower. apply Hlower, list_elem_of_In, Hc.
Qed.

(** The example key written in uppercase: its bech32 form is the one of
    the lowercase key, and decodes to the lowercase key, not to the key
    that was encoded. *)
Lemma nip19_roundtrip_changes_uppercase :
  String.length nip19_example_upper = 64%nat /\
  forallb is_hex_digit (chars nip19_example_upper) = true /\
  getNip19FromKey nip19_example_upper = getNip19FromKey nip19_example_key /\
  (let* s := getNip19FromKey nip19_example_upper in getKeyFromNip19 s)
  = Ok nip19_example_key /\
  String.eqb nip19_example_key nip19_example_upper = false.
Proof. vm_compute. repeat split. Qed.

Lemma nip19_roundtrip_witness :
  exists s, getNip19FromKey nip19_example_upper = Ok s /\
            getKeyFromNip19 s = Ok nip19_example_key.
Proof.
  destruct (nip19_roundtrip nip19_example_upper) as (s & Henc & Hdec & _).
  - reflexivity.
  - reflexivity.
  - exists s. split; [exact Henc | exact Hdec].
Defined.

(** The bech32 form of the example key. *)
Example nip19_example_encoding :
  getNip19FromKey nip19_example_key
  = Ok "npub180cvv07tjdrrgpa0j7j7tmnyl2yr6yr7l8j4s3evf6u64th6gkwsyjh6w6".
Proof. vm_compute. reflexivity. Qed.

(** C6 (where the code departs from the claim). The encoder, with its limit
    of 5000 characters, produces a well-formed bech32 string of 1501
    characters; [bech32.decode] takes it under that same limit; the
    client's decoder, which passes the limit 1500, refuses it.  A string
    of 114 characters, above the default limit of 90, is decoded. *)
Theorem decoder_limit_is_1500 :
  decoded_length_and_outcome long_key = Ok (1501%nat, true, false) /\
  (let* s := getNip19FromKey long_key in getKeyFromNip19 s)
  = Throw (TypeError "Wrong string length") /\
  decoded_length_and_outcome key64 = Ok (114%nat, true, true) /\
  (let* s := getNip19FromKey key64 in getKeyFromNip19 s) = Ok key64.
Proof. vm_compute. repeat split. Qed.

(** ** The multiplexer *)

Lemma slots_from_cons (o it : nat) (its : list nat) :
  slots_from o (it :: its)
  = {| p_iter := it; p_i := Z.of_nat o |} :: slots_from (S o) its.
Proof.
  unfold slots_from. simpl. rewrite Nat.add_0_r. f_equal.
  apply imap_ext. intros k x _. simpl. do 2 f_equal. lia.
Qed.

Lemma slots_from_lookup (o : nat) (its : list nat) (k : nat) :
  slots_from o its !! k
  = (fun it => {| p_iter := it; p_i := Z.of_nat (o + k) |}) <$> its !! k.
Proof. unfold slots_from. apply list_lookup_imap. Qed.

Lemma slots_from_length (o : nat) (its : list nat) :
  length (slots_from o its) = length its.
Proof. apply length_imap. Qed.

Lemma lower_slots (o : nat) (its : list nat) :
  map (fun p => {| p_iter := p_iter p; p_i := p_i p - 1 |}) (slots_from (S o) its)
  = slots_from o its.
Proof.
  unfold slots_from. change (@map Pending Pending) with (@fmap list _ Pending Pending).
  rewrite fmap_imap. apply imap_ext. intros k x _. simpl. f_equal. lia.
Qed.

(** Removing slot [j] and lowering the indices after it gives the slots of
    the iterators without the [j]-th. *)
Lemma lower_from_delete (its : list nat) :
  forall o j, lower_from j (delete j (slots_from o its)) = slots_from o (delete j its).
Proof.
  induction its as [| it its IH]; intros o j.
  - destruct j; reflexivity.
  - rewrite slots_from_cons. destruct j as [| j]; simpl.
    + unfold lower_from. simpl. rewrite drop_0. apply lower_slots.
    + rewrite slots_from_cons. unfold lower_from in *. simpl. f_equal. apply IH.
Qed.

Lemma slots_insert_same (its : list nat) (j it : nat) :
  its !! j = Some it ->
  <[j := {| p_iter := it; p_i := Z.of_nat j |}]> (slots its) = slots its.
Proof.
  intros Hj. apply list_insert_id. unfold slots.
  rewrite slots_from_lookup, Hj. reflexivity.
Qed.

Lemma at_index_nat {A} (l : list A) (k : nat) : at_index l (Z.of_nat k) = l !! k.
Proof.
  unfold at_index. destruct (Z.of_nat k <? 0) eqn:Hk; [apply Z.ltb_lt in Hk; lia |].
  now rewrite Nat2Z.id.
Qed.

(** From a state that satisfies the invariant, a turn neither sticks nor
    raises an error, and does what [turn_spec] tells. *)
Lemma mux_turn_spec (unique : bool) (j : nat) (m : Mux) (t : turn) (r : result Mux) :
  mux_wf m -> mux_turn unique j m = Some (t, r) ->
  exists m', r = Ok m' /\ turn_spec unique m t m'.
Proof.
  intros [Hslots Hnodup Hbound Hidle] Hturn. unfold mux_turn in Hturn.
  rewrite Hslots in Hturn. unfold slots in Hturn.
  rewrite slots_from_lookup in Hturn.
  destruct (relayIterators m !! j) as [it |] eqn:Hj; [| discriminate].
  simpl in Hturn.
  destruct (iterators m !! it) as [[| ev rest] |] eqn:Hit; [| | discriminate].
  - injection Hturn as <- <-. unfold mux_done.
    destruct (Z.of_nat j <? 0) eqn:Hneg; [apply Z.ltb_lt in Hneg; lia |].
    rewrite Nat2Z.id. eexists. split; [reflexivity |].
    rewrite Hslots. unfold slots. rewrite lower_from_delete.
    exact (spec_done unique m j it Hj Hit).
  - injection Hturn as <- <-. unfold mux_item. simpl.
    rewrite at_index_nat, Hj, Nat2Z.id. eexists. split; [reflexivity |].
    change (slots_from 0 (relayIterators m)) with (slots (relayIterators m)).
    rewrite (slots_insert_same _ _ _ Hj).
    exact (spec_item unique m j it ev rest Hj Hit).
Qed.

Lemma mux_turn_progress (unique : bool) (j : nat) (m : Mux) :
  mux_wf m -> (j < length (relayIterators m))%nat ->
  exists t m', mux_turn unique j m = Some (t, Ok m').
Proof.
  intros Hwf Hj.
  destruct (lookup_lt_is_Some_2 _ _ Hj) as [it Hit].
  assert (Hin : (it < length (iterators m))%nat).
  { pose proof (wf_bound m Hwf) as Hb. rewrite Forall_forall in Hb.
    apply Hb. eapply list_elem_of_lookup_2; eassumption. }
  destruct (lookup_lt_is_Some_2 _ _ Hin) as [items Hitems].
  assert (Hsome : exists t r, mux_turn unique j m = Some (t, r)).
  { unfold mux_turn. rewrite (wf_slots m Hwf). unfold slots.
    rewrite slots_from_lookup, Hit. simpl. rewrite Hitems.
    destruct items; eauto. }
  destruct Hsome as (t & r & Hturn).
  destruct (mux_turn_spec unique j m t r Hwf Hturn) as (m' & -> & _).
  eauto.
Qed.

Lemma turn_spec_wf (unique : bool) (m : Mux) (t : turn) (m' : Mux) :
  mux_wf m -> turn_spec unique m t m' -> mux_wf m'.
Proof.
  intros [Hslots Hnodup Hbound Hidle] Hspec.
  destruct Hspec as [j it Hj Hit | j it ev rest Hj Hit]; constructor; simpl.
  - reflexivity.
  - rewrite delete_take_drop. rewrite <- (take_drop_middle _ _ _ Hj) in Hnodup.
    apply NoDup_app in Hnodup as (H1 & H2 & H3). apply NoDup_cons in H3 as [_ H3].
    apply NoDup_app. split; [assumption |]. split; [| assumption].
    intros x Hx Hx'. apply (H2 x Hx). now right.
  - rewrite delete_take_drop. rewrite <- (take_drop_middle _ _ _ Hj) in Hbound.
    apply Forall_app in Hbound as [H1 H2]. apply Forall_cons in H2 as [_ H2].
    apply Forall_app. split; assumption.
  - intros it' items Hit' Hout.
    destruct (decide (it' = it)) as [-> | Hne]; [congruence |].
    apply (Hidle it' items Hit'). intros Hin. apply Hout.
    rewrite delete_take_drop. rewrite <- (take_drop_middle _ _ _ Hj) in Hin.
    apply elem_of_app in Hin as [Hin | Hin]; [apply elem_of_app; now left |].
    apply elem_of_cons in Hin as [-> | Hin]; [congruence | apply elem_of_app; now right].
  - reflexivity.
  - assumption.
  - rewrite length_insert. assumption.
  - intros it' items Hit' Hout.
    destruct (decide (it' = it)) as [-> | Hne].
    + exfalso. apply Hout. eapply list_elem_of_lookup_2; eassumption.
    + rewrite list_lookup_insert_ne in Hit' by congruence. eauto.
Qed.

Lemma mux_start_wf (sources : list (list NostrEvent)) : mux_wf (mux_start sources).
Proof.
  constructor; simpl.
  - unfold slots, slots_from. apply imap_ext. intros k x _. reflexivity.
  - apply NoDup_seq.
  - apply Forall_forall. intros it Hit. apply elem_of_seq in Hit. lia.
  - intros it items Hit Hout. exfalso. apply Hout, elem_of_seq.
    apply lookup_lt_Some in Hit. lia.
Qed.

Lemma mux_run_wf (unique : bool) (m : Mux) (ts : list turn) (m' : Mux) :
  mux_run unique m ts m' -> mux_wf m -> mux_wf m'.
Proof.
  induction 1 as [m | m j t m1 ts m2 _ Hturn _ IH]; intros Hwf; [assumption |].
  destruct (mux_turn_spec unique j m t _ Hwf Hturn) as (m1' & [= <-] & Hspec).
  eauto using turn_spec_wf.
Qed.

(** *** The work left goes down by one at every turn *)

Lemma work_left_cost (m : Mux) :
  work_left m = sum_list (map (cost (iterators m)) (relayIterators m)).
Proof. reflexivity. Qed.

Lemma cost_insert_ne (its : list (list NostrEvent)) (it : nat) (rest : list NostrEvent)
    (l : list nat) :
  it ∉ l -> map (cost (<[it := rest]> its)) l = map (cost its) l.
Proof.
  intros Hout. apply map_ext_in. intros x Hx. unfold cost.
  rewrite list_lookup_insert_ne; [reflexivity |].
  intros ->. apply Hout. now apply list_elem_of_In.
Qed.

Lemma sum_list_app (l k : list nat) : sum_list (l ++ k) = (sum_list l + sum_list k)%nat.
Proof. induction l as [| x l IH]; simpl; [reflexivity | rewrite IH; lia]. Qed.

Lemma sum_list_cons (x : nat) (l : list nat) : sum_list (x :: l) = (x + sum_list l)%nat.
Proof. reflexivity. Qed.

Lemma turn_spec_work (unique : bool) (m : Mux) (t : turn) (m' : Mux) :
  mux_wf m -> turn_spec unique m t m' -> work_left m = S (work_left m').
Proof.
  intros [Hslots Hnodup Hbound Hidle] Hspec. rewrite !work_left_cost.
  destruct Hspec as [j it Hj Hit | j it ev rest Hj Hit]; simpl.
  - rewrite delete_take_drop. rewrite <- (take_drop_middle _ _ _ Hj) at 1.
    assert (Hc : cost (iterators m) it = 1%nat) by (unfold cost; now rewrite Hit).
    rewrite !map_app, !sum_list_app, map_cons, sum_list_cons, Hc. lia.
  - rewrite <- (take_drop_middle _ _ _ Hj) in Hnodup |- *.
    apply NoDup_app in Hnodup as (H1 & H2 & H3). apply NoDup_cons in H3 as [H3 _].
    assert (Hc : cost (iterators m) it = S (cost (<[it := rest]> (iterators m)) it)).
    { unfold cost. rewrite Hit.
      rewrite list_lookup_insert_eq by (apply lookup_lt_Some in Hit; exact Hit).
      reflexivity. }
    rewrite !map_app, !sum_list_app, !map_cons, !sum_list_cons, Hc.
    rewrite !cost_insert_ne; [lia | assumption |].
    intros Hin. apply (H2 it Hin). now left.
Qed.

Lemma mux_run_work (unique : bool) (m : Mux) (ts : list turn) (m' : Mux) :
  mux_run unique m ts m' -> mux_wf m ->
  work_left m = (length ts + work_left m')%nat.
Proof.
  induction 1 as [m | m j t m1 ts m2 _ Hturn _ IH]; intros Hwf; [reflexivity |].
  destruct (mux_turn_spec unique j m t _ Hwf Hturn) as (m1' & [= <-] & Hspec).
  rewrite (turn_spec_work unique m t m1 Hwf Hspec).
  rewrite IH by eauto using turn_spec_wf. simpl. lia.
Qed.

Lemma work_left_start (sources : list (list NostrEvent)) :
  work_left (mux_start sources) = (length (concat sources) + length sources)%nat.
Proof.
  rewrite work_left_cost. simpl.
  assert (Hgen : forall pre,
             sum_list (map (cost (pre ++ sources)) (seq (length pre) (length sources)))
             = (length (concat sources) + length sources)%nat).
  { induction sources as [| s sources IH]; intros pre; simpl; [reflexivity |].
    unfold cost at 1. rewrite lookup_app_r by lia. rewrite Nat.sub_diag. simpl.
    specialize (IH (pre ++ [s])). rewrite length_app in IH. simpl in IH.
    rewrite <- app_assoc in IH. simpl in IH.
    replace (S (length pre)) with (length pre + 1)%nat by lia.
    unfold cost in IH. rewrite IH, length_app. lia. }
  apply (Hgen []).
Qed.

Lemma all_idle (m : Mux) :
  mux_wf m -> relayIterators m = [] ->
  Forall (fun items => items = []) (iterators m) /\ indexedPromises m = [].
Proof.
  intros Hwf Hnil. split.
  - apply Forall_lookup. intros it items Hit.
    apply (wf_idle m Hwf it items Hit). rewrite Hnil. apply not_elem_of_nil.
  - rewrite (wf_slots m Hwf), Hnil. reflexivity.
Qed.

(** *** What is yielded *)

Lemma mux_run_yields (ts : list turn) :
  forall m m',
    mux_run true m ts m' -> mux_wf m ->
    forwarded ts = first_by_id (yieldedEventIds m) (arrivals ts).
Proof.
  induction ts as [| t ts IH]; intros m m' Hrun Hwf; [reflexivity |].
  inversion Hrun as [| ? j ? m1 ? ? Hne Hturn Hrest]; subst.
  destruct (mux_turn_spec true j m t _ Hwf Hturn) as (m1' & [= <-] & Hspec).
  assert (Hwf1 : mux_wf m1) by eauto using turn_spec_wf.
  specialize (IH _ _ Hrest Hwf1).
  inversion Hspec as [j' it Hj Hit | j' it ev rest Hj Hit Hlabel]; subst.
  - simpl. exact IH.
  - unfold to_yield in *. simpl negb in *. simpl orb in *.
    simpl yieldedEventIds in IH.
    destruct (bool_decide (id ev ∈ yieldedEventIds m)) eqn:Hseen;
      simpl in IH |- *; rewrite Hseen; [exact IH | now rewrite IH].
Qed.

Lemma mux_run_plain (ts : list turn) :
  forall m m', mux_run false m ts m' -> mux_wf m -> forwarded ts = arrivals ts.
Proof.
  induction ts as [| t ts IH]; intros m m' Hrun Hwf; [reflexivity |].
  inversion Hrun as [| ? j ? m1 ? ? Hne Hturn Hrest]; subst.
  destruct (mux_turn_spec false j m t _ Hwf Hturn) as (m1' & [= <-] & Hspec).
  assert (Hwf1 : mux_wf m1) by eauto using turn_spec_wf.
  specialize (IH _ _ Hrest Hwf1).
  inversion Hspec as [j' it Hj Hit | j' it ev rest Hj Hit Hlabel]; subst; simpl.
  - exact IH.
  - now rewrite IH.
Qed.

Lemma first_by_id_ids (evs : list NostrEvent) :
  forall seen,
    NoDup (map id (first_by_id seen evs)) /\
    forall x, x ∈ map id (first_by_id seen evs) <-> x ∈ map id evs /\ x ∉ seen.
Proof.
  induction evs as [| ev evs IH]; intros seen; simpl.
  - split; [constructor |]. intros x. split; [intros H; inversion H | intros [H _]; inversion H].
  - destruct (bool_decide (id ev ∈ seen)) eqn:Hseen.
    + apply bool_decide_eq_true in Hseen. destruct (IH seen) as [Hnd Hiff].
      split; [assumption |]. intros x. rewrite Hiff, elem_of_cons.
      split; [tauto |]. intros [[-> | Hx] Hout]; [contradiction | tauto].
    + apply bool_decide_eq_false in Hseen. destruct (IH (seen ++ [id ev])) as [Hnd Hiff].
      split.
      * simpl. apply NoDup_cons. split; [| assumption].
        rewrite Hiff. intros [_ Hout]. apply Hout, elem_of_app. right. apply list_elem_of_singleton.
        reflexivity.
      * intros x. simpl. rewrite !elem_of_cons, Hiff, elem_of_app, list_elem_of_singleton.
        destruct (decide (x = id ev)) as [-> | Hne]; tauto.
Qed.

(** *** Nothing is lost and nothing is made up *)

Lemma concat_insert_tail (its : list (list NostrEvent)) (it : nat) (ev : NostrEvent)
    (rest : list NostrEvent) :
  its !! it = Some (ev :: rest) ->
  concat its ≡ₚ ev :: concat (<[it := rest]> its).
Proof.
  revert it. induction its as [| s its IH]; intros it Hit; [discriminate |].
  destruct it as [| it]; simpl in *.
  - injection Hit as ->. reflexivity.
  - rewrite (IH it Hit). rewrite Permutation_middle. reflexivity.
Qed.

Lemma mux_run_conserves (unique : bool) (m : Mux) (ts : list turn) (m' : Mux) :
  mux_run unique m ts m' -> mux_wf m ->
  arrivals ts ++ concat (iterators m') ≡ₚ concat (iterators m).
Proof.
  induction 1 as [m | m j t m1 ts m2 _ Hturn _ IH]; intros Hwf; [reflexivity |].
  destruct (mux_turn_spec unique j m t _ Hwf Hturn) as (m1' & [= <-] & Hspec).
  assert (Hwf1 : mux_wf m1) by eauto using turn_spec_wf.
  specialize (IH Hwf1).
  inversion Hspec as [j' it Hj Hit | j' it ev rest Hj Hit Hlabel]; subst; simpl in *.
  - exact IH.
  - rewrite (concat_insert_tail _ _ _ _ Hit).
    destruct (to_yield unique m ev); simpl; now rewrite IH.
Qed.

(** The items of each iterator arrive in the iterator's order. *)
Lemma mux_run_order (unique : bool) (it : nat) (m : Mux) (ts : list turn) (m' : Mux) :
  mux_run unique m ts m' -> mux_wf m ->
  forall items rest,
    iterators m !! it = Some items -> iterators m' !! it = Some rest ->
    items = arrivals_of it ts ++ rest.
Proof.
  induction 1 as [m | m j t m1 ts m2 _ Hturn _ IH]; intros Hwf items rest Hitems Hrest.
  - simpl. congruence.
  - destruct (mux_turn_spec unique j m t _ Hwf Hturn) as (m1' & [= <-] & Hspec).
    assert (Hwf1 : mux_wf m1) by eauto using turn_spec_wf.
    specialize (IH Hwf1).
    inversion Hspec as [j' it0 Hj Hit | j' it0 ev rest0 Hj Hit Hlabel]; subst.
    + change (arrivals_of it (Exhausted it0 :: ts)) with (arrivals_of it ts).
      apply IH; assumption.
    + assert (Harr : arrivals_of it
                       ((if to_yield unique m ev then Forwarded it0 ev else Dropped it0 ev)
                          :: ts)
                     = (if decide (it0 = it) then [ev] else []) ++ arrivals_of it ts).
      { unfold arrivals_of. destruct (to_yield unique m ev); simpl;
          destruct (decide (it0 = it)); reflexivity. }
      rewrite Harr. destruct (decide (it0 = it)) as [-> | Hne].
      * rewrite Hit in Hitems. injection Hitems as <-. simpl. f_equal.
        apply IH; [| assumption]. cbn [iterators].
        apply list_lookup_insert_eq. apply lookup_lt_Some in Hit. exact Hit.
      * simpl. apply IH; [| assumption]. cbn [iterators].
        rewrite list_lookup_insert_ne by assumption. assumption.
Qed.

Lemma mux_run_iterators (unique : bool) (m : Mux) (ts : list turn) (m' : Mux) :
  mux_run unique m ts m' -> mux_wf m ->
  length (iterators m') = length (iterators m).
Proof.
  induction 1 as [m | m j t m1 ts m2 _ Hturn _ IH]; intros Hwf; [reflexivity |].
  destruct (mux_turn_spec unique j m t _ Hwf Hturn) as (m1' & [= <-] & Hspec).
  rewrite IH by eauto using turn_spec_wf.
  destruct Hspec; simpl; [reflexivity | apply length_insert].
Qed.

Lemma complete_order (unique : bool) (sources : list (list NostrEvent))
    (ts : list turn) (m' : Mux) (it : nat) (items : list NostrEvent) :
  complete unique (mux_start sources) ts m' ->
  sources !! it = Some items -> arrivals_of it ts = items.
Proof.
  intros [Hrun Hend] Hit.
  pose proof (mux_run_wf unique _ ts m' Hrun (mux_start_wf sources)) as Hwf.
  destruct (all_idle m' Hwf Hend) as [Hidle _].
  pose proof (mux_run_iterators unique _ ts m' Hrun (mux_start_wf sources)) as Hlen.
  change (length (iterators (mux_start sources))) with (length sources) in Hlen.
  destruct (lookup_lt_is_Some_2 (iterators m') it) as [rest Hrest].
  { rewrite Hlen. eapply lookup_lt_Some; eassumption. }
  assert (rest = []) as ->.
  { rewrite Forall_lookup in Hidle. eapply Hidle; eassumption. }
  rewrite (mux_run_order unique it _ ts m' Hrun (mux_start_wf sources) items [] Hit Hrest).
  now rewrite app_nil_r.
Qed.

Lemma concat_idle (its : list (list NostrEvent)) :
  Forall (fun items => items = []) its -> concat its = [].
Proof. induction 1 as [| s its -> _ IH]; simpl; [reflexivity | exact IH]. Qed.

Lemma complete_arrivals (unique : bool) (sources : list (list NostrEvent))
    (ts : list turn) (m' : Mux) :
  complete unique (mux_start sources) ts m' -> arrivals ts ≡ₚ concat sources.
Proof.
  intros [Hrun Hend].
  pose proof (mux_run_conserves unique _ ts m' Hrun (mux_start_wf sources)) as Hperm.
  pose proof (mux_run_wf unique _ ts m' Hrun (mux_start_wf sources)) as Hwf.
  destruct (all_idle m' Hwf Hend) as [Hidle _].
  rewrite (concat_idle _ Hidle), app_nil_r in Hperm. exact Hperm.
Qed.

(** *** The loop driven by an oracle *)

Lemma mux_exec_run (unique : bool) (sched : nat -> nat) (fuel : nat) :
  forall k m ts m',
    mux_exec unique sched fuel k m = (ts, Ok m') -> mux_run unique m ts m'.
Proof.
  induction fuel as [| fuel IH]; intros k m ts m' Hexec; simpl in Hexec.
  - injection Hexec as <- <-. constructor.
  - destruct (relayIterators m) as [| it its] eqn:Hits.
    + injection Hexec as <- <-. constructor.
    + destruct (mux_turn unique (sched k mod length (indexedPromises m))%nat m)
        as [[t [m1 | e]] |] eqn:Hturn; try discriminate.
      destruct (mux_exec unique sched fuel (S k) m1) as [ts1 r] eqn:Hrest.
      injection Hexec as <- ->.
      eapply run_turn; [rewrite Hits; discriminate | exact Hturn | eauto].
Qed.

Lemma work_left_active (m : Mux) : relayIterators m <> [] -> (0 < work_left m)%nat.
Proof.
  rewrite work_left_cost. destruct (relayIterators m); [congruence |].
  intros _. rewrite map_cons, sum_list_cons. unfold cost at 1. lia.
Qed.

Lemma mux_exec_ends (unique : bool) (sched : nat -> nat) (fuel : nat) :
  forall k m,
    mux_wf m -> (work_left m <= fuel)%nat ->
    exists ts m', mux_exec unique sched fuel k m = (ts, Ok m') /\ relayIterators m' = [].
Proof.
  induction fuel as [| fuel IH]; intros k m Hwf Hfuel; simpl.
  - exists [], m. split; [reflexivity |].
    destruct (relayIterators m) eqn:Hits; [reflexivity |].
    assert (0 < work_left m)%nat by (apply work_left_active; rewrite Hits; discriminate).
    lia.
  - destruct (relayIterators m) as [| it its] eqn:Hits.
    + exists [], m. split; [reflexivity | assumption].
    + assert (Hlen : length (indexedPromises m) = S (length its)).
      { rewrite (wf_slots m Hwf). unfold slots. rewrite slots_from_length, Hits. reflexivity. }
      destruct (mux_turn_progress unique (sched k mod length (indexedPromises m))%nat m Hwf)
        as (t & m1 & Hturn).
      { rewrite Hits. simpl. rewrite Hlen. apply Nat.mod_upper_bound. lia. }
      rewrite Hturn.
      destruct (mux_turn_spec unique _ m t _ Hwf Hturn) as (m1' & [= <-] & Hspec).
      pose proof (turn_spec_work unique m t m1 Hwf Hspec) as Hwork.
      destruct (IH (S k) m1) as (ts & m' & -> & Hend);
        [eauto using turn_spec_wf | lia |].
      exists (t :: ts), m'. split; [reflexivity | assumption].
Qed.

(** *** The merged sequence *)

Lemma overlapping_ids :
  forall x, x ∈ map id (concat overlapping_sources) <-> x ∈ ["1"; "2"; "3"; "4"].
Proof.
  intros x. simpl. rewrite !elem_of_cons. split; intros H;
    repeat (destruct H as [H | H]; [subst; tauto |]); inversion H.
Qed.

(** C2. Whatever promise wins each race, the merged iteration runs to its
    end, and [collect] returns the merged sequence.  Under [unique] the
    merged sequence is the items in their order of arrival with every
    item dropped whose id arrived before: each id occurs at most once and
    its first arrival is the one yielded; every item of every source has
    arrived, in the order of its source, and every id of a source has
    been yielded, so that the sources with ids 1, 2, 3 and 2, 3, 4 give
    the ids 1, 2, 3, 4 once each.  Without [unique] the merged sequence is
    the arrivals themselves: it holds every item of every source, six
    items for these two sources. *)
Theorem filter_merges (sources : list (list NostrEvent)) (sched : nat -> nat) :
  (exists ts m',
     mux_exec true sched (work_left (mux_start sources)) 0 (mux_start sources)
     = (ts, Ok m') /\
     relayIterators m' = [] /\
     collect true sched sources = Ok (forwarded ts) /\
     forwarded ts = first_by_id [] (arrivals ts) /\
     NoDup (map id (forwarded ts)) /\
     arrivals ts ≡ₚ concat sources /\
     (forall it items, sources !! it = Some items -> arrivals_of it ts = items) /\
     (forall x, x ∈ map id (forwarded ts) <-> x ∈ map id (concat sources)) /\
     (sources = overlapping_sources ->
        map id (forwarded ts) ≡ₚ ["1"; "2"; "3"; "4"])) /\
  (exists ts m',
     mux_exec false sched (work_left (mux_start sources)) 0 (mux_start sources)
     = (ts, Ok m') /\
     relayIterators m' = [] /\
     collect false sched sources = Ok (forwarded ts) /\
     forwarded ts = arrivals ts /\
     forwarded ts ≡ₚ concat sources /\
     (forall it items, sources !! it = Some items -> arrivals_of it ts = items) /\
     (sources = overlapping_sources -> length (forwarded ts) = 6%nat)).
Proof.
  split.
  - destruct (mux_exec_ends true sched (work_left (mux_start sources)) 0
                (mux_start sources) (mux_start_wf sources) (le_n _))
      as (ts & m' & Hexec & Hend).
    pose proof (mux_exec_run _ _ _ _ _ _ _ Hexec) as Hrun.
    exists ts, m'. split; [exact Hexec |]. split; [exact Hend |].
    split; [unfold collect; now rewrite Hexec |].
    pose proof (mux_run_yields ts _ _ Hrun (mux_start_wf sources)) as Hy.
    simpl in Hy. destruct (first_by_id_ids (arrivals ts) []) as [Hnd Hiff].
    rewrite <- Hy in Hnd, Hiff.
    split; [exact Hy |]. split; [exact Hnd |].
    assert (Hdone : complete true (mux_start sources) ts m') by (split; assumption).
    assert (Hperm : arrivals ts ≡ₚ concat sources)
      by (apply (complete_arrivals true sources ts m'); assumption).
    assert (Hids : forall x, x ∈ map id (forwarded ts) <-> x ∈ map id (concat sources)).
    { intros x. rewrite Hiff, <- Hperm. split; [tauto |].
      intros H. split; [exact H | apply not_elem_of_nil]. }
    split; [exact Hperm |].
    split; [intros it items; apply (complete_order true sources ts m'); assumption |].
    split; [exact Hids |]. intros ->.
    apply NoDup_Permutation; [exact Hnd | |].
    + repeat (apply NoDup_cons; split;
              [rewrite ?elem_of_cons; intros H;
               repeat (destruct H as [H | H]; [discriminate |]); inversion H |]).
      constructor.
    + intros x. rewrite Hids. apply overlapping_ids.
  - destruct (mux_exec_ends false sched (work_left (mux_start sources)) 0
                (mux_start sources) (mux_start_wf sources) (le_n _))
      as (ts & m' & Hexec & Hend).
    pose proof (mux_exec_run _ _ _ _ _ _ _ Hexec) as Hrun.
    exists ts, m'. split; [exact Hexec |]. split; [exact Hend |].
    split; [unfold collect; now rewrite Hexec |].
    pose proof (mux_run_plain ts _ _ Hrun (mux_start_wf sources)) as Hp.
    split; [exact Hp |].
    assert (Hdone : complete false (mux_start sources) ts m') by (split; assumption).
    assert (Hperm : arrivals ts ≡ₚ concat sources)
      by (apply (complete_arrivals false sources ts m'); assumption).
    rewrite Hp. split; [exact Hperm |].
    split; [intros it items; apply (complete_order false sources ts m'); assumption |].
    intros ->. rewrite Hperm. reflexivity.
Qed.

Lemma filter_merges_witness :
  (exists evs,
     collect true round_robin overlapping_sources = Ok evs /\
     map id evs ≡ₚ ["1"; "2"; "3"; "4"]) /\
  (exists evs,
     collect false round_robin overlapping_sources = Ok evs /\
     length evs = 6%nat).
Proof.
  destruct (filter_merges overlapping_sources round_robin)
    as [(ts & _ & _ & _ & Hc & _ & _ & _ & _ & _ & Hex)
        (ts' & _ & _ & _ & Hc' & _ & _ & _ & Hex')].
  split.
  - exists (forwarded ts). split; [exact Hc | exact (Hex eq_refl)].
  - exists (forwarded ts'). split; [exact Hc' | exact (Hex' eq_refl)].
Defined.

(** *** Termination, exhaustion and re-arming *)

Lemma slots_iters (its : list nat) : map p_iter (slots its) = its.
Proof.
  unfold slots. generalize 0%nat. induction its as [| it its IH]; intros o; [reflexivity |].
  rewrite slots_from_cons. simpl. now rewrite IH.
Qed.

Lemma turn_spec_active (unique : bool) (m : Mux) (t : turn) (m' : Mux) :
  turn_spec unique m t m' ->
  turn_iter t ∈ relayIterators m /\
  (forall it, it ∈ relayIterators m' -> it ∈ relayIterators m) /\
  (forall it, it <> turn_iter t -> next_calls m' !! it = next_calls m !! it).
Proof.
  intros [j it Hj Hit | j it ev rest Hj Hit]; simpl.
  - split; [eapply list_elem_of_lookup_2; eassumption |].
    split; [intros it'; apply list_elem_of_delete_inv | reflexivity].
  - split; [destruct (to_yield unique m ev); eapply list_elem_of_lookup_2; eassumption |].
    split; [tauto |]. intros it' Hne.
    apply list_lookup_alter_ne. destruct (to_yield unique m ev); simpl in Hne; congruence.
Qed.

(** An iterator that is not active is not polled by any later turn. *)
Lemma idle_stays_idle (unique : bool) (it : nat) (m : Mux) (ts : list turn) (m' : Mux) :
  mux_run unique m ts m' -> mux_wf m -> it ∉ relayIterators m ->
  (it ∉ relayIterators m') /\
  (it ∉ map p_iter (indexedPromises m')) /\
  next_calls m' !! it = next_calls m !! it /\
  Forall (fun t => turn_iter t <> it) ts.
Proof.
  induction 1 as [m | m j t m1 ts m2 _ Hturn _ IH]; intros Hwf Hout.
  - split; [assumption |]. split; [| split; [reflexivity | constructor]].
    rewrite (wf_slots m Hwf), slots_iters. assumption.
  - destruct (mux_turn_spec unique j m t _ Hwf Hturn) as (m1' & [= <-] & Hspec).
    destruct (turn_spec_active unique m t m1 Hspec) as (Hin & Hsub & Hcalls).
    assert (Hne : turn_iter t <> it) by (intros <-; contradiction).
    destruct IH as (H1 & H2 & H3 & H4);
      [eauto using turn_spec_wf | intros Hin'; apply Hout, Hsub, Hin' |].
    split; [assumption |]. split; [assumption |].
    split; [rewrite H3; apply Hcalls; congruence |].
    constructor; assumption.
Qed.

(** C5. The merged iteration ends: whatever promise wins each race, the
    loop takes as many turns as there are items and sources and then
    leaves by its condition, with every source exhausted and no promise
    pending.  Until then every race can be won by any pending promise and
    the turn neither sticks nor fails.  Each active source has exactly one
    pending promise.  A source that reports exhaustion leaves the active
    sources together with its promise and is not polled again in any
    continuation.  A turn that receives an item re-arms exactly one
    [next()] on the source of the item and on no other. *)
Theorem filter_terminates (unique : bool) (sources : list (list NostrEvent)) :
  let m0 := mux_start sources in
  (forall sched,
     exists ts m,
       mux_exec unique sched (work_left m0) 0 m0 = (ts, Ok m) /\
       complete unique m0 ts m) /\
  (forall ts m,
     mux_run unique m0 ts m ->
     (length ts + work_left m = length (concat sources) + length sources)%nat /\
     (map p_iter (indexedPromises m) = relayIterators m /\ NoDup (relayIterators m)) /\
     (relayIterators m = [] ->
        length ts = (length (concat sources) + length sources)%nat /\
        Forall (fun items => items = []) (iterators m) /\
        indexedPromises m = [] /\
        forall j, mux_turn unique j m = None) /\
     (forall j, (j < length (indexedPromises m))%nat ->
        exists t m1, mux_turn unique j m = Some (t, Ok m1)) /\
     (forall j t r,
        mux_turn unique j m = Some (t, r) ->
        exists m1,
          r = Ok m1 /\
          match t with
          | Exhausted it =>
              iterators m !! it = Some [] /\
              next_calls m1 = next_calls m /\
              forall ts' m2,
                mux_run unique m1 ts' m2 ->
                (it ∉ relayIterators m2) /\
                (it ∉ map p_iter (indexedPromises m2)) /\
                next_calls m2 !! it = next_calls m !! it /\
                Forall (fun t' => turn_iter t' <> it) ts'
          | Forwarded it _ | Dropped it _ =>
              next_calls m1 = alter S it (next_calls m) /\
              relayIterators m1 = relayIterators m /\
              it ∈ relayIterators m1
          end)).
Proof.
  intros m0. pose proof (mux_start_wf sources) as Hwf0. fold m0 in Hwf0.
  split.
  - intros sched.
    destruct (mux_exec_ends unique sched (work_left m0) 0 m0 Hwf0 (le_n _))
      as (ts & m & Hexec & Hend).
    exists ts, m. split; [exact Hexec |]. split; [| exact Hend].
    eapply mux_exec_run; eassumption.
  - intros ts m Hrun.
    pose proof (mux_run_wf unique m0 ts m Hrun Hwf0) as Hwf.
    pose proof (mux_run_work unique m0 ts m Hrun Hwf0) as Hwork.
    unfold m0 in Hwork. rewrite work_left_start in Hwork.
    split; [lia |].
    split; [split; [rewrite (wf_slots m Hwf); apply slots_iters | apply (wf_nodup m Hwf)] |].
    split; [| split].
    + intros Hend. destruct (all_idle m Hwf Hend) as [Hidle Hnone].
      assert (Hzero : work_left m = 0%nat) by (rewrite work_left_cost, Hend; reflexivity).
      split; [lia |]. split; [assumption |]. split; [assumption |].
      intros j. unfold mux_turn. rewrite Hnone. reflexivity.
    + intros j Hj. apply mux_turn_progress; [assumption |].
      rewrite (wf_slots m Hwf) in Hj. unfold slots in Hj.
      now rewrite slots_from_length in Hj.
    + intros j t r Hturn.
      destruct (mux_turn_spec unique j m t r Hwf Hturn) as (m1 & -> & Hspec).
      exists m1. split; [reflexivity |].
      pose proof (turn_spec_wf unique m t m1 Hwf Hspec) as Hwf1.
      inversion Hspec as [j' it Hj Hit | j' it ev rest Hj Hit Hlabel]; subst.
      * split; [assumption |]. split; [reflexivity |].
        intros ts' m2 Hrest.
        apply (idle_stays_idle unique it _ ts' m2 Hrest Hwf1).
        simpl. pose proof (wf_nodup m Hwf) as Hnd.
        rewrite <- (take_drop_middle _ _ _ Hj) in Hnd.
        apply NoDup_app in Hnd as (_ & H2 & H3). apply NoDup_cons in H3 as [H3 _].
        rewrite delete_take_drop. intros Hin.
        apply elem_of_app in Hin as [Hin | Hin]; [apply (H2 it Hin); now left | contradiction].
      * assert (Hin : it ∈ relayIterators m)
          by (eapply list_elem_of_lookup_2; eassumption).
        destruct (to_yield unique m ev); simpl; repeat split; assumption.
Qed.

(** ** Queries *)

Lemma collect_returns (unique : bool) (sched : nat -> nat)
    (sources : list (list NostrEvent)) :
  exists evs, collect unique sched sources = Ok evs /\
              (unique = false -> evs ≡ₚ concat sources).
Proof.
  unfold collect.
  destruct (mux_exec_ends unique sched (work_left (mux_start sources)) 0
              (mux_start sources) (mux_start_wf sources) (le_n _))
    as (ts & m & Hexec & Hend).
  rewrite Hexec. exists (forwarded ts). split; [reflexivity |].
  intros ->. apply mux_exec_run in Hexec.
  rewrite (mux_run_plain ts _ _ Hexec (mux_start_wf sources)).
  apply (complete_arrivals false sources ts m). split; assumption.
Qed.

(** Whatever a single stream gives is what [collect] returns: the merge
    consults no signature. *)
Lemma collect_single (unique : bool) (sched : nat -> nat) (ev : NostrEvent) :
  collect unique sched [[ev]] = Ok [ev].
Proof.
  unfold collect. change (work_left (mux_start [[ev]])) with 2%nat.
  assert (Hstep : forall k, (sched k mod 1 = 0)%nat) by (intros k; apply Nat.mod_1_r).
  cbn [mux_exec mux_start relayIterators indexedPromises length seq imap].
  rewrite Hstep.
  destruct unique; cbn; rewrite ?Hstep; reflexivity.
Qed.

Section QueryFacts.
Context `{Platform}.

Lemma getProfileEvents_verified (n : Nostr) (filters : NostrFilters) :
  Forall (fun ev => isValidEvent ev = true) (getProfileEvents n filters).
Proof.
  unfold getProfileEvents.
  assert (Hgen : forall rs acc,
             Forall (fun ev => isValidEvent ev = true) acc ->
             Forall (fun ev => isValidEvent ev = true)
               (foldl (fun events relay =>
                         match subscribePromise relay filters with
                         | ev :: _ => if isValidEvent ev then events ++ [ev] else events
                         | [] => events
                         end) acc rs)).
  { induction rs as [| r rs IH]; intros acc Hacc; simpl; [assumption |].
    apply IH. destruct (subscribePromise r filters) as [| ev ?]; [assumption |].
    destruct (isValidEvent ev) eqn:Hv; [| assumption].
    apply Forall_app. split; [assumption | now apply Forall_singleton]. }
  apply Hgen. constructor.
Qed.



End QueryFacts.

(** *** A relay that answers the metadata query with malformed content *)



(** *** A relay that streams an event whose signature does not verify *)

Section Unverified.
Context `{Platform}.

(** The queries built on [filter] hand on what the relay streams, whether
    or not its signature verifies. *)
Lemma filter_queries_forward (n : Nostr) (r : Relay) (ev : NostrEvent)
    (sched : nat -> nat) (publicKey : option string) :
  relayInstances n = [r] -> (forall filters, events r filters = [ev]) ->
  globalFeed n sched None None None = Ok [eventToPost ev] /\
  getFollowerInfo n sched publicKey = Ok [pubkey ev] /\
  (0 < created_at ev -> getFollowingInfo n sched publicKey = Ok (Some ev)) /\
  (truthy_opt (_publicKey n) = true -> getPosts n sched = Ok [eventToPost ev]).
Proof.
  intros Hr Hev.
  assert (Hsrc : forall filters, filter_sources n filters = [[ev]]).
  { intros filters. unfold filter_sources. rewrite Hr. simpl. now rewrite Hev. }
  unfold globalFeed, getFollowerInfo, getFollowingInfo, getPosts.
  rewrite !Hsrc, !collect_single. cbn [bind map].
  repeat split.
  - intros Hnew. unfold newest. simpl. apply Z.ltb_lt in Hnew. now rewrite Hnew.
  - intros ->. reflexivity.
Qed.

End Unverified.

(** C4 (where the code departs from the claim). [getProfileEvents] keeps
    only events that verify, and leaves the forged event out.  The queries
    built on [filter] return it: the merge never calls [isValidEvent]. *)
Theorem unverified_event_is_surfaced :
  @isValidEvent StandIn.platform forged = false /\
  @getProfileEvents StandIn.platform client_forging no_filter = [] /\
  collect true round_robin (filter_sources client_forging no_filter) = Ok [forged] /\
  globalFeed client_forging round_robin None None None
    = Ok [eventToPost forged] /\
  getPosts client_forging round_robin = Ok [eventToPost forged] /\
  getFollowerInfo client_forging round_robin (Some key3_public)
    = Ok [pubkey forged] /\
  getFollowingInfo client_forging round_robin (Some key3_public)
    = Ok (Some forged).
Proof.
  destruct (filter_queries_forward client_forging relay_forging forged
              round_robin (Some key3_public) eq_refl (fun _ => eq_refl))
    as (Hfeed & Hfollower & Hfollowing & Hposts).
  split; [vm_compute; reflexivity |].
  split; [vm_compute; reflexivity |].
  split; [apply collect_single |].
  split; [exact Hfeed |].
  split; [apply Hposts; vm_compute; reflexivity |].
  split; [exact Hfollower |].
  apply Hfollowing. vm_compute. reflexivity.
Qed.

(** ** JSON.parse never runs out of fuel *)

Ltac break_match_hyp H :=
  match type of H with
  | context [match ?x with _ => _ end] => destruct x eqn:?
  | context [if ?x then _ else _] => destruct x eqn:?
  end.

Lemma skip_ws_length (cs : list ascii) : (length (skip_ws cs) <= length cs)%nat.
Proof.
  induction cs as [| c cs IH]; simpl; [lia |].
  destruct (is_ws c); simpl; lia.
Qed.

Lemma skip_ws_cons (cs rest : list ascii) (c : ascii) :
  skip_ws cs = c :: rest -> (length rest < length cs)%nat.
Proof. intros Hs. pose proof (skip_ws_length cs) as Hl. rewrite Hs in Hl. simpl in Hl. lia. Qed.

Lemma span_digits_length (cs ds rest : list ascii) :
  span_digits cs = (ds, rest) -> (length ds + length rest = length cs)%nat.
Proof.
  revert ds rest. induction cs as [| c cs IH]; intros ds rest Hs; simpl in Hs.
  - injection Hs as <- <-. reflexivity.
  - destruct (is_digit c).
    + destruct (span_digits cs) as [ds' rest'] eqn:Hspan. injection Hs as <- <-.
      simpl. rewrite (IH ds' rest' eq_refl). reflexivity.
    + injection Hs as <- <-. reflexivity.
Qed.

Lemma strip_prefix_length (word : list ascii) :
  forall cs rest, strip_prefix word cs = Some rest ->
                  (length rest + length word = length cs)%nat.
Proof.
  induction word as [| w word IH]; intros cs rest Hs; simpl in Hs.
  - injection Hs as <-. simpl. lia.
  - destruct cs as [| c cs]; [discriminate |].
    destruct (Ascii.eqb w c); [| discriminate].
    simpl. rewrite <- (IH cs rest Hs). lia.
Qed.

Lemma parse_string_body_shorter (n : nat) :
  forall cs acc s rest,
    (length cs <= n)%nat -> parse_string_body cs acc = Some (s, rest) ->
    (length rest < length cs)%nat.
Proof.
  induction n as [| n IH]; intros cs acc s rest Hn Hp.
  - destruct cs; [discriminate | simpl in Hn; lia].
  - destruct cs as [| c cs]; [discriminate |]. simpl in Hp, Hn |- *.
    destruct (charCode c =? 34); [injection Hp as _ <-; lia |].
    destruct (charCode c <? 32); [discriminate |].
    destruct (charCode c =? 92).
    + destruct cs as [| e cs]; [discriminate |]. simpl in Hn |- *.
      assert (Hrec : forall acc', parse_string_body cs acc' = Some (s, rest) ->
                                  (length rest < S (S (length cs)))%nat).
      { intros acc' H'. destruct n; [simpl in Hn; lia |].
        assert (length rest < length cs)%nat; [| lia].
        apply (IH cs acc' s rest); [lia | exact H']. }
      repeat (break_match_hyp Hp; [eapply Hrec; eassumption |]).
      destruct (charCode e =? 117); [| discriminate].
      destruct cs as [| a [| b [| c' [| d cs3]]]]; try discriminate.
      repeat (break_match_hyp Hp; try discriminate).
      simpl in Hn |- *.
      assert (length rest < length cs3)%nat; [| lia].
      eapply (IH cs3); [lia | exact Hp].
    + assert (length rest < length cs)%nat; [| lia].
      eapply (IH cs); [lia | exact Hp].
Qed.

Lemma parse_number_shorter (cs : list ascii) (s : string) (rest : list ascii) :
  parse_number cs = Some (s, rest) -> (length rest < length cs)%nat.
Proof.
  unfold parse_number. intros Hp.
  repeat (match goal with
          | H : context [span_digits ?x] |- _ =>
              let E := fresh "E" in
              destruct (span_digits x) as [? ?] eqn:E;
              apply span_digits_length in E
          | H : context [match ?x with _ => _ end] |- _ => destruct x eqn:?
          | H : context [if ?x then _ else _] |- _ => destruct x eqn:?
          end; simplify_eq; simpl in *);
    lia.
Qed.

Lemma fuel_ok_weaken (r : parse_error + (json * list ascii)) (cs cs' : list ascii) :
  fuel_ok r cs -> (length cs <= length cs')%nat -> fuel_ok r cs'.
Proof. destruct r as [[] | [v rest]]; simpl; intros; try tauto; lia. Qed.

Lemma parse_fuel (fuel : nat) :
  (forall cs, (2 * length cs + 1 <= fuel)%nat -> fuel_ok (parse_value fuel cs) cs) /\
  (forall cs acc, (2 * length cs + 2 <= fuel)%nat ->
                  fuel_ok (parse_elements fuel cs acc) cs) /\
  (forall cs acc, (2 * length cs + 2 <= fuel)%nat ->
                  fuel_ok (parse_members fuel cs acc) cs).
Proof.
  induction fuel as [| fuel (IHv & IHe & IHm)].
  - repeat split; intros; lia.
  - split; [| split].
    + intros cs Hf. cbn [parse_value].
      destruct (skip_ws cs) as [| c rest] eqn:Hs; [exact I |].
      apply skip_ws_cons in Hs.
      destruct (charCode c =? 123).
      { destruct (skip_ws rest) as [| d rest'] eqn:Hs2; [exact I |].
        apply skip_ws_cons in Hs2.
        destruct (charCode d =? 125); [simpl; lia |].
        apply (fuel_ok_weaken _ (d :: rest')); [apply IHm | ]; simpl; lia. }
      destruct (charCode c =? 91).
      { destruct (skip_ws rest) as [| d rest'] eqn:Hs2; [exact I |].
        apply skip_ws_cons in Hs2.
        destruct (charCode d =? 93); [simpl; lia |].
        apply (fuel_ok_weaken _ (d :: rest')); [apply IHe | ]; simpl; lia. }
      destruct (charCode c =? 34).
      { destruct (parse_string_body rest []) as [[s rest'] |] eqn:Hb; [| exact I].
        apply (parse_string_body_shorter (length rest)) in Hb; [simpl; lia | lia]. }
      destruct (charCode c =? 116).
      { destruct (strip_prefix (chars "true") (c :: rest)) as [rest' |] eqn:Hp; [| exact I].
        apply strip_prefix_length in Hp. simpl in Hp |- *. lia. }
      destruct (charCode c =? 102).
      { destruct (strip_prefix (chars "false") (c :: rest)) as [rest' |] eqn:Hp; [| exact I].
        apply strip_prefix_length in Hp. simpl in Hp |- *. lia. }
      destruct (charCode c =? 110).
      { destruct (strip_prefix (chars "null") (c :: rest)) as [rest' |] eqn:Hp; [| exact I].
        apply strip_prefix_length in Hp. simpl in Hp |- *. lia. }
      destruct (parse_number (c :: rest)) as [[lexeme rest'] |] eqn:Hp; [| exact I].
      apply parse_number_shorter in Hp. simpl in Hp |- *. lia.
    + intros cs acc Hf. cbn [parse_elements].
      specialize (IHv cs ltac:(lia)).
      destruct (parse_value fuel cs) as [[] | [v rest]]; simpl in IHv; try tauto.
      destruct (skip_ws rest) as [| c rest'] eqn:Hs; [exact I |].
      apply skip_ws_cons in Hs.
      destruct (charCode c =? 44).
      { apply (fuel_ok_weaken _ rest'); [apply IHe | ]; lia. }
      destruct (charCode c =? 93); [simpl; lia | exact I].
    + intros cs acc Hf. cbn [parse_members].
      destruct (skip_ws cs) as [| q rest] eqn:Hs; [exact I |].
      apply skip_ws_cons in Hs.
      destruct (charCode q =? 34); [| exact I].
      destruct (parse_string_body rest []) as [[k rest1] |] eqn:Hb; [| exact I].
      apply (parse_string_body_shorter (length rest)) in Hb; [| lia].
      destruct (skip_ws rest1) as [| c rest2] eqn:Hs2; [exact I |].
      apply skip_ws_cons in Hs2.
      destruct (charCode c =? 58); [| exact I].
      specialize (IHv rest2 ltac:(lia)).
      destruct (parse_value fuel rest2) as [[] | [v rest3]]; simpl in IHv; try tauto.
      destruct (skip_ws rest3) as [| d rest'] eqn:Hs3; [exact I |].
      apply skip_ws_cons in Hs3.
      destruct (charCode d =? 44).
      { apply (fuel_ok_weaken _ rest'); [apply IHm | ]; lia. }
      destruct (charCode d =? 125); [simpl; lia | exact I].
Qed.

(** [JSON.parse] returns a value or throws a syntax error. *)
Lemma JSON_parse_total (text : string) :
  (exists v, JSON_parse text = Ok v) \/ JSON_parse text = Throw SyntaxError.
Proof.
  unfold JSON_parse.
  destruct (parse_fuel (2 * length (chars text) + 2)) as (Hv & _ & _).
  specialize (Hv (chars text) ltac:(lia)).
  destruct (parse_value _ (chars text)) as [[] | [v rest]]; simpl in Hv.
  - now right.
  - contradiction.
  - destruct (skip_ws rest); [left; eauto | now right].
Qed.

(** * Further properties of the client *)

(** ** Publication: one post *)

Section PublicationFacts.
Context `{Platform}.

(** What a successful [sendPost] did, read back from its result. *)
Lemma sendPost_inv (n : Nostr) (text : string) (rootReference reference : option string)
    (w w' : World) (p : NostrPost) :
  sendPost n text rootReference reference w = (Ok p, w') ->
  exists ev sigbytes,
    p = eventToPost ev /\
    wire w' = wire w ++ deliveries n [ev] /\
    arrays w' = arrays w /\
    content ev = text /\
    tags ev = reference_tags rootReference reference /\
    id ev = calculateId ev /\
    signId n (S (ticks w)) (id ev) = Ok sigbytes /\
    sig ev = TextDecoder_decode (encode sigbytes) /\
    pubkey ev = _publicKey n /\
    kind ev = 1 /\
    created_at ev = Date_now (ticks w) / 1000.
Proof.
  unfold sendPost. rewrite reference_tags_eq.
  set (tags := reference_tags rootReference reference).
  cbn [tick ticks].
  match goal with |- context [signId n ?e ?i] =>
    destruct (signId n e i) as [sigbytes | err] eqn:Hsign; [| discriminate] end.
  intros [= <- <-].
  eexists. exists sigbytes. split; [reflexivity |].
  match goal with |- context [foldl (fun w relay => transmit w relay ?ev) ?w0 ?rs] =>
    pose proof (transmit_all rs ev w0) as Ht end.
  cbv zeta in Ht. destruct Ht as (Hw & Ha & _).
  split; [| split].
  - etransitivity; [exact Hw |]. unfold deliveries. simpl. now rewrite app_nil_r.
  - etransitivity; [exact Ha |]. reflexivity.
  - repeat split; try reflexivity. exact Hsign.
Qed.

Lemma kept_reference_tags (rootReference reference : option string) :
  reference_tags (kept rootReference) (kept reference)
  = reference_tags rootReference reference.
Proof.
  destruct rootReference as [[| c s] |], reference as [[| c' s'] |]; reflexivity.
Qed.

Lemma eventToPost_reference_tags (ev : NostrEvent) (rootReference reference : option string) :
  tags ev = reference_tags rootReference reference ->
  post_rootReference (eventToPost ev) = kept rootReference /\
  post_reference (eventToPost ev) = kept reference /\
  post_mentionTo (eventToPost ev) = None.
Proof.
  intros Htags. unfold eventToPost. cbn [post_rootReference post_reference post_mentionTo].
  rewrite Htags.
  destruct rootReference as [[| c s] |], reference as [[| c' s'] |];
    vm_compute; repeat split.
Qed.

(** X1. A post that cannot be signed is not published: when the signature
    fails, [sendPost] throws and no relay is handed anything, and so does
    [sendThreadPost], whatever array it is given. *)
Theorem unsigned_post_is_not_sent (n : Nostr) (text : string)
    (rootReference reference : option string) (posts : nat) (w : World) :
  (forall e i, is_ok (schnorr_sign e i (_privateKey n)) = false) ->
  is_ok (fst (sendPost n text rootReference reference w)) = false /\
  wire (snd (sendPost n text rootReference reference w)) = wire w /\
  is_ok (fst (sendThreadPost n posts w)) = false /\
  wire (snd (sendThreadPost n posts w)) = wire w.
Proof.
  intros Hsign.
  assert (Hpost : forall text r f w0,
             is_ok (fst (sendPost n text r f w0)) = false /\
             wire (snd (sendPost n text r f w0)) = wire w0).
  { intros text0 r f w0. unfold sendPost, signId.
    match goal with |- context [schnorr_sign ?e ?i ?k] =>
      specialize (Hsign e i); destruct (schnorr_sign e i k) as [sigbytes | err];
        [discriminate |] end.
    split; reflexivity. }
  split; [apply Hpost |]. split; [apply Hpost |].
  unfold sendThreadPost, sendTextPost.
  destruct (arrays w !! posts) as [arr |]; [| split; reflexivity].
  destruct (length arr <? 2)%nat; [split; reflexivity |].
  destruct arr as [| first rest]; [split; reflexivity |].
  destruct (Hpost first None None (set_array w posts rest)) as [Hfail Hwire].
  destruct (sendPost n first None None (set_array w posts rest)) as [[fp | e] w1];
    [discriminate |].
  split; [reflexivity | exact Hwire].
Qed.


(** X3. The event that [sendPost] publishes is identified by its content:
    its id is the hash of its own commitment, written as 64 lowercase hex
    digits; its signature is the signature of that id under the client's
    private key, in hex; its author is the client's public key. *)
Theorem published_event_identity (n : Nostr) (text : string)
    (rootReference reference : option string) (w w' : World) (p : NostrPost) :
  sendPost n text rootReference reference w = (Ok p, w') ->
  exists ev sigbytes,
    wire w' = wire w ++ deliveries n [ev] /\
    post_id p = id ev /\
    id ev = calculateId ev /\
    String.length (id ev) = 64%nat /\
    forallb is_lower_hex (chars (id ev)) = true /\
    schnorr_sign (S (ticks w)) (id ev) (_privateKey n) = Ok sigbytes /\
    sig ev = TextDecoder_decode (encode sigbytes) /\
    pubkey ev = _publicKey n /\
    kind ev = kind_code TEXT_NOTE.
Proof.
  intros Hsend.
  destruct (sendPost_inv _ _ _ _ _ _ _ Hsend)
    as (ev & sigbytes & -> & Hwire & _ & _ & _ & Hid & Hsign & Hsig & Hpub & Hkind & _).
  exists ev, sigbytes.
  destruct (sha256_digest (utf8Encode (eventCommitment ev))) as [Hlen Hbytes].
  assert (Hhex : id ev = string_of_list_ascii
                           (hex_render (sha256 (utf8Encode (eventCommitment ev))))).
  { rewrite Hid at 1. unfold calculateId, hexEncode.
    rewrite hexEncode_from by assumption. reflexivity. }
  repeat split; try assumption.
  - rewrite Hhex, string_length_of_list, hex_render_length, Hlen. reflexivity.
  - rewrite Hhex. unfold chars. rewrite list_ascii_of_string_of_list_ascii.
    now apply hex_render_lower.
Qed.

(** X4. The post that [sendPost] returns gives back the references it was
    called with: [rootReference] and [reference] are the arguments when
    they are given and not empty and are absent otherwise, and the post
    mentions nobody. *)
Theorem sendPost_returns_its_references (n : Nostr) (text : string)
    (rootReference reference : option string) (w w' : World) (p : NostrPost) :
  sendPost n text rootReference reference w = (Ok p, w') ->
  post_rootReference p = kept rootReference /\
  post_reference p = kept reference /\
  post_mentionTo p = None /\
  post_content p = text /\
  post_author p = _publicKey n.
Proof.
  intros Hsend.
  destruct (sendPost_inv _ _ _ _ _ _ _ Hsend)
    as (ev & sigbytes & -> & _ & _ & Hc & Htags & _ & _ & _ & Hpub & _).
  destruct (eventToPost_reference_tags ev _ _ Htags) as (Hroot & Href & Hm).
  repeat split; assumption.
Qed.

(** X5. A reply published with [sendReplyPost] carries the references of
    the post it answers, not the id of that post: answering a post that
    [sendPost] returned publishes an event with the very tags of the
    answered post, and answering a post without references publishes an
    event without tags. *)
Theorem reply_repeats_the_references (n : Nostr) (a b : string)
    (rootReference reference : option string) (w w1 w2 : World) (p q : NostrPost) :
  sendPost n a rootReference reference w = (Ok p, w1) ->
  sendReplyPost n b p w1 = (Ok q, w2) ->
  exists ev,
    wire w2 = wire w1 ++ deliveries n [ev] /\
    content ev = b /\
    tags ev = reference_tags rootReference reference /\
    post_rootReference q = post_rootReference p /\
    post_reference q = post_reference p.
Proof.
  intros Hsend Hreply.
  assert (Hp : post_rootReference p = kept rootReference /\
               post_reference p = kept reference).
  { destruct (sendPost_inv _ _ _ _ _ _ _ Hsend)
      as (ev & sigbytes & -> & _ & _ & _ & Htags & _).
    destruct (eventToPost_reference_tags ev _ _ Htags) as (Hroot & Href & _).
    split; assumption. }
  destruct Hp as (Hroot & Href).
  unfold sendReplyPost in Hreply. rewrite Hroot, Href in Hreply.
  destruct (sendPost_inv _ _ _ _ _ _ _ Hreply)
    as (ev & sigbytes & -> & Hwire & _ & Hc & Htags & _).
  rewrite kept_reference_tags in Htags.
  destruct (eventToPost_reference_tags ev _ _ Htags) as (Hroot' & Href' & _).
  exists ev. rewrite Hroot, Href. repeat split; assumption.
Qed.

(** ** Publication: threads of any length *)







End PublicationFacts.

Lemma unsigned_post_is_not_sent_witness :
  is_ok (fst (@sendPost StandIn.platform client_without_key "hello" None None
                (StandIn.world_with ["a"; "b"]))) = false /\
  wire (snd (@sendPost StandIn.platform client_without_key "hello" None None
               (StandIn.world_with ["a"; "b"]))) = [] /\
  is_ok (fst (@sendThreadPost StandIn.platform client_without_key 0
                (StandIn.world_with ["a"; "b"]))) = false /\
  wire (snd (@sendThreadPost StandIn.platform client_without_key 0
               (StandIn.world_with ["a"; "b"]))) = [].
Proof.
  apply (@unsigned_post_is_not_sent StandIn.platform client_without_key "hello" None None
           0%nat (StandIn.world_with ["a"; "b"])).
  intros e i. reflexivity.
Defined.


Lemma published_event_identity_witness :
  exists ev sigbytes,
    wire (snd post_hello) = deliveries StandIn.client [ev] /\
    post_id (the_post post_hello) = id ev /\
    id ev = @calculateId StandIn.platform ev /\
    String.length (id ev) = 64%nat /\
    forallb is_lower_hex (chars (id ev)) = true /\
    StandIn.sign 1 (id ev) (Some StandIn.key3) = Ok sigbytes /\
    sig ev = TextDecoder_decode (encode sigbytes) /\
    pubkey ev = Some key3_public /\
    kind ev = 1.
Proof.
  apply (@published_event_identity StandIn.platform StandIn.client "hello"
           (Some "aa") (Some "bb") empty_world (snd post_hello) (the_post post_hello)).
  vm_compute. reflexivity.
Defined.

Lemma sendPost_returns_its_references_witness :
  post_rootReference (the_post post_hello) = Some "aa" /\
  post_reference (the_post post_hello) = Some "bb" /\
  post_mentionTo (the_post post_hello) = None /\
  post_content (the_post post_hello) = "hello" /\
  post_author (the_post post_hello) = Some key3_public.
Proof.
  apply (@sendPost_returns_its_references StandIn.platform StandIn.client "hello"
           (Some "aa") (Some "bb") empty_world (snd post_hello) (the_post post_hello)).
  vm_compute. reflexivity.
Defined.

Lemma reply_repeats_the_references_witness :
  exists ev,
    wire (snd reply_hello) = wire (snd post_hello) ++ deliveries StandIn.client [ev] /\
    content ev = "re" /\
    tags ev = [["e"; "aa"; ""; "root"]; ["e"; "bb"; ""; "reply"]] /\
    post_rootReference (the_post reply_hello) = Some "aa" /\
    post_reference (the_post reply_hello) = Some "bb".
Proof.
  destruct (@reply_repeats_the_references StandIn.platform StandIn.client "hello" "re"
              (Some "aa") (Some "bb") empty_world (snd post_hello) (snd reply_hello)
              (the_post post_hello) (the_post reply_hello))
    as (ev & Hw & Hc & Ht & Hr & Hf).
  - vm_compute. reflexivity.
  - vm_compute. reflexivity.
  - exists ev. split; [exact Hw |]. split; [exact Hc |]. split; [exact Ht |].
    split; [rewrite Hr | rewrite Hf]; vm_compute; reflexivity.
Defined.



(** ** Queries: the newest event *)

Lemma newest_foldl (events : list NostrEvent) :
  newest events = snd (foldl newer (0, None) events).
Proof.
  unfold newest. f_equal. generalize (0, @None NostrEvent).
  induction events as [| ev events IH]; intros [c e]; simpl; [reflexivity | apply IH].
Qed.

Lemma newer_kept (events : list NostrEvent) :
  forall (c : Z) (e : NostrEvent),
    foldl newer (c, Some e) events
    = match snd (foldl newer (c, None) events) with
      | Some x => (fst (foldl newer (c, None) events), Some x)
      | None => (fst (foldl newer (c, None) events), Some e)
      end.
Proof.
  induction events as [| ev events IH]; intros c e; simpl; [reflexivity |].
  destruct (c <? created_at ev).
  - rewrite (IH (created_at ev) ev).
    destruct (snd (foldl newer (created_at ev, None) events)); reflexivity.
  - apply IH.
Qed.

Lemma newest_from (events : list NostrEvent) :
  forall c : Z,
    match snd (foldl newer (c, None) events) with
    | Some ev =>
        exists pre post,
          events = pre ++ ev :: post /\
          c < created_at ev /\
          Forall (fun e => created_at e < created_at ev) pre /\
          Forall (fun e => created_at e <= created_at ev) post
    | None => Forall (fun e => created_at e <= c) events
    end.
Proof.
  induction events as [| ev events IH]; intros c; simpl; [constructor |].
  destruct (c <? created_at ev) eqn:Hlt.
  - apply Z.ltb_lt in Hlt. rewrite newer_kept. specialize (IH (created_at ev)).
    destruct (snd (foldl newer (created_at ev, None) events)) as [x |]; simpl.
    + destruct IH as (pre & post & -> & Hx & Hpre & Hpost).
      exists (ev :: pre), post. repeat split; try assumption; [lia |].
      constructor; assumption.
    + exists [], events. repeat split; try assumption. constructor.
  - apply Z.ltb_ge in Hlt. specialize (IH c).
    destruct (snd (foldl newer (c, None) events)) as [x |].
    + destruct IH as (pre & post & -> & Hx & Hpre & Hpost).
      exists (ev :: pre), post. repeat split; try assumption.
      constructor; [lia | assumption].
    + constructor; assumption.
Qed.

(** X8. The event that [getFollowingInfo] keeps is the newest of the
    events collected: no event is newer, and every event that arrived
    before it is strictly older, so that of two events of the same age
    the one that arrived first is kept.  An event whose [created_at] is
    not above 0 is never kept, and nothing is returned when there is no
    other. *)
Theorem newest_is_latest (events : list NostrEvent) :
  match newest events with
  | Some ev =>
      exists pre post,
        events = pre ++ ev :: post /\
        0 < created_at ev /\
        Forall (fun e => created_at e < created_at ev) pre /\
        Forall (fun e => created_at e <= created_at ev) post
  | None => Forall (fun e => created_at e <= 0) events
  end.
Proof. rewrite newest_foldl. apply newest_from. Qed.

Lemma profile_metadata_from (events : list NostrEvent) :
  forall (c : Z) (info info' : ProfileInfo),
    profile_metadata events c info = Ok info' ->
    match snd (foldl newer (c, None) events) with
    | Some ev => metadata_of ev = Ok (profile_fields info')
    | None => profile_fields info' = profile_fields info
    end /\
    profile_relays info' = profile_relays info /\
    profile_following info' = profile_following info /\
    profile_follower info' = profile_follower info.
Proof.
  induction events as [| ev events IH]; intros c info info' Hrun; simpl in *.
  - injection Hrun as <-. repeat split.
  - destruct (c <? created_at ev) eqn:Hlt.
    + rewrite newer_kept.
      destruct (JSON_parse (content ev)) as [data |] eqn:Hdata; [| discriminate].
      cbn [bind] in Hrun.
      destruct (get_prop data "name") as [name |] eqn:Hname; [| discriminate].
      cbn [bind] in Hrun.
      destruct (get_prop data "about") as [about |] eqn:Habout; [| discriminate].
      cbn [bind] in Hrun.
      destruct (get_prop data "picture") as [picture |] eqn:Hpicture; [| discriminate].
      cbn [bind] in Hrun.
      destruct (IH _ _ _ Hrun) as (Hnew & Hr & Hf & Hg).
      split; [| repeat split; assumption].
      destruct (snd (foldl newer (created_at ev, None) events)) as [x |]; simpl.
      * exact Hnew.
      * unfold metadata_of. rewrite Hdata. cbn [bind].
        rewrite Hname. cbn [bind]. rewrite Habout. cbn [bind].
        rewrite Hpicture. cbn [bind]. now rewrite Hnew.
    + apply IH. exact Hrun.
Qed.

Section ProfileFacts.
Context `{Platform}.

(** X9. When [getProfile] returns, the name, the about and the picture of
    the profile are those written in the content of the newest metadata
    event that [getProfileEvents] gave (the first to arrive among events
    of the same age); they are absent when no such event has a
    [created_at] above 0. *)
Theorem getProfile_takes_newest_metadata (n : Nostr) (s1 s2 : nat -> nat)
    (publicKey : option string) (info : ProfileInfo) :
  getProfile n s1 s2 publicKey = Ok info ->
  match newest (getProfileEvents n (metadata_filters publicKey)) with
  | Some ev => metadata_of ev = Ok (profile_fields info)
  | None => profile_fields info = (None, None, None)
  end.
Proof.
  unfold getProfile. fold (metadata_filters publicKey).
  intros Hget.
  destruct (profile_metadata (getProfileEvents n (metadata_filters publicKey)) 0
              empty_profile) as [info0 |] eqn:Hmeta; [| discriminate].
  cbn [bind] in Hget.
  destruct (profile_metadata_from _ _ _ _ Hmeta) as (Hnew & _).
  assert (Hfields : profile_fields info = profile_fields info0).
  { destruct (getFollowingInfo n s1 publicKey) as [following |]; [| discriminate].
    cbn [bind] in Hget.
    destruct following as [contacts |].
    - destruct (JSON_parse (content contacts)) as [relayData |]; [| discriminate].
      cbn [bind] in Hget.
      destruct (relay_preferences (enumerate relayData)) as [relays |]; [| discriminate].
      cbn [bind] in Hget.
      destruct (getFollowerInfo n s2 publicKey) as [followers |]; [| discriminate].
      cbn [bind] in Hget. injection Hget as <-. reflexivity.
    - cbn [bind] in Hget.
      destruct (getFollowerInfo n s2 publicKey) as [followers |]; [| discriminate].
      cbn [bind] in Hget. injection Hget as <-. reflexivity. }
  rewrite newest_foldl, Hfields. exact Hnew.
Qed.

Lemma getProfileEvents_from (filters : NostrFilters) (rs : list Relay) :
  forall acc,
    foldl (fun events relay =>
             match subscribePromise relay filters with
             | ev :: _ => if isValidEvent ev then events ++ [ev] else events
             | [] => events
             end) acc rs
    = acc ++ omap (first_valid filters) rs.
Proof.
  induction rs as [| r rs IH]; intros acc; simpl; [now rewrite app_nil_r |].
  rewrite IH. unfold first_valid.
  destruct (subscribePromise r filters) as [| ev ?]; [reflexivity |].
  destruct (isValidEvent ev); [| reflexivity].
  now rewrite <- app_assoc.
Qed.

(** X10. [getProfileEvents] takes at most one event from each relay, in
    the order of the relays: the first event of the relay's batch, when it
    verifies.  A relay whose first event does not verify contributes
    nothing, whatever else its batch holds. *)
Theorem getProfileEvents_one_per_relay (n : Nostr) (filters : NostrFilters) :
  getProfileEvents n filters = omap (first_valid filters) (relayInstances n) /\
  (length (getProfileEvents n filters) <= length (relayInstances n))%nat /\
  (forall ev, ev ∈ getProfileEvents n filters ->
     isValidEvent ev = true /\
     exists r rest, r ∈ relayInstances n /\ subscribePromise r filters = ev :: rest).
Proof.
  assert (Heq : getProfileEvents n filters = omap (first_valid filters) (relayInstances n)).
  { unfold getProfileEvents. now rewrite getProfileEvents_from. }
  split; [exact Heq |]. split.
  - rewrite Heq. generalize (relayInstances n). intros rs.
    induction rs as [| r rs IH]; simpl; [lia |].
    fold (omap (first_valid filters) rs).
    destruct (first_valid filters r); simpl; lia.
  - intros ev Hev. rewrite Heq in Hev. apply list_elem_of_omap in Hev.
    destruct Hev as (r & Hr & Hfirst). unfold first_valid in Hfirst.
    destruct (subscribePromise r filters) as [| ev' rest] eqn:Hbatch; [discriminate |].
    destruct (isValidEvent ev') eqn:Hvalid; [| discriminate].
    injection Hfirst as ->. split; [exact Hvalid |]. exists r, rest. split; assumption.
Qed.

End ProfileFacts.

Lemma getProfile_takes_newest_metadata_witness :
  @getProfile StandIn.platform client_profiles round_robin round_robin (Some key3_public)
  = Ok profile_new /\
  match newest (@getProfileEvents StandIn.platform client_profiles
                  (metadata_filters (Some key3_public))) with
  | Some ev => metadata_of ev = Ok (profile_fields profile_new)
  | None => profile_fields profile_new = (None, None, None)
  end.
Proof.
  assert (Hget : @getProfile StandIn.platform client_profiles round_robin round_robin
                   (Some key3_public) = Ok profile_new)
    by (vm_compute; reflexivity).
  split; [exact Hget |].
  exact (@getProfile_takes_newest_metadata StandIn.platform client_profiles
           round_robin round_robin (Some key3_public) profile_new Hget).
Defined.

(** ** Queries built on the merged stream *)

Lemma first_by_id_subset (evs : list NostrEvent) :
  forall seen ev, ev ∈ first_by_id seen evs -> ev ∈ evs.
Proof.
  induction evs as [| e evs IH]; intros seen ev; simpl; [easy |].
  destruct (bool_decide (id e ∈ seen)).
  - intros Hin. right. eapply IH. exact Hin.
  - rewrite elem_of_cons. intros [-> | Hin]; [now left | right; eapply IH; exact Hin].
Qed.

Lemma collect_complete (unique : bool) (sched : nat -> nat)
    (sources : list (list NostrEvent)) :
  exists ts m,
    collect unique sched sources = Ok (forwarded ts) /\
    complete unique (mux_start sources) ts m.
Proof.
  unfold collect.
  destruct (mux_exec_ends unique sched (work_left (mux_start sources)) 0
              (mux_start sources) (mux_start_wf sources) (le_n _))
    as (ts & m & Hexec & Hend).
  rewrite Hexec. exists ts, m. split; [reflexivity |].
  split; [eapply mux_exec_run; exact Hexec | exact Hend].
Qed.

Lemma collect_unique_ids (sched : nat -> nat) (sources : list (list NostrEvent)) :
  exists evs,
    collect true sched sources = Ok evs /\
    NoDup (map id evs) /\
    (forall x, x ∈ map id evs <-> x ∈ map id (concat sources)) /\
    (forall ev, ev ∈ evs -> ev ∈ concat sources).
Proof.
  destruct (collect_complete true sched sources) as (ts & m & Hcollect & Hdone).
  exists (forwarded ts). split; [exact Hcollect |].
  pose proof (mux_run_yields ts _ _ (proj1 Hdone) (mux_start_wf sources)) as Hy.
  simpl in Hy.
  pose proof (complete_arrivals true sources ts m Hdone) as Hperm.
  destruct (first_by_id_ids (arrivals ts) []) as [Hnd Hiff].
  rewrite <- Hy in Hnd, Hiff.
  split; [exact Hnd |]. split.
  - intros x. rewrite Hiff, <- Hperm. split; [tauto |].
    intros Hx. split; [exact Hx | apply not_elem_of_nil].
  - intros ev Hev. rewrite Hy in Hev. apply first_by_id_subset in Hev.
    now rewrite <- Hperm.
Qed.

Lemma post_ids (evs : list NostrEvent) : map post_id (map eventToPost evs) = map id evs.
Proof. rewrite map_map. reflexivity. Qed.

(** X11. [globalFeed] returns (it does not throw, whatever the order in
    which the relays answer), and its posts have pairwise distinct ids:
    an event that several relays stream gives one post.  The ids of the
    posts are exactly the ids that some relay streamed, and every post is
    made from a streamed event. *)
Theorem globalFeed_posts_are_distinct (n : Nostr) (sched : nat -> nat)
    (limit since : option Z) (authors : option (list (option string))) :
  exists posts,
    globalFeed n sched limit since authors = Ok posts /\
    NoDup (map post_id posts) /\
    (forall x, x ∈ map post_id posts <-> x ∈ streamed_ids n (feed_filters limit since authors)) /\
    (forall p, p ∈ posts ->
       exists r ev, r ∈ relayInstances n /\
                    ev ∈ events r (feed_filters limit since authors) /\
                    p = eventToPost ev).
Proof.
  unfold globalFeed. fold (feed_filters limit since authors).
  destruct (collect_unique_ids sched (filter_sources n (feed_filters limit since authors)))
    as (evs & -> & Hnd & Hids & Hsub).
  cbn [bind]. exists (map eventToPost evs). split; [reflexivity |].
  rewrite post_ids. split; [exact Hnd |]. split; [exact Hids |].
  intros p Hp. apply list_elem_of_fmap in Hp. destruct Hp as (ev & -> & Hev).
  apply Hsub in Hev. apply list_elem_of_In, in_concat in Hev.
  destruct Hev as (src & Hsrc & Hev).
  apply list_elem_of_In in Hsrc, Hev.
  unfold filter_sources in Hsrc. apply list_elem_of_fmap in Hsrc.
  destruct Hsrc as (r & -> & Hr). exists r, ev. repeat split; assumption.
Qed.

(** X12. [getPosts] throws the public-key error exactly when the client
    holds no public key, or an empty one.  With a public key it returns,
    whatever the order in which the relays answer, posts with pairwise
    distinct ids, one for each id that some relay streamed. *)
Theorem getPosts_needs_public_key (n : Nostr) (sched : nat -> nat) :
  is_ok (getPosts n sched) = truthy_opt (_publicKey n) /\
  (truthy_opt (_publicKey n) = false -> getPosts n sched = Throw PublicKeyRequired) /\
  (truthy_opt (_publicKey n) = true ->
     exists posts,
       getPosts n sched = Ok posts /\
       NoDup (map post_id posts) /\
       forall x, x ∈ map post_id posts <-> x ∈ streamed_ids n (posts_filters (_publicKey n))).
Proof.
  unfold getPosts. fold (posts_filters (_publicKey n)).
  destruct (collect_unique_ids sched (filter_sources n (posts_filters (_publicKey n))))
    as (evs & -> & Hnd & Hids & _).
  cbn [bind].
  destruct (truthy_opt (_publicKey n)); simpl.
  - split; [reflexivity |]. split; [discriminate |]. intros _.
    exists (map eventToPost evs). split; [reflexivity |].
    rewrite post_ids. split; assumption.
  - split; [reflexivity |]. split; [reflexivity | discriminate].
Qed.

(** [getFollowerInfo], with its filter named. *)
Lemma getFollowerInfo_collects (n : Nostr) (sched : nat -> nat)
    (publicKey : option string) :
  getFollowerInfo n sched publicKey
  = let* events := collect true sched (filter_sources n (followers_filters publicKey)) in
    Ok (map pubkey events).
Proof. reflexivity. Qed.

(** X13. [getFollowerInfo] returns (it does not throw) one public key for
    each event collected, in order: one for every id that some relay
    streamed, so that a contact list streamed by several relays under one
    id counts once, while an author who is streamed under two ids is
    listed twice. *)
Theorem getFollowerInfo_one_per_event (n : Nostr) (sched : nat -> nat)
    (publicKey : option string) :
  exists evs,
    getFollowerInfo n sched publicKey = Ok (map pubkey evs) /\
    NoDup (map id evs) /\
    (forall x, x ∈ map id evs <-> x ∈ streamed_ids n (followers_filters publicKey)) /\
    (forall ev, ev ∈ evs ->
       exists r, r ∈ relayInstances n /\ ev ∈ events r (followers_filters publicKey)).
Proof.
  rewrite getFollowerInfo_collects.
  destruct (collect_unique_ids sched (filter_sources n (followers_filters publicKey)))
    as (evs & -> & Hnd & Hids & Hsub).
  cbn [bind]. exists evs. split; [reflexivity |].
  split; [exact Hnd |]. split; [exact Hids |].
  intros ev Hev. apply Hsub in Hev. apply list_elem_of_In, in_concat in Hev.
  destruct Hev as (src & Hsrc & Hev).
  apply list_elem_of_In in Hsrc, Hev.
  unfold filter_sources in Hsrc. apply list_elem_of_fmap in Hsrc.
  destruct Hsrc as (r & -> & Hr). exists r. split; assumption.
Qed.

(** *** One relay *)

Lemma single_source_turns (unique : bool) (m : Mux) (ts : list turn) (m' : Mux) :
  mux_run unique m ts m' -> mux_wf m -> length (iterators m) = 1%nat ->
  Forall (fun t => turn_iter t = 0%nat) ts.
Proof.
  induction 1 as [| m j t m1 ts m2 Hact Hturn Hrun IH]; intros Hwf Hone; [constructor |].
  destruct (mux_turn_spec unique j m t _ Hwf Hturn) as (m1' & [= <-] & Hspec).
  assert (Hone1 : length (iterators m1) = 1%nat).
  { rewrite <- Hone. apply (mux_run_iterators unique m [t] m1); [| exact Hwf].
    eapply run_turn; [exact Hact | exact Hturn | constructor]. }
  constructor; [| apply IH; [eapply turn_spec_wf; eassumption | exact Hone1]].
  assert (Hit : forall j it, relayIterators m !! j = Some it -> it = 0%nat).
  { intros j0 it Hj. pose proof (wf_bound m Hwf) as Hb.
    rewrite Forall_forall in Hb.
    assert (Hlt : (it < length (iterators m))%nat)
      by (apply Hb; eapply list_elem_of_lookup_2; exact Hj).
    lia. }
  inversion Hspec as [j0 it Hj Hnone | j0 it ev rest Hj Hsome]; subst.
  - simpl. eapply Hit; exact Hj.
  - destruct (to_yield unique m ev); simpl; eapply Hit; exact Hj.
Qed.

Lemma arrivals_single (ts : list turn) :
  Forall (fun t => turn_iter t = 0%nat) ts -> arrivals ts = arrivals_of 0 ts.
Proof.
  induction 1 as [| t ts Ht _ IH]; [reflexivity |].
  unfold arrivals, arrivals_of in *.
  destruct t as [it ev | it ev | it]; simpl in Ht; subst; simpl;
    [f_equal | f_equal |]; exact IH.
Qed.

(** X14. With a single relay, [collect] returns the events of the relay's
    stream in the order of the stream; under [unique] an event whose id
    came earlier in the stream is left out, and without [unique] the
    stream is returned as it is. *)
Theorem collect_single_relay (unique : bool) (sched : nat -> nat)
    (stream : list NostrEvent) :
  collect unique sched [stream]
  = Ok (if unique then first_by_id [] stream else stream).
Proof.
  destruct (collect_complete unique sched [stream]) as (ts & m & -> & Hdone).
  f_equal.
  pose proof (complete_order unique [stream] ts m 0 stream Hdone eq_refl) as Horder.
  pose proof (single_source_turns unique _ ts m (proj1 Hdone) (mux_start_wf [stream])
                eq_refl) as Hturns.
  apply arrivals_single in Hturns. rewrite <- Horder, <- Hturns.
  destruct unique.
  - apply (mux_run_yields ts _ _ (proj1 Hdone) (mux_start_wf [stream])).
  - apply (mux_run_plain ts _ _ (proj1 Hdone) (mux_start_wf [stream])).
Qed.

(** ** The key codec: what [getKeyFromNip19] reads *)

Lemma no_separator_spec (s : string) :
  no_separator s = true -> Forall (fun d => Ascii.eqb d "1" = false) (chars s).
Proof.
  unfold no_separator. intros Hs. apply Forall_forall. intros c Hc.
  rewrite forallb_forall in Hs. apply negb_true_iff, Hs, list_elem_of_In, Hc.
Qed.

Lemma split_chars_first (sep : ascii) (pre rest : list ascii) :
  Forall (fun d => Ascii.eqb d sep = false) pre ->
  forall cur,
    split_chars sep cur (pre ++ sep :: rest)
    = str (rev cur ++ pre) :: split_chars sep [] rest.
Proof.
  induction 1 as [| d pre Hd _ IH]; intros cur; simpl.
  - now rewrite Ascii.eqb_refl, app_nil_r.
  - rewrite Hd, IH. simpl. now rewrite <- app_assoc.
Qed.

(** X15. [getKeyFromNip19] reads the text before the first separator [1]
    and the text between the first and the second: whatever follows a
    second separator is ignored, and the key is decoded as if it were not
    there. *)
Theorem getKeyFromNip19_reads_two_parts (prefix data junk : string) :
  no_separator prefix = true -> no_separator data = true ->
  getKeyFromNip19 (prefix +:+ "1" +:+ data +:+ "1" +:+ junk)
  = getKeyFromNip19 (prefix +:+ "1" +:+ data).
Proof.
  intros Hprefix Hdata.
  apply no_separator_spec in Hprefix, Hdata.
  assert (Hlong : split "1" (prefix +:+ "1" +:+ data +:+ "1" +:+ junk)
                  = prefix :: data :: split "1" junk).
  { unfold split. rewrite !chars_app. change (chars "1") with ["1"%char]. simpl app.
    rewrite (split_chars_first "1" (chars prefix) _ Hprefix []). simpl app.
    rewrite (split_chars_first "1" (chars data) _ Hdata []). simpl app.
    now rewrite !str_chars. }
  assert (Hshort : split "1" (prefix +:+ "1" +:+ data) = [prefix; data]).
  { rewrite <- (str_chars (prefix +:+ "1" +:+ data)), !chars_app.
    change (chars "1") with ["1"%char]. simpl app.
    rewrite (split_once "1" (chars prefix) (chars data) Hprefix Hdata).
    now rewrite !str_chars. }
  unfold getKeyFromNip19. rewrite Hlong, Hshort. reflexivity.
Qed.

Lemma getKeyFromNip19_reads_two_parts_witness :
  getKeyFromNip19
    ("npub" +:+ "1" +:+ "80cvv07tjdrrgpa0j7j7tmnyl2yr6yr7l8j4s3evf6u64th6gkwsyjh6w6"
       +:+ "1" +:+ "anything at all")
  = getKeyFromNip19
      ("npub" +:+ "1" +:+ "80cvv07tjdrrgpa0j7j7tmnyl2yr6yr7l8j4s3evf6u64th6gkwsyjh6w6").
Proof.
  apply (getKeyFromNip19_reads_two_parts "npub"
           "80cvv07tjdrrgpa0j7j7tmnyl2yr6yr7l8j4s3evf6u64th6gkwsyjh6w6"
           "anything at all"); reflexivity.
Defined.

(** ** The key codec under any prefix *)

Lemma prefix_fine_spec (p : string) :
  prefix_fine p = true ->
  chars p <> [] /\
  Forall (fun c => 33 <= charCode c <= 126) (chars p) /\
  Forall plain_letter (chars p).
Proof.
  unfold prefix_fine. intros Hp. apply andb_prop in Hp as [Hne Hall].
  split; [destruct p; [discriminate | simpl; discriminate] |].
  rewrite forallb_forall in Hall.
  split; apply Forall_forall; intros c Hc; apply list_elem_of_In, Hall in Hc;
    unfold prefix_letter in Hc;
    apply andb_prop in Hc as [Hc Hsep]; apply andb_prop in Hc as [Hc Hlow];
    apply andb_prop in Hc as [H33 H126].
  - apply Z.leb_le in H33, H126. lia.
  - split; [now apply Ascii.eqb_eq | now apply negb_true_iff].
Qed.

Lemma prefix_high_ok (cs : list ascii) :
  Forall (fun c => 33 <= charCode c <= 126) cs ->
  forall chk, 0 <= chk ->
    exists chk', Bech32.prefix_high cs chk = Ok chk' /\ 0 <= chk'.
Proof.
  induction 1 as [| c cs Hc _ IH]; intros chk Hchk; simpl; [eauto |].
  destruct (charCode c <? 33) eqn:E1; [apply Z.ltb_lt in E1; lia |].
  destruct (126 <? charCode c) eqn:E2; [apply Z.ltb_lt in E2; lia |].
  simpl. apply IH. apply Z.lxor_nonneg.
  pose proof (polymod_nonneg chk Hchk).
  assert (0 <= Z.shiftr (charCode c) 5) by (apply Z.shiftr_nonneg; lia). tauto.
Qed.

Lemma mapM_length {A B} (f : A -> result B) (l : list A) :
  forall l', Bech32.mapM f l = Ok l' -> length l' = length l.
Proof.
  induction l as [| a l IH]; intros l' Hl; simpl in *.
  - now injection Hl as <-.
  - destruct (f a); [| discriminate]. simpl in Hl.
    destruct (Bech32.mapM f l) as [bs |]; [| discriminate].
    injection Hl as <-. simpl. f_equal. now apply IH.
Qed.

Lemma checksum_prefix (p : string) (ws : list Z) :
  Forall (fun c => 33 <= charCode c <= 126) (chars p) -> digits 5 ws ->
  exists sw cs,
    Bech32.bechChecksum p ws Bech32.ENCODING_CONST = Ok (str cs) /\
    Bech32.mapM Bech32.letter_of sw = Ok cs /\
    length sw = 6%nat /\ digits 5 sw.
Proof.
  intros Hp Hws. unfold Bech32.bechChecksum.
  destruct (prefix_high_ok (chars p) Hp 1 ltac:(lia)) as (chk0 & -> & Hchk0).
  cbn [bind].
  match goal with |- context [Z.rem ?c (2 ^ 30)] => set (chk := c) end.
  assert (Hchk : 0 <= chk).
  { unfold chk. apply Z.lxor_nonneg. split; [intros _; unfold Bech32.ENCODING_CONST; lia |].
    intros _.
    assert (Hsix : forall (l : list nat) c, 0 <= c ->
               0 <= foldl (fun chk _ => Bech32.bech32Polymod chk) c l).
    { induction l as [| x l IH]; intros c Hc; simpl; [assumption |].
      apply IH, polymod_nonneg, Hc. }
    apply Hsix.
    apply (fold_polymod_nonneg (fun v => v)).
    { eapply Forall_impl; [exact Hws |]. simpl. intros d Hd. lia. }
    apply (fold_polymod_nonneg (fun c => Z.land (charCode c) 31)).
    { apply Forall_forall. intros c _. apply Z.land_nonneg. right. lia. }
    apply polymod_nonneg. exact Hchk0. }
  rewrite Z.rem_mod_nonneg by lia.
  destruct (six_words (chk mod 2 ^ 30)) as (sw & -> & Hlen & Hdig).
  { apply Z.mod_pos_bound. lia. }
  cbn [bind]. unfold Bech32.alphabet_encode.
  destruct (letters_of_words sw Hdig) as (cs & Hcs & _ & _ & _).
  exists sw, cs. rewrite Hcs. simpl. repeat split; assumption.
Qed.

Lemma encode_prefix (p : string) (ws : list Z) (limit : Z) :
  prefix_fine p = true -> digits 5 ws ->
  Z.of_nat (String.length p) + 7 + Z.of_nat (length ws) <= limit ->
  exists cs scs,
    Bech32.encode p ws limit = Ok (str (chars p ++ "1"%char :: cs ++ scs)) /\
    (Bech32.mapM Bech32.digit_of cs = Ok ws /\ Forall plain_letter cs) /\
    Bech32.bechChecksum p ws Bech32.ENCODING_CONST = Ok (str scs) /\
    (is_ok (Bech32.mapM Bech32.digit_of scs) = true /\ length scs = 6%nat /\
     Forall plain_letter scs).
Proof.
  intros Hp Hws Hlimit.
  destruct (prefix_fine_spec p Hp) as (Hne & Hrange & Hplainp).
  destruct (letters_of_words ws Hws) as (cs & Hcs & Hback & Hlen & Hplain).
  destruct (checksum_prefix p ws Hrange Hws) as (sw & scs & Hsum & Hscs & Hlen6 & Hsw).
  destruct (letters_of_words sw Hsw) as (scs' & Hscs' & Hback' & Hlen' & Hplain').
  rewrite Hscs in Hscs'. injection Hscs' as <-.
  assert (Hlow : toLowerCase p = p).
  { rewrite <- (str_chars p) at 1. rewrite toLowerCase_fixed; [apply str_chars |].
    now apply plain_letters_lower. }
  exists cs, scs. split.
  - unfold Bech32.encode.
    destruct (limit <? Z.of_nat (String.length p) + 7 + Z.of_nat (length ws)) eqn:Hover;
      [apply Z.ltb_lt in Hover; lia |].
    rewrite Hlow.
    unfold Bech32.alphabet_encode. rewrite Hcs. cbn [bind]. rewrite Hsum. cbn [bind].
    f_equal. rewrite <- (str_chars (p +:+ "1" +:+ str cs +:+ str scs)).
    rewrite !chars_app, !chars_str. reflexivity.
  - repeat split; try assumption; [now rewrite Hback' | congruence].
Qed.

Lemma decode_prefix (p : string) (ws : list Z) (cs scs : list ascii) (limit : Z) :
  prefix_fine p = true ->
  Z.of_nat (String.length p) + 7 + Z.of_nat (length ws) <= limit ->
  Bech32.mapM Bech32.digit_of cs = Ok ws ->
  Forall plain_letter cs ->
  Bech32.bechChecksum p ws Bech32.ENCODING_CONST = Ok (str scs) ->
  is_ok (Bech32.mapM Bech32.digit_of scs) = true -> length scs = 6%nat ->
  Forall plain_letter scs ->
  Bech32.decode (str (chars p ++ "1"%char :: cs ++ scs)) limit = Ok (p, ws).
Proof.
  intros Hp Hlimit Hcs Hplain Hsum Hscs Hlen6 Hplain6.
  destruct (prefix_fine_spec p Hp) as (Hne & Hrange & Hplainp).
  destruct (Bech32.mapM Bech32.digit_of scs) as [sw |] eqn:Hsw; [| discriminate].
  pose proof (mapM_length _ _ _ Hcs) as Hlen.
  pose proof (mapM_length _ _ _ Hsw) as Hlensw.
  set (body := cs ++ scs).
  assert (Hbody : Forall plain_letter body) by (apply Forall_app; split; assumption).
  assert (Hlenb : length body = (length ws + 6)%nat).
  { unfold body. rewrite length_app. lia. }
  set (s := str (chars p ++ "1"%char :: body)).
  assert (Hchars : chars s = chars p ++ "1"%char :: body) by apply chars_str.
  assert (Hplen : length (chars p) = String.length p) by apply length_chars.
  assert (Hpos : (0 < length (chars p))%nat).
  { destruct (chars p); [contradiction | simpl; lia]. }
  assert (Hslen : String.length s = (String.length p + 1 + (length ws + 6))%nat).
  { rewrite <- length_chars, Hchars, length_app. simpl. lia. }
  assert (Hlow : toLowerCase s = s).
  { apply toLowerCase_fixed. apply Forall_app. split; [now apply plain_letters_lower |].
    constructor; [reflexivity | now apply plain_letters_lower]. }
  unfold Bech32.decode. rewrite Hslen.
  destruct (Z.of_nat (String.length p + 1 + (length ws + 6)) <? 8) eqn:H8;
    [apply Z.ltb_lt in H8; lia |].
  destruct (limit <? Z.of_nat (String.length p + 1 + (length ws + 6))) eqn:Hl;
    [apply Z.ltb_lt in Hl; lia |].
  simpl orb. cbv iota. rewrite Hlow.
  rewrite String.eqb_refl. simpl andb. cbv iota.
  unfold lastIndexOf. rewrite Hchars.
  rewrite lastIndexOf_last by now apply plain_letters_no_sep.
  simpl Nat.add.
  destruct (length (chars p)) as [| k] eqn:Hk; [lia |].
  rewrite <- Hk. rewrite take_app_length.
  replace (S (length (chars p))) with (length (chars p ++ ["1"%char]))
    by (rewrite length_app; simpl; lia).
  rewrite (cons_middle "1"%char (chars p) body), app_assoc, drop_app_length.
  rewrite <- length_chars, chars_str, Hlenb.
  destruct (length ws + 6 <? 6)%nat eqn:H6; [apply Nat.ltb_lt in H6; lia |].
  unfold Bech32.alphabet_decode. rewrite chars_str.
  unfold body. rewrite (mapM_app _ _ _ _ _ Hcs Hsw). cbn [bind].
  rewrite length_app, Hlensw, Hlen6.
  replace (length ws + 6 - 6)%nat with (length ws) by lia.
  rewrite take_app_length. rewrite str_chars.
  rewrite Hsum. cbn [bind]. rewrite endsWith_suffix. reflexivity.
Qed.

(** The bech32 form of a key under a prefix decodes to the key. *)
Lemma nip19_prefix_roundtrip (p : string) (data : list Z) :
  prefix_fine p = true -> Forall is_byte data ->
  5 * (Z.of_nat (String.length p) + 7) + 8 * Z.of_nat (length data) + 4 <= 7500 ->
  exists rest,
    nip19_of_key p (bytesToHex data) = Ok (p +:+ "1" +:+ rest) /\
    no_separator rest = true /\
    getKeyFromNip19 (p +:+ "1" +:+ rest) = Ok (bytesToHex data).
Proof.
  intros Hp Hdata Hshort.
  destruct (prefix_fine_spec p Hp) as (Hne & Hrange & Hplainp).
  destruct (toWords_spec data Hdata) as (ws & pad & Hws & Hdig & Hpad & Hlen & _).
  destruct (encode_prefix p ws Bech32MaxSize Hp Hdig)
    as (cs & scs & Henc & (Hcs & Hplain) & Hsum & (Hscs & Hl6 & Hplain6)).
  { unfold Bech32MaxSize. lia. }
  assert (Hbody : Forall plain_letter (cs ++ scs)) by (apply Forall_app; split; assumption).
  assert (Hs : str (chars p ++ "1"%char :: cs ++ scs) = p +:+ "1" +:+ str (cs ++ scs)).
  { rewrite <- (str_chars (p +:+ "1" +:+ str (cs ++ scs))), !chars_app, chars_str.
    reflexivity. }
  exists (str (cs ++ scs)). split; [| split].
  - unfold nip19_of_key. rewrite hexToBytes_render by assumption. cbn [bind].
    rewrite Hws. cbn [bind]. rewrite Henc, Hs. reflexivity.
  - unfold no_separator. rewrite chars_str. apply forallb_forall. intros c Hc.
    apply list_elem_of_In in Hc. rewrite Forall_forall in Hbody.
    destruct (Hbody c Hc) as [_ Hsep]. now rewrite Hsep.
  - unfold getKeyFromNip19. rewrite <- Hs.
    rewrite (split_once "1" (chars p) (cs ++ scs)).
    + simpl lookup. unfold template. simpl default. rewrite str_chars, <- Hs.
      rewrite (decode_prefix p ws cs scs 1500) by (assumption || lia).
      cbn [bind snd]. rewrite (fromWords_toWords data ws Hdata Hws). reflexivity.
    + now apply plain_letters_no_sep.
    + now apply plain_letters_no_sep.
Qed.

(** ** The setters and the bech32 forms of a key *)

Lemma is_key_bytes (k : string) :
  is_key k = true ->
  exists data, Forall is_byte data /\ length data = 32%nat /\ k = bytesToHex data.
Proof.
  unfold is_key. intros Hk. apply andb_prop in Hk as [Hlen Hhex].
  apply Nat.eqb_eq in Hlen.
  destruct (lower_hex_bytes 32 (chars k)) as (data & Hbytes & Hn & Hrender);
    [rewrite length_chars; exact Hlen | exact Hhex |].
  exists data. split; [exact Hbytes |]. split; [exact Hn |].
  unfold bytesToHex. rewrite Hrender. symmetry. apply str_chars.
Qed.

Lemma lower_hex_not_n (c : ascii) : is_lower_hex c = true -> Ascii.eqb c "n" = false.
Proof.
  destruct c as [[] [] [] [] [] [] [] []]; intros Hc; try reflexivity;
    vm_compute in Hc; discriminate.
Qed.

(** A hex key starts with neither [npub] nor [nsec]. *)
Lemma is_key_plain (k : string) :
  is_key k = true ->
  String.eqb (substring0 4 k) "npub" = false /\
  String.eqb (substring0 4 k) "nsec" = false.
Proof.
  unfold is_key. intros Hk. apply andb_prop in Hk as [Hlen Hhex].
  destruct k as [| c k]; [discriminate |].
  simpl in Hhex. apply andb_prop in Hhex as [Hc _].
  apply lower_hex_not_n in Hc.
  unfold substring0. simpl. rewrite Hc. split; reflexivity.
Qed.

(** X16. The public-key setter takes a key in its [npub] form: for every
    key of 32 bytes in lowercase hex, setting the bech32 form that
    [getNip19FromKey] gives stores the hex key, as setting the hex key
    itself does. *)
Theorem publicKey_setter_takes_npub (k : string) (n : Nostr) :
  is_key k = true ->
  exists s,
    getNip19FromKey k = Ok s /\
    set_publicKey s n = (Ok tt, with_publicKey n (Some k)) /\
    set_publicKey k n = (Ok tt, with_publicKey n (Some k)).
Proof.
  intros Hk. destruct (is_key_plain k Hk) as [Hnpub _].
  destruct (is_key_bytes k Hk) as (data & Hbytes & Hlen & ->).
  destruct (nip19_prefix_roundtrip "npub" data eq_refl Hbytes) as (rest & Henc & _ & Hdec).
  { change (Z.of_nat (String.length "npub")) with 4. lia. }
  exists ("npub" +:+ "1" +:+ rest). split; [exact Henc |]. split.
  - unfold set_publicKey.
    change (String.eqb (substring0 4 ("npub" +:+ "1" +:+ rest)) "npub") with true.
    cbv iota. rewrite Hdec. reflexivity.
  - unfold set_publicKey. rewrite Hnpub. reflexivity.
Qed.

Lemma publicKey_setter_takes_npub_witness :
  exists s,
    getNip19FromKey nip19_example_key = Ok s /\
    set_publicKey s new_Nostr = (Ok tt, with_publicKey new_Nostr (Some nip19_example_key)) /\
    set_publicKey nip19_example_key new_Nostr
    = (Ok tt, with_publicKey new_Nostr (Some nip19_example_key)).
Proof.
  apply (publicKey_setter_takes_npub nip19_example_key new_Nostr).
  vm_compute. reflexivity.
Defined.

Section KeyForms.
Context `{Platform}.

(** X17. The private-key setter takes a key in its [nsec] form: for every
    key of 32 bytes in lowercase hex, setting the bech32 form of the key
    under the prefix [nsec] leaves the client, and fails or not, exactly
    as setting the hex key does. *)
Theorem privateKey_setter_takes_nsec (k : string) (n : Nostr) :
  is_key k = true ->
  exists s,
    nip19_of_key "nsec" k = Ok s /\
    substring0 4 s = "nsec" /\
    set_privateKey s n = set_privateKey k n.
Proof.
  intros Hk. destruct (is_key_plain k Hk) as [_ Hnsec].
  destruct (is_key_bytes k Hk) as (data & Hbytes & Hlen & ->).
  destruct (nip19_prefix_roundtrip "nsec" data eq_refl Hbytes) as (rest & Henc & _ & Hdec).
  { change (Z.of_nat (String.length "nsec")) with 4. lia. }
  exists ("nsec" +:+ "1" +:+ rest). split; [exact Henc |]. split; [reflexivity |].
  unfold set_privateKey.
  change (String.eqb (substring0 4 ("nsec" +:+ "1" +:+ rest)) "nsec") with true.
  cbv iota. rewrite Hdec, Hnsec. reflexivity.
Qed.

End KeyForms.

Lemma privateKey_setter_takes_nsec_witness :
  exists s,
    nip19_of_key "nsec" nip19_example_secret = Ok s /\
    substring0 4 s = "nsec" /\
    @set_privateKey StandIn.platform s new_Nostr
    = @set_privateKey StandIn.platform nip19_example_secret new_Nostr.
Proof.
  apply (@privateKey_setter_takes_nsec StandIn.platform nip19_example_secret new_Nostr).
  vm_compute. reflexivity.
Defined.

(** The bech32 form of the example secret key. *)
Example nip19_example_secret_encoding :
  nip19_of_key "nsec" nip19_example_secret
  = Ok "nsec1vl029mgpspedva04g90vltkh6fvh240zqtv9k0t9af8935ke9laqsnlfe5".
Proof. vm_compute. reflexivity. Qed.

(** ** The merging loop: how often a relay is polled *)

Lemma mux_run_polls (unique : bool) (m : Mux) (ts : list turn) (m' : Mux) :
  mux_run unique m ts m' -> mux_wf m ->
  (forall it,
     next_calls m' !! it
     = (fun k => (k + length (arrivals_of it ts))%nat) <$> next_calls m !! it) /\
  yieldedEventIds m'
  = yieldedEventIds m ++ (if unique then map id (forwarded ts) else []).
Proof.
  induction 1 as [m | m j t m1 ts m2 _ Hturn _ IH]; intros Hwf.
  - split.
    + intros it. destruct (next_calls m !! it) as [k |]; simpl; [f_equal; lia | reflexivity].
    + destruct unique; simpl; now rewrite app_nil_r.
  - destruct (mux_turn_spec unique j m t _ Hwf Hturn) as (m1' & [= <-] & Hspec).
    assert (Hwf1 : mux_wf m1) by eauto using turn_spec_wf.
    destruct (IH Hwf1) as [Hcalls Hids].
    inversion Hspec as [j' it0 Hj Hit | j' it0 ev rest0 Hj Hit Hlabel]; subst.
    + split; [intros it; apply Hcalls | exact Hids].
    + split.
      * intros it. rewrite Hcalls. cbn [next_calls].
        assert (Harr : arrivals_of it
                         ((if to_yield unique m ev then Forwarded it0 ev else Dropped it0 ev)
                            :: ts)
                       = (if decide (it0 = it) then [ev] else []) ++ arrivals_of it ts).
        { unfold arrivals_of. destruct (to_yield unique m ev); simpl;
            destruct (decide (it0 = it)); reflexivity. }
        rewrite Harr. destruct (decide (it0 = it)) as [-> | Hne].
        -- rewrite list_lookup_alter.
           destruct (decide (it = it)) as [_ | Hne]; [| congruence].
           destruct (next_calls m !! it) as [k |]; [| reflexivity].
           cbn [fmap option_fmap option_map]. f_equal.
           rewrite length_app. cbn [length]. lia.
        -- rewrite list_lookup_alter_ne by assumption. reflexivity.
      * rewrite Hids. cbn [yieldedEventIds].
        destruct unique.
        -- rewrite andb_true_r. destruct (to_yield true m ev); simpl.
           ++ now rewrite <- app_assoc.
           ++ reflexivity.
        -- simpl. reflexivity.
Qed.

(** X18. The merging loop polls each relay one item ahead and no further:
    at every point of the iteration the number of calls of [next()] made
    on a relay's iterator is one more than the number of events received
    from it, these events are a prefix of the relay's stream, and the ids
    recorded are those of the events yielded so far (none at all without
    [unique]).  When the loop has ended each iterator was polled once for
    each of its events and once more for its exhaustion. *)
Theorem mux_polls_one_ahead (unique : bool) (sources : list (list NostrEvent))
    (ts : list turn) (m : Mux) :
  mux_run unique (mux_start sources) ts m ->
  (forall it items,
     sources !! it = Some items ->
     exists rest,
       iterators m !! it = Some rest /\
       items = arrivals_of it ts ++ rest /\
       next_calls m !! it = Some (S (length (arrivals_of it ts)))) /\
  yieldedEventIds m = (if unique then map id (forwarded ts) else []) /\
  (relayIterators m = [] -> next_calls m = map (fun items => S (length items)) sources).
Proof.
  intros Hrun. pose proof (mux_start_wf sources) as Hwf.
  destruct (mux_run_polls unique _ ts m Hrun Hwf) as [Hcalls Hids].
  pose proof (mux_run_iterators unique _ ts m Hrun Hwf) as Hlen.
  change (length (iterators (mux_start sources))) with (length sources) in Hlen.
  assert (Hone : forall it items,
             sources !! it = Some items ->
             next_calls m !! it = Some (S (length (arrivals_of it ts)))).
  { intros it items Hit. rewrite Hcalls. cbn [mux_start next_calls].
    rewrite lookup_replicate_2 by (eapply lookup_lt_Some; exact Hit). reflexivity. }
  split; [| split].
  - intros it items Hit.
    destruct (lookup_lt_is_Some_2 (iterators m) it) as [rest Hrest].
    { rewrite Hlen. eapply lookup_lt_Some; exact Hit. }
    exists rest. split; [exact Hrest |]. split.
    + exact (mux_run_order unique it _ ts m Hrun Hwf items rest Hit Hrest).
    + eapply Hone; exact Hit.
  - exact Hids.
  - intros Hend. apply list_eq. intros it. rewrite list_lookup_fmap.
    destruct (sources !! it) as [items |] eqn:Hit; simpl.
    + rewrite (Hone it items Hit).
      rewrite (complete_order unique sources ts m it items (conj Hrun Hend) Hit).
      reflexivity.
    + rewrite Hcalls. cbn [mux_start next_calls].
      rewrite (proj1 (lookup_replicate_None _ _ _)); [reflexivity |].
      apply lookup_ge_None in Hit. exact Hit.
Qed.

Lemma mux_polls_one_ahead_witness :
  exists ts m,
    mux_exec true round_robin 8 0 (mux_start overlapping_sources) = (ts, Ok m) /\
    yieldedEventIds m = map id (forwarded ts) /\
    next_calls m = [4%nat; 4%nat].
Proof.
  destruct (mux_exec true round_robin 8 0 (mux_start overlapping_sources))
    as [ts [m | e]] eqn:Hexec; [| vm_compute in Hexec; discriminate].
  assert (Hend : relayIterators m = []).
  { vm_compute in Hexec. injection Hexec as _ <-. reflexivity. }
  exists ts, m. split; [reflexivity |].
  destruct (mux_polls_one_ahead true overlapping_sources ts m
              (mux_exec_run _ _ _ _ _ _ _ Hexec)) as (_ & Hids & Hcalls).
  split; [exact Hids | exact (Hcalls Hend)].
Defined.

(** ** The commitment of an event *)

Lemma unescape_escape (c : ascii) (r : list ascii) :
  json_unescape (json_escape_char c ++ r) = Some (c, r).
Proof. destruct c as [[] [] [] [] [] [] [] []]; reflexivity. Qed.

Lemma escape_head (c : ascii) :
  exists h t, json_escape_char c = h :: t /\ Ascii.eqb h quote = false.
Proof.
  destruct c as [[] [] [] [] [] [] [] []];
    (eexists; eexists; split; [reflexivity | reflexivity]).
Qed.

Lemma string_body_inj (s : list ascii) :
  forall s' r r',
    flat_map json_escape_char s ++ quote :: r
    = flat_map json_escape_char s' ++ quote :: r' ->
    s = s' /\ r = r'.
Proof.
  induction s as [| c s IH]; intros [| c' s'] r r' Heq; simpl in Heq.
  - injection Heq as <-. split; reflexivity.
  - destruct (escape_head c') as (h & t & Hc' & Hh). rewrite Hc' in Heq.
    simpl in Heq. injection Heq as <- _. rewrite Ascii.eqb_refl in Hh. discriminate.
  - destruct (escape_head c) as (h & t & Hc & Hh). rewrite Hc in Heq.
    simpl in Heq. injection Heq as -> _. rewrite Ascii.eqb_refl in Hh. discriminate.
  - rewrite <- !app_assoc in Heq.
    apply (f_equal json_unescape) in Heq. rewrite !unescape_escape in Heq.
    injection Heq as <- Heq. destruct (IH _ _ _ Heq) as [<- <-]. split; reflexivity.
Qed.

Lemma json_string_chars (s : string) :
  chars (json_string s) = quote :: flat_map json_escape_char (chars s) ++ [quote].
Proof. unfold json_string. apply chars_str. Qed.

(** A string as [JSON.stringify] writes it ends where its closing quote
    stands: two written strings of which one starts the other are equal. *)
Lemma json_string_inj (s s' : string) (r r' : list ascii) :
  chars (json_string s) ++ r = chars (json_string s') ++ r' -> s = s' /\ r = r'.
Proof.
  rewrite !json_string_chars. simpl. rewrite <- !app_assoc. simpl.
  intros [= Heq]. destruct (string_body_inj _ _ _ _ Heq) as [Hs Hr].
  split; [| exact Hr]. rewrite <- (str_chars s), <- (str_chars s'). now f_equal.
Qed.

Lemma json_opt_string_inj (s s' : option string) (r r' : list ascii) :
  chars (json_opt_string s) ++ r = chars (json_opt_string s') ++ r' -> s = s' /\ r = r'.
Proof.
  destruct s as [s |], s' as [s' |]; simpl json_opt_string; intros Heq.
  - destruct (json_string_inj _ _ _ _ Heq) as [-> ->]. split; reflexivity.
  - rewrite json_string_chars in Heq. simpl in Heq. discriminate.
  - rewrite json_string_chars in Heq. simpl in Heq. discriminate.
  - simpl in Heq. injection Heq as <-. split; reflexivity.
Qed.

(** *** Numbers *)

Lemma pretty_N_char_plain (x : N) : Ascii.eqb (pretty_N_char x) "," = false.
Proof. unfold pretty_N_char. repeat case_match; reflexivity. Qed.

Lemma pretty_N_go_plain (x : N) :
  forall s,
    Forall (fun c => Ascii.eqb c "," = false) (chars s) ->
    Forall (fun c => Ascii.eqb c "," = false) (chars (pretty_N_go x s)).
Proof.
  induction (N.lt_wf_0 x) as [x _ IH]; intros s Hs.
  assert (x = 0 \/ 0 < x)%N as [-> | Hpos] by lia.
  - now rewrite pretty_N_go_0.
  - rewrite pretty_N_go_step by assumption. apply IH.
    + now apply N.div_lt.
    + simpl. constructor; [apply pretty_N_char_plain | exact Hs].
Qed.

Lemma pretty_Z_plain (z : Z) :
  Forall (fun c => Ascii.eqb c "," = false) (chars (pretty z)).
Proof.
  assert (Hpos : forall p : positive,
             Forall (fun c => Ascii.eqb c "," = false) (chars (pretty p))).
  { intros p. unfold pretty, pretty_positive, pretty, pretty_N.
    destruct (decide (N.pos p = 0%N)); [repeat constructor |].
    apply pretty_N_go_plain. constructor. }
  destruct z as [| p | p]; unfold pretty, pretty_Z.
  - repeat constructor.
  - apply Hpos.
  - change (chars ("-" +:+ pretty p)) with ("-"%char :: chars (pretty p)).
    constructor; [reflexivity | apply Hpos].
Qed.

Lemma until_comma (a : list ascii) :
  forall a' r r',
    Forall (fun c => Ascii.eqb c "," = false) a ->
    Forall (fun c => Ascii.eqb c "," = false) a' ->
    a ++ ","%char :: r = a' ++ ","%char :: r' -> a = a' /\ r = r'.
Proof.
  induction a as [| c a IH]; intros [| c' a'] r r' Ha Ha' Heq; simpl in Heq.
  - injection Heq as <-. split; reflexivity.
  - injection Heq as <- _. inversion Ha' as [| ? ? Hc' _]. discriminate.
  - injection Heq as -> _. inversion Ha as [| ? ? Hc _]. discriminate.
  - injection Heq as <- Heq.
    inversion Ha as [| ? ? _ Ha1]. inversion Ha' as [| ? ? _ Ha1']. subst.
    destruct (IH _ _ _ Ha1 Ha1' Heq) as [<- <-].
    split; reflexivity.
Qed.

Lemma number_inj (z z' : Z) (r r' : list ascii) :
  chars (pretty z) ++ ","%char :: r = chars (pretty z') ++ ","%char :: r' ->
  z = z' /\ r = r'.
Proof.
  intros Heq.
  destruct (until_comma _ _ _ _ (pretty_Z_plain z) (pretty_Z_plain z') Heq) as [Hz Hr].
  split; [| exact Hr]. apply (inj pretty).
  rewrite <- (str_chars (pretty z)), <- (str_chars (pretty z')). now f_equal.
Qed.

(** *** Arrays *)

Lemma join_chars (x : string) (items : list string) :
  chars (join "," (x :: items)) ++ chars "]" = chars x ++ array_rest items.
Proof.
  revert x. induction items as [| y items IH]; intros x.
  - reflexivity.
  - change (join "," (x :: y :: items)) with (x +:+ "," +:+ join "," (y :: items)).
    rewrite !chars_app, <- !app_assoc. f_equal. simpl array_rest. f_equal. apply IH.
Qed.

Lemma json_array_chars (items : list string) :
  chars (json_array items) = chars "[" ++ array_tail items.
Proof.
  unfold json_array. rewrite !chars_app. f_equal.
  destruct items as [| x items]; [reflexivity | apply join_chars].
Qed.

Section Arrays.
Context {A : Type} (g : A -> string).
Hypothesis g_inj :
  forall x x' r r', chars (g x) ++ r = chars (g x') ++ r' -> x = x' /\ r = r'.
Hypothesis g_head :
  forall x, exists h t, chars (g x) = h :: t /\ Ascii.eqb h "]" = false.

Lemma array_rest_inj (l : list A) :
  forall l' r r',
    array_rest (map g l) ++ r = array_rest (map g l') ++ r' -> l = l' /\ r = r'.
Proof.
  induction l as [| x l IH]; intros [| x' l'] r r' Heq; simpl in Heq;
    try discriminate.
  - injection Heq as <-. split; reflexivity.
  - injection Heq as Heq. rewrite <- !app_assoc in Heq.
    destruct (g_inj _ _ _ _ Heq) as [<- Heq'].
    destruct (IH _ _ _ Heq') as [<- <-]. split; reflexivity.
Qed.

Lemma json_array_inj (l l' : list A) (r r' : list ascii) :
  chars (json_array (map g l)) ++ r = chars (json_array (map g l')) ++ r' ->
  l = l' /\ r = r'.
Proof.
  rewrite !json_array_chars. simpl. intros [= Heq].
  destruct l as [| x l], l' as [| x' l']; simpl in Heq.
  - injection Heq as <-. split; reflexivity.
  - destruct (g_head x') as (h & t & Hx' & Hh). rewrite Hx' in Heq. simpl in Heq.
    injection Heq as <- _. discriminate.
  - destruct (g_head x) as (h & t & Hx & Hh). rewrite Hx in Heq. simpl in Heq.
    injection Heq as -> _. discriminate.
  - rewrite <- !app_assoc in Heq.
    destruct (g_inj _ _ _ _ Heq) as [<- Heq'].
    destruct (array_rest_inj _ _ _ _ Heq') as [<- <-]. split; reflexivity.
Qed.

Lemma json_array_head (l : list A) :
  exists h t, chars (json_array (map g l)) = h :: t /\ Ascii.eqb h "]" = false.
Proof. rewrite json_array_chars. simpl. eexists. eexists. split; reflexivity. Qed.

End Arrays.

Lemma json_string_head (s : string) :
  exists h t, chars (json_string s) = h :: t /\ Ascii.eqb h "]" = false.
Proof. rewrite json_string_chars. eexists. eexists. split; reflexivity. Qed.

Lemma tags_inj (ts ts' : list (list string)) (r r' : list ascii) :
  chars (json_array (map (fun tag => json_array (map json_string tag)) ts)) ++ r
  = chars (json_array (map (fun tag => json_array (map json_string tag)) ts')) ++ r' ->
  ts = ts' /\ r = r'.
Proof.
  apply (json_array_inj (fun tag => json_array (map json_string tag))).
  - intros x x' s s'. apply (json_array_inj json_string).
    + apply json_string_inj.
    + apply json_string_head.
  - intros x. apply (json_array_head json_string).
Qed.

Lemma tail_eq {A} (a b : A) (l l' : list A) : a :: l = b :: l' -> l = l'.
Proof. now intros [= _ ->]. Qed.

Lemma commitment_chars (e : NostrEvent) :
  chars (eventCommitment e)
  = "["%char :: "0"%char :: ","%char ::
    chars (json_opt_string (pubkey e)) ++ ","%char ::
    chars (pretty (created_at e)) ++ ","%char ::
    chars (pretty (kind e)) ++ ","%char ::
    chars (json_array (map (fun tag => json_array (map json_string tag)) (tags e)))
    ++ ","%char :: chars (json_string (content e)) ++ ["]"%char].
Proof.
  unfold eventCommitment.
  etransitivity; [apply json_array_chars |].
  cbn [array_tail array_rest]. reflexivity.
Qed.

(** X19. The commitment of an event determines every field that enters
    it: two events have the same commitment exactly when they have the
    same author, time, kind, tags and content.  The id and the signature
    do not enter it. *)
Theorem eventCommitment_determines_the_event (e1 e2 : NostrEvent) :
  eventCommitment e1 = eventCommitment e2 <-> committed e1 = committed e2.
Proof.
  split.
  - intros Heq. apply (f_equal chars) in Heq.
    rewrite !commitment_chars in Heq. do 3 apply tail_eq in Heq.
    destruct (json_opt_string_inj _ _ _ _ Heq) as [Hpub Heq1].
    apply tail_eq in Heq1.
    destruct (number_inj _ _ _ _ Heq1) as [Hcreated Heq2].
    destruct (number_inj _ _ _ _ Heq2) as [Hkind Heq3].
    destruct (tags_inj _ _ _ _ Heq3) as [Htags Heq4].
    apply tail_eq in Heq4.
    destruct (json_string_inj _ _ _ _ Heq4) as [Hcontent _].
    unfold committed. congruence.
  - unfold committed, eventCommitment. intros [= -> -> -> -> ->]. reflexivity.
Qed.

(** ** Connecting *)

Lemma connect_body_foldl (dial : RelayList -> result Relay) (items : list RelayList) :
  forall st,
    foldl (connect_body dial) st items
    = (fst st ++ omap (failure dial) items, snd st ++ omap (session dial) items).
Proof.
  induction items as [| item items IH]; intros [errors instances]; simpl.
  - now rewrite !app_nil_r.
  - rewrite IH. unfold connect_body, failure, session.
    destruct (dial item) as [relay | err]; simpl; now rewrite <- app_assoc.
Qed.

Lemma connect_run (dial : RelayList -> result Relay) (n : Nostr) :
  relayList n <> [] ->
  connect dial n
  = (Ok (omap (failure dial) (relayList n)),
     with_relays n (relayInstances n ++ omap (session dial) (relayList n))).
Proof.
  intros Hsome. unfold connect. rewrite connect_body_foldl.
  destruct (relayList n); [contradiction | reflexivity].
Qed.

(** X20. [connect] throws when the list of endpoints is empty, and leaves
    the client as it was.  Otherwise it does not throw: it tries every
    endpoint in order, appends to [relayInstances] a session, under the
    endpoint's name and url, for each endpoint that connects, and emits
    one [relayError] for each endpoint that does not; an endpoint that
    fails does not keep the endpoints after it from being tried.  The
    sessions that were there before stay, so connecting again adds the
    sessions a second time. *)
Theorem connect_tries_every_endpoint (dial : RelayList -> result Relay) (n : Nostr) :
  (relayList n = [] -> connect dial n = (Throw NoRelay, n)) /\
  (relayList n <> [] ->
     connect dial n
     = (Ok (omap (failure dial) (relayList n)),
        with_relays n (relayInstances n ++ omap (session dial) (relayList n))) /\
     (length (omap (session dial) (relayList n))
      + length (omap (failure dial) (relayList n)) = length (relayList n))%nat /\
     (forall item relay,
        item ∈ relayList n -> dial item = Ok relay ->
        named item relay ∈ omap (session dial) (relayList n)) /\
     snd (connect dial (snd (connect dial n)))
     = with_relays n (relayInstances n ++ omap (session dial) (relayList n)
                        ++ omap (session dial) (relayList n))).
Proof.
  split.
  - intros Hnone. unfold connect. now rewrite Hnone.
  - intros Hsome.
    split; [now apply connect_run |]. split; [| split].
    + clear. induction (relayList n) as [| item items IH]; [reflexivity |].
      cbn [omap list_omap]. unfold session at 1, failure at 1.
      fold (omap (session dial) items) (omap (failure dial) items).
      destruct (dial item); simpl; lia.
    + intros item relay Hitem Hdial. apply list_elem_of_omap.
      exists item. split; [exact Hitem |]. unfold session. now rewrite Hdial.
    + rewrite (connect_run dial n Hsome). cbn [snd].
      rewrite connect_run by exact Hsome.
      cbn [snd]. unfold with_relays. cbn. now rewrite <- app_assoc.
Qed.

Lemma connect_tries_every_endpoint_witness :
  connect dial_example client_endpoints
  = (Ok [TypeError "connection refused"],
     with_relays client_endpoints
       [ StandIn.relay_a;
         named {| rl_name := "one"; rl_url := "wss://one.example" |} StandIn.relay_a;
         named {| rl_name := "two"; rl_url := "wss://two.example" |} StandIn.relay_a ]).
Proof.
  refine (proj1 (proj2 (connect_tries_every_endpoint dial_example client_endpoints) _)).
  discriminate.
Defined.

Section PublishAfterConnect.
Context `{Platform}.


End PublishAfterConnect.


(** ** The setters when they throw *)

Section SetterFailures.
Context `{Platform}.


End SetterFailures.


(** ** main.ts: the last swaps of a mint *)

Section SwapFacts.
Variable Date_getTime : string -> option Z.

Lemma in_take {A} (x : A) (k : nat) (l : list A) : x ∈ take k l -> x ∈ l.
Proof.
  revert k. induction l as [| y l IH]; intros [| k]; simpl; try easy.
  rewrite !elem_of_cons. intros [-> | Hin]; [now left | right; eauto].
Qed.

Lemma in_drop {A} (x : A) (k : nat) (l : list A) : x ∈ drop k l -> x ∈ l.
Proof.
  revert k. induction l as [| y l IH]; intros [| k]; simpl; try easy.
  intros Hin. right. eauto.
Qed.

Lemma filter_perm {A} (p : A -> bool) (l l' : list A) :
  l ≡ₚ l' -> List.filter p l ≡ₚ List.filter p l'.
Proof.
  induction 1 as [| x l l' _ IH | x y l | l l' l'' _ IH1 _ IH2]; simpl.
  - reflexivity.
  - destruct (p x); [now rewrite IH | exact IH].
  - destruct (p x), (p y); try reflexivity. apply perm_swap.
  - now rewrite IH1.
Qed.

Lemma sort_insert_perm (x : Swap) (l : list Swap) :
  sort_insert (newest_first Date_getTime) x l ≡ₚ x :: l.
Proof.
  induction l as [| y l IH]; simpl; [reflexivity |].
  destruct ((newest_first Date_getTime) x y <=? 0); [reflexivity |].
  rewrite IH. apply perm_swap.
Qed.

Lemma Array_sort_perm (l : list Swap) : Array_sort (newest_first Date_getTime) l ≡ₚ l.
Proof.
  induction l as [| x l IH]; simpl; [reflexivity |].
  unfold Array_sort in *. simpl. now rewrite sort_insert_perm, IH.
Qed.

Lemma compare_valid (a b : Swap) :
  is_Some (Date_getTime (swap_created_at a)) ->
  is_Some (Date_getTime (swap_created_at b)) ->
  (newest_first Date_getTime) a b = swap_time Date_getTime b - swap_time Date_getTime a.
Proof.
  intros [ta Ha] [tb Hb]. unfold newest_first, swap_time. now rewrite Ha, Hb.
Qed.

Lemma sort_insert_descending (x : Swap) (l : list Swap) :
  is_Some (Date_getTime (swap_created_at x)) ->
  Forall (fun s => is_Some (Date_getTime (swap_created_at s))) l ->
  descending Date_getTime l -> descending Date_getTime (sort_insert (newest_first Date_getTime) x l).
Proof.
  intros Hx Hl. induction Hl as [| y l Hy Hl IH]; intros Hdesc; simpl.
  - split; [constructor | exact I].
  - destruct Hdesc as [Hhead Htail].
    rewrite (compare_valid x y Hx Hy).
    destruct (swap_time Date_getTime y - swap_time Date_getTime x <=? 0) eqn:Hle.
    + apply Z.leb_le in Hle. split; [| split; assumption].
      constructor; [lia |]. eapply Forall_impl; [exact Hhead |]. simpl. intros s Hs. lia.
    + apply Z.leb_gt in Hle. split; [| apply IH; exact Htail].
      rewrite sort_insert_perm. constructor; [lia | exact Hhead].
Qed.

Lemma Array_sort_descending (l : list Swap) :
  Forall (fun s => is_Some (Date_getTime (swap_created_at s))) l ->
  descending Date_getTime (Array_sort (newest_first Date_getTime) l).
Proof.
  induction 1 as [| x l Hx Hl IH]; [exact I |].
  unfold Array_sort in *. simpl. apply sort_insert_descending; [exact Hx | | exact IH].
  fold (Array_sort (newest_first Date_getTime) l). now rewrite Array_sort_perm.
Qed.

Lemma descending_filter (p : Swap -> bool) (l : list Swap) :
  descending Date_getTime l -> descending Date_getTime (List.filter p l).
Proof.
  induction l as [| x l IH]; intros Hdesc; simpl; [exact I |].
  destruct Hdesc as [Hhead Htail]. destruct (p x); simpl; [split |]; auto.
  apply Forall_forall. intros y Hy. rewrite Forall_forall in Hhead.
  apply Hhead. apply list_elem_of_In in Hy. apply filter_In in Hy.
  apply list_elem_of_In. tauto.
Qed.

Lemma descending_split (k : nat) (l : list Swap) :
  descending Date_getTime l ->
  descending Date_getTime (take k l) /\
  Forall (fun older =>
            Forall (fun kept => swap_time Date_getTime older <= swap_time Date_getTime kept)
                   (take k l))
         (drop k l).
Proof.
  revert k. induction l as [| x l IH]; intros [| k] Hdesc; simpl.
  - split; [exact I | constructor].
  - split; [exact I | constructor].
  - split; [exact I |]. apply Forall_forall. intros s _. constructor.
  - destruct Hdesc as [Hhead Htail]. destruct (IH k Htail) as [Htake Hdrop].
    split.
    + split; [| exact Htake]. apply Forall_forall. intros y Hy.
      rewrite Forall_forall in Hhead. apply Hhead.
      eapply in_take; exact Hy.
    + apply Forall_forall. intros s Hs. constructor.
      * rewrite Forall_forall in Hhead. apply Hhead.
        eapply in_drop; exact Hs.
      * rewrite Forall_forall in Hdrop. apply Hdrop. exact Hs.
Qed.

(** X23. When every swap has a date that can be read, [getLast10Swaps]
    returns at most ten swaps, each of them involving the mint, newest
    first, and they are the newest swaps that involve the mint: together
    with some other swaps, none of them newer than any of the swaps
    returned, they make up the swaps of [allSwaps] that involve the mint,
    and fewer than ten are returned only when there are no others.  The
    call leaves [allSwaps] sorted newest first, with the swaps it had. *)
Theorem getLast10Swaps_are_the_newest (allSwaps : list Swap) (mintId : Z) :
  Forall (fun s => is_Some (Date_getTime (swap_created_at s))) allSwaps ->
  let '(last10, sorted) := getLast10Swaps Date_getTime allSwaps mintId in
  (length last10 <= 10)%nat /\
  Forall (fun s => involves mintId s = true) last10 /\
  descending Date_getTime last10 /\
  (exists older,
     last10 ++ older ≡ₚ List.filter (involves mintId) allSwaps /\
     Forall (fun s =>
               Forall (fun kept => swap_time Date_getTime s <= swap_time Date_getTime kept)
                      last10) older /\
     ((length last10 < 10)%nat -> older = [])) /\
  sorted ≡ₚ allSwaps /\ descending Date_getTime sorted.
Proof.
  intros Hdates. unfold getLast10Swaps.
  set (sorted := Array_sort (newest_first Date_getTime) allSwaps).
  set (mine := List.filter (involves mintId) sorted).
  assert (Hsorted : descending Date_getTime sorted) by now apply Array_sort_descending.
  assert (Hperm : sorted ≡ₚ allSwaps) by apply Array_sort_perm.
  assert (Hmine : descending Date_getTime mine) by now apply descending_filter.
  destruct (descending_split 10 mine Hmine) as [Htake Hdrop].
  split; [rewrite length_take; lia |]. split; [| split; [exact Htake |]].
  - apply Forall_forall. intros s Hs. apply in_take in Hs.
    apply list_elem_of_In in Hs. apply filter_In in Hs. tauto.
  - split; [| split; assumption].
    exists (drop 10 mine). split; [| split].
    + rewrite take_drop. unfold mine.
      apply filter_perm. exact Hperm.
    + exact Hdrop.
    + rewrite length_take. intros Hshort. apply drop_ge. lia.
Qed.

End SwapFacts.

Lemma getLast10Swaps_are_the_newest_witness :
  map swap_id (fst (getLast10Swaps example_time example_swaps 7)) = [4; 3; 1] /\
  let '(last10, sorted) := getLast10Swaps example_time example_swaps 7 in
  (length last10 <= 10)%nat /\
  Forall (fun s => involves 7 s = true) last10 /\
  descending example_time last10 /\
  (exists older,
     last10 ++ older ≡ₚ List.filter (involves 7) example_swaps /\
     Forall (fun s =>
               Forall (fun kept => swap_time example_time s <= swap_time example_time kept)
                      last10) older /\
     ((length last10 < 10)%nat -> older = [])) /\
  sorted ≡ₚ example_swaps /\ descending example_time sorted.
Proof.
  split; [vm_compute; reflexivity |].
  apply (getLast10Swaps_are_the_newest example_time example_swaps 7).
  repeat constructor; eexists; reflexivity.
Defined.
